(** * Stellar React Native wallet SDK: event subscriptions and the
      transaction pipeline

    A shallow embedding of [EventService], [HorizonService],
    [TransactionService], [KeyManager] and the [StellarWallet] facade.

    The TypeScript classes mutate [this] and talk to collaborators (the
    Horizon server object, the Stellar SDK builders, the keychain, the
    registered listener callbacks).  Here every method is a computation in
    a small state-and-exception monad [M]: the state holds the fields of
    the service objects together with what the collaborators hold (open
    streams, keychain contents) and a trace of every call made to a
    collaborator; an exception is a thrown JavaScript error value.  What a
    collaborator answers is fixed by an environment [Env].

    [await] is modelled as plain sequencing: one call runs to completion,
    which is the single-threaded, one-operation-at-a-time reading of the
    code. *)

From Stdlib Require Import ZArith.
From stdpp Require Import base option strings list gmap.

Open Scope string_scope.
Open Scope list_scope.

(** ** JavaScript values and errors *)

(** The primitive values a field of an [any]-typed payload can hold. *)
Inductive JsValue :=
| JsUndefined
| JsNull
| JsBool (b : bool)
| JsNumber (n : Z)
| JsString (s : string).

#[global] Instance JsValue_eq_dec : EqDecision JsValue.
Proof. solve_decision. Defined.

(** [a === b] on primitives: same type and same value. *)
Definition strict_eq (a b : JsValue) : bool :=
  match a, b with
  | JsUndefined, JsUndefined => true
  | JsNull, JsNull => true
  | JsBool x, JsBool y => bool_decide (x = y)
  | JsNumber x, JsNumber y => bool_decide (x = y)
  | JsString x, JsString y => bool_decide (x = y)
  | _, _ => false
  end.

(** An [any]-typed message: an object as its list of properties. *)
Definition Payload := list (string * JsValue).

(** [obj.name]: the first binding of [name], [undefined] when absent. *)
Fixpoint prop (obj : Payload) (name : string) : JsValue :=
  match obj with
  | [] => JsUndefined
  | (k, v) :: rest => if bool_decide (k = name) then v else prop rest name
  end.

(** A thrown value.  [err_result_codes] is [Some c] when
    [error.response.data.extras] is present, [c] being the text
    [JSON.stringify(error.response.data.extras.result_codes)] yields. *)
Record JsError := {
  err_name : string;
  err_message : string;
  err_result_codes : option string;
}.

#[global] Instance JsError_eq_dec : EqDecision JsError.
Proof. solve_decision. Defined.

(** [new Error(msg)] *)
Definition new_Error (msg : string) : JsError :=
  {| err_name := "Error"; err_message := msg; err_result_codes := None |}.

(** [`${error}`], i.e. [Error.prototype.toString]. *)
Definition error_toString (e : JsError) : string :=
  if bool_decide (err_name e = "") then err_message e
  else if bool_decide (err_message e = "") then err_name e
  else err_name e +:+ ": " +:+ err_message e.

(** ** types/index.ts *)

Inductive EventType :=
| ACCOUNT_UPDATED
| PAYMENT_RECEIVED
| PAYMENT_SENT
| TRANSACTION_SUBMITTED
| TRANSACTION_FAILED.

#[global] Instance EventType_eq_dec : EqDecision EventType.
Proof. solve_decision. Defined.

(** The string value of each enum member; it is the key of the
    [listeners] map. *)
Definition EventType_value (t : EventType) : string :=
  match t with
  | ACCOUNT_UPDATED => "ACCOUNT_UPDATED"
  | PAYMENT_RECEIVED => "PAYMENT_RECEIVED"
  | PAYMENT_SENT => "PAYMENT_SENT"
  | TRANSACTION_SUBMITTED => "TRANSACTION_SUBMITTED"
  | TRANSACTION_FAILED => "TRANSACTION_FAILED"
  end.

Record EventData := {
  ev_type : EventType;
  ev_payload : Payload;
}.

#[global] Instance EventData_eq_dec : EqDecision EventData.
Proof. solve_decision. Defined.

(** An [EventCallback] is a function object; the [Set] compares them by
    reference, so a callback is its identity. *)
Abbreviation EventCallback := nat (only parsing).

Record KeyPairData := {
  publicKey : string;
  secretKey : option string;
}.

Record BalanceData := {
  asset_type : string;
  asset_code : option string;
  asset_issuer : option string;
  balance : string;
}.

Record AccountData := {
  acct_id : string;
  acct_name : option string;
  acct_keyPair : KeyPairData;
  acct_balances : option (list BalanceData);
}.

(** [Asset] of the Stellar SDK. *)
Inductive Asset :=
| AssetNative
| AssetCredit (code issuer : string).

Record PaymentOptions := {
  pay_destination : string;
  pay_amount : string;
  pay_asset : Asset;
  pay_memo : option string;
}.

Record TrustlineOptions := {
  trust_asset : Asset;
  trust_limit : option string;
}.

(** ** The Stellar SDK objects the services build

    The builder is a record of what it was given.  Where the SDK checks
    its arguments ([Operation.payment], [Operation.changeTrust],
    [Memo.text], [Keypair.fromSecret]) the answer comes from the
    environment below; the builder's constructor, [addOperation],
    [addMemo], [setTimeout], [build] and [sign] are taken not to throw. *)

Inductive Operation :=
| OpPayment (destination : string) (asset : Asset) (amount : string)
| OpChangeTrust (asset : Asset) (limit : option string)
| OpCreateAccount (destination : string) (startingBalance : string).

Inductive Memo :=
| MemoNone
| MemoText (text : string).

(** What [server.loadAccount] resolves to. *)
Record AccountRecord := {
  rec_id : string;
  rec_sequence : Z;
  rec_balances : list BalanceData;
}.

Record TransactionBuilder := {
  tb_source : AccountRecord;
  tb_fee : string;
  tb_networkPassphrase : string;
  tb_operations : list Operation;
  tb_memo : Memo;
  tb_timeout : option Z;
}.

(** A built transaction, the envelope. *)
Record Transaction := {
  tx_source : string;
  tx_sequence : Z;
  tx_fee : string;
  tx_networkPassphrase : string;
  tx_operations : list Operation;
  tx_memo : Memo;
  tx_timeout : option Z;
  tx_signatures : list string;
}.

(** [new TransactionBuilder(sourceAccount, { fee, networkPassphrase })] *)
Definition new_TransactionBuilder (sourceAccount : AccountRecord)
    (fee networkPassphrase : string) : TransactionBuilder :=
  {| tb_source := sourceAccount; tb_fee := fee;
     tb_networkPassphrase := networkPassphrase;
     tb_operations := []; tb_memo := MemoNone; tb_timeout := None |}.

Definition addOperation (op : Operation) (b : TransactionBuilder)
    : TransactionBuilder :=
  {| tb_source := tb_source b; tb_fee := tb_fee b;
     tb_networkPassphrase := tb_networkPassphrase b;
     tb_operations := tb_operations b ++ [op];
     tb_memo := tb_memo b; tb_timeout := tb_timeout b |}.

Definition addMemo (m : Memo) (b : TransactionBuilder) : TransactionBuilder :=
  {| tb_source := tb_source b; tb_fee := tb_fee b;
     tb_networkPassphrase := tb_networkPassphrase b;
     tb_operations := tb_operations b;
     tb_memo := m; tb_timeout := tb_timeout b |}.

Definition setTimeout (seconds : Z) (b : TransactionBuilder)
    : TransactionBuilder :=
  {| tb_source := tb_source b; tb_fee := tb_fee b;
     tb_networkPassphrase := tb_networkPassphrase b;
     tb_operations := tb_operations b;
     tb_memo := tb_memo b; tb_timeout := Some seconds |}.

(** A sequence number is a signed 64-bit integer, both in the account
    record Horizon answers with and in the envelope. *)
Definition int64_range (z : Z) : Prop :=
  (-9223372036854775808 <= z <= 9223372036854775807)%Z.

(** Storing a number in the 64 bits of the envelope: one more than the
    largest sequence number is the smallest one. *)
Definition int64_wrap (z : Z) : Z :=
  ((z + 9223372036854775808) mod 18446744073709551616
   - 9223372036854775808)%Z.

(** [.build()]: the envelope takes the sequence number after that of the
    source account, in 64 bits, and carries no signature yet. *)
Definition build (b : TransactionBuilder) : Transaction :=
  {| tx_source := rec_id (tb_source b);
     tx_sequence := int64_wrap (rec_sequence (tb_source b) + 1);
     tx_fee := tb_fee b;
     tx_networkPassphrase := tb_networkPassphrase b;
     tx_operations := tb_operations b;
     tx_memo := tb_memo b;
     tx_timeout := tb_timeout b;
     tx_signatures := [] |}.

(** [transaction.sign(keyPair)]: one more signature, named after the
    signer. *)
Definition sign (signer : string) (t : Transaction) : Transaction :=
  {| tx_source := tx_source t; tx_sequence := tx_sequence t;
     tx_fee := tx_fee t; tx_networkPassphrase := tx_networkPassphrase t;
     tx_operations := tx_operations t; tx_memo := tx_memo t;
     tx_timeout := tx_timeout t;
     tx_signatures := tx_signatures t ++ [signer] |}.

(** ** Collaborators *)

Inductive StreamKind := AccountsStream | PaymentsStream.

#[global] Instance StreamKind_eq_dec : EqDecision StreamKind.
Proof. solve_decision. Defined.

(** A streaming connection held open by the Horizon server object.  The
    function [stream(...)] returns, the close callback, is identified with
    the handle of the connection it closes. *)
Record Stream := {
  s_handle : nat;
  s_kind : StreamKind;
  s_account : string;
}.

(** Every call that leaves the services, in the order it is made. *)
Inductive Call :=
| OpenStream (kind : StreamKind) (account cursor : string) (handle : nat)
| CloseStream (handle : nat)
| InvokeListener (callback : EventCallback) (event : EventData)
| ConsoleError (text : string)
| LoadAccount (pk : string)
| SubmitTransaction (t : Transaction)
| KeychainSet (accounts : list AccountData).

(** What the collaborators answer.  [inl e] and [Some e] mean that the
    call throws (or the promise rejects with) [e]. *)
Record Env := {
  networkPassphrase : string;
  server_loadAccount : string -> JsError + AccountRecord;
  server_submitTransaction : Transaction -> JsError + string;
  Operation_payment : string -> Asset -> string -> option JsError;
  Operation_changeTrust : Asset -> option string -> option JsError;
  Operation_createAccount : string -> string -> option JsError;
  Memo_text : string -> option JsError;
  Keypair_fromSecret : string -> JsError + string;
  close_throws : nat -> option JsError;
  callback_throws : EventCallback -> EventData -> option JsError;
}.

(** What the keychain ([react-native-keychain]) answers: [Some e] means
    that the call rejects with [e].  A stored password that does not
    parse as JSON ends in the same [catch] as a failed read and is
    counted as one.  A stored password that does parse is taken to be
    what [storeAccount] and [deleteAccount] write, an array of account
    records; text put there by other means that parses to something else
    ([null], an object, an array holding a [null]) has no counterpart
    here. *)
Record Keychain := {
  getGenericPassword_throws : option JsError;
  setGenericPassword_throws : list AccountData -> option JsError;
}.

(** ** State and monad *)

Record State := {
  (** EventService.listeners: Map<string, Set<EventCallback>>; a [Set] is
      the list of its members in insertion order *)
  st_listeners : gmap string (list EventCallback);
  (** EventService.closeCallbacks: Map<string, () => void>, entries in
      insertion order *)
  st_closeCallbacks : list (string * nat);
  (** connections the server object holds open *)
  st_streams : list Stream;
  (** handle of the next connection *)
  st_next : nat;
  (** what the keychain stores under the accounts key *)
  st_keychain : option (list AccountData);
  (** trace of calls, oldest first *)
  st_calls : list Call;
}.

Definition initial_state : State :=
  {| st_listeners := ∅; st_closeCallbacks := []; st_streams := [];
     st_next := 0; st_keychain := None; st_calls := [] |}.

Inductive Outcome (A : Type) :=
| Returned (a : A)
| Thrown (e : JsError).
Arguments Returned {A} a.
Arguments Thrown {A} e.

Definition M (A : Type) : Type := State -> Outcome A * State.

Definition ret {A} (a : A) : M A := fun s => (Returned a, s).

Definition throw {A} (e : JsError) : M A := fun s => (Thrown e, s).

Definition bind {A B} (m : M A) (f : A -> M B) : M B :=
  fun s =>
    match m s with
    | (Returned a, s') => f a s'
    | (Thrown e, s') => (Thrown e, s')
    end.

(** [try { m } catch (error) { handler error }] *)
Definition try_catch {A} (m : M A) (handler : JsError -> M A) : M A :=
  fun s =>
    match m s with
    | (Returned a, s') => (Returned a, s')
    | (Thrown e, s') => handler e s'
    end.

Notation "x <- m ;; k" := (bind m (fun x => k))
  (at level 100, m at next level, right associativity).
Notation "m ;;; k" := (bind m (fun _ => k))
  (at level 100, right associativity).

Definition set_listeners (v : gmap string (list EventCallback)) (s : State)
    : State :=
  {| st_listeners := v; st_closeCallbacks := st_closeCallbacks s;
     st_streams := st_streams s; st_next := st_next s;
     st_keychain := st_keychain s; st_calls := st_calls s |}.

Definition set_closeCallbacks (v : list (string * nat)) (s : State) : State :=
  {| st_listeners := st_listeners s; st_closeCallbacks := v;
     st_streams := st_streams s; st_next := st_next s;
     st_keychain := st_keychain s; st_calls := st_calls s |}.

Definition set_streams (v : list Stream) (n : nat) (s : State) : State :=
  {| st_listeners := st_listeners s;
     st_closeCallbacks := st_closeCallbacks s;
     st_streams := v; st_next := n;
     st_keychain := st_keychain s; st_calls := st_calls s |}.

Definition set_keychain (v : option (list AccountData)) (s : State) : State :=
  {| st_listeners := st_listeners s;
     st_closeCallbacks := st_closeCallbacks s;
     st_streams := st_streams s; st_next := st_next s;
     st_keychain := v; st_calls := st_calls s |}.

Definition log (c : Call) (s : State) : State :=
  {| st_listeners := st_listeners s;
     st_closeCallbacks := st_closeCallbacks s;
     st_streams := st_streams s; st_next := st_next s;
     st_keychain := st_keychain s; st_calls := st_calls s ++ [c] |}.

(** Lift an answer of the environment. *)
Definition answer {A} (r : JsError + A) : M A :=
  match r with
  | inl e => throw e
  | inr a => ret a
  end.

Definition check (r : option JsError) : M unit :=
  match r with
  | Some e => throw e
  | None => ret tt
  end.

(** ** JavaScript [Map] and [Set], in insertion order *)

Fixpoint jsmap_get {V} (k : string) (m : list (string * V)) : option V :=
  match m with
  | [] => None
  | (k', v) :: rest => if bool_decide (k' = k) then Some v else jsmap_get k rest
  end.

(** [map.set(k, v)]: an existing key keeps its place, a new key goes
    last. *)
Fixpoint jsmap_set {V} (k : string) (v : V) (m : list (string * V))
    : list (string * V) :=
  match m with
  | [] => [(k, v)]
  | (k', v') :: rest =>
      if bool_decide (k' = k) then (k, v) :: rest
      else (k', v') :: jsmap_set k v rest
  end.

Fixpoint jsmap_delete {V} (k : string) (m : list (string * V))
    : list (string * V) :=
  match m with
  | [] => []
  | (k', v') :: rest =>
      if bool_decide (k' = k) then rest else (k', v') :: jsmap_delete k rest
  end.

(** [set.add(x)] *)
Definition jsset_add (x : nat) (s : list nat) : list nat :=
  if bool_decide (x ∈ s) then s else s ++ [x].

(** [set.delete(x)] *)
Definition jsset_delete (x : nat) (s : list nat) : list nat :=
  filter (fun y => y ≠ x) s.

(** ** Primitive calls to the collaborators *)

Section Primitives.

Context (E : Env).

(** [server.accounts().accountId(pk).cursor('now').stream(handlers)] and
    its payments twin: a connection is opened and its close callback
    returned. *)
Definition server_stream (kind : StreamKind) (account : string) : M nat :=
  fun s =>
    let h := st_next s in
    (Returned h,
     log (OpenStream kind account "now" h)
       (set_streams
          (st_streams s ++
             [{| s_handle := h; s_kind := kind; s_account := account |}])
          (S h) s)).

(** [closeCallback()]: the connection goes away unless the callback
    throws. *)
Definition call_close (h : nat) : M unit :=
  fun s =>
    let s1 := log (CloseStream h) s in
    match close_throws E h with
    | Some e => (Thrown e, s1)
    | None =>
        (Returned tt,
         set_streams (filter (fun x => s_handle x ≠ h) (st_streams s1))
           (st_next s1) s1)
    end.

(** [callback(eventData)] *)
Definition call_listener (cb : EventCallback) (ev : EventData) : M unit :=
  fun s =>
    let s1 := log (InvokeListener cb ev) s in
    match callback_throws E cb ev with
    | Some e => (Thrown e, s1)
    | None => (Returned tt, s1)
    end.

Definition console_error (text : string) : M unit :=
  fun s => (Returned tt, log (ConsoleError text) s).

Definition server_call_loadAccount (pk : string) : M AccountRecord :=
  fun s => answer (server_loadAccount E pk) (log (LoadAccount pk) s).

Definition server_call_submitTransaction (t : Transaction) : M string :=
  fun s => answer (server_submitTransaction E t) (log (SubmitTransaction t) s).

End Primitives.

(** ** EventService *)

Module EventService.

Section WithEnv.

Context (E : Env).

Definition addEventListener (eventType : EventType) (callback : EventCallback)
    : M unit :=
  fun s =>
    let key := EventType_value eventType in
    let ls1 :=
      if bool_decide (is_Some (st_listeners s !! key)) then st_listeners s
      else <[key := []]> (st_listeners s) in
    let ls2 :=
      match ls1 !! key with
      | Some set => <[key := jsset_add callback set]> ls1
      | None => ls1
      end in
    (Returned tt, set_listeners ls2 s).

Definition removeEventListener (eventType : EventType)
    (callback : EventCallback) : M unit :=
  fun s =>
    let key := EventType_value eventType in
    match st_listeners s !! key with
    | Some set =>
        (Returned tt,
         set_listeners (<[key := jsset_delete callback set]> (st_listeners s)) s)
    | None => (Returned tt, s)
    end.

(** The body of [listeners.forEach]: each callback runs inside its own
    [try]/[catch]. *)
Fixpoint forEach_listener (eventData : EventData) (set : list EventCallback)
    : M unit :=
  match set with
  | [] => ret tt
  | callback :: rest =>
      try_catch (call_listener E callback eventData)
        (fun error =>
           console_error
             ("Error in event listener for "
                +:+ EventType_value (ev_type eventData) +:+ ": "
                +:+ error_toString error)) ;;;
      forEach_listener eventData rest
  end.

Definition emitEvent (eventData : EventData) : M unit :=
  fun s =>
    match st_listeners s !! EventType_value (ev_type eventData) with
    | Some set => forEach_listener eventData set s
    | None => (Returned tt, s)
    end.

Definition closeCallbacks_delete (subscriptionId : string) : M unit :=
  fun s =>
    (Returned tt,
     set_closeCallbacks (jsmap_delete subscriptionId (st_closeCallbacks s)) s).

Definition closeCallbacks_set (subscriptionId : string) (closeCallback : nat)
    : M unit :=
  fun s =>
    (Returned tt,
     set_closeCallbacks
       (jsmap_set subscriptionId closeCallback (st_closeCallbacks s)) s).

Definition unsubscribe (subscriptionId : string) : M bool :=
  fun s =>
    match jsmap_get subscriptionId (st_closeCallbacks s) with
    | Some closeCallback =>
        (call_close E closeCallback ;;;
         closeCallbacks_delete subscriptionId ;;;
         ret true) s
    | None => (Returned false, s)
    end.

Definition account_subscriptionId (pk : string) : string := "account-" +:+ pk.

Definition payments_subscriptionId (pk : string) : string :=
  "payments-" +:+ pk.

Definition subscribeToAccount (pk : string) : M string :=
  let subscriptionId := account_subscriptionId pk in
  unsubscribe subscriptionId ;;;
  closeCallback <- server_stream AccountsStream pk ;;
  closeCallbacks_set subscriptionId closeCallback ;;;
  ret subscriptionId.

Definition subscribeToPayments (pk : string) : M string :=
  let subscriptionId := payments_subscriptionId pk in
  unsubscribe subscriptionId ;;;
  closeCallback <- server_stream PaymentsStream pk ;;
  closeCallbacks_set subscriptionId closeCallback ;;;
  ret subscriptionId.

(** The [onmessage] handler of an accounts stream. *)
Definition account_onmessage (accountData : Payload) : M unit :=
  emitEvent {| ev_type := ACCOUNT_UPDATED; ev_payload := accountData |}.

(** The event the [onmessage] handler of the payments stream of [pk]
    makes of a message. *)
Definition payment_event (pk : string) (paymentData : Payload) : EventData :=
  let eventType :=
    if strict_eq (prop paymentData "to") (JsString pk) then PAYMENT_RECEIVED
    else PAYMENT_SENT in
  {| ev_type := eventType; ev_payload := paymentData |}.

Definition payments_onmessage (pk : string) (paymentData : Payload) : M unit :=
  emitEvent (payment_event pk paymentData).

(** The server delivers a message on connection [h]: the handler given
    to [stream] when [h] was opened runs; a closed connection delivers
    nothing. *)
Definition deliver (h : nat) (message : Payload) : M unit :=
  fun s =>
    match list_find (fun x => s_handle x = h) (st_streams s) with
    | Some (_, x) =>
        match s_kind x with
        | AccountsStream => account_onmessage message s
        | PaymentsStream => payments_onmessage (s_account x) message s
        end
    | None => (Returned tt, s)
    end.

(** The body of [closeCallbacks.forEach]: no [try]/[catch] here. *)
Fixpoint forEach_close (entries : list (string * nat)) : M unit :=
  match entries with
  | [] => ret tt
  | (_, closeCallback) :: rest =>
      call_close E closeCallback ;;; forEach_close rest
  end.

(** [closeCallbacks.clear()] *)
Definition closeCallbacks_clear : M unit :=
  fun s => (Returned tt, set_closeCallbacks [] s).

Definition unsubscribeAll : M unit :=
  fun s => (forEach_close (st_closeCallbacks s) ;;; closeCallbacks_clear) s.

End WithEnv.

End EventService.

(** ** HorizonService *)

Module HorizonService.

Section WithEnv.

Context (E : Env).

Definition getNetworkPassphrase : string := networkPassphrase E.

Definition loadAccount (pk : string) : M AccountRecord :=
  try_catch (server_call_loadAccount E pk)
    (fun error =>
       throw (new_Error ("Error loading account: " +:+ error_toString error))).

Definition submitTransaction (transactionEnvelope : Transaction) : M string :=
  try_catch (server_call_submitTransaction E transactionEnvelope)
    (fun error =>
       match err_result_codes error with
       | Some codes => throw (new_Error ("Transaction failed: " +:+ codes))
       | None =>
           throw (new_Error
                    ("Error submitting transaction: "
                       +:+ error_toString error))
       end).

(** [account.balances as BalanceData[]] *)
Definition getAccountBalances (pk : string) : M (list BalanceData) :=
  try_catch
    (account <- loadAccount pk ;;
     ret (rec_balances account))
    (fun error =>
       throw (new_Error
                ("Error getting account balances: "
                   +:+ error_toString error))).

(** [account.balances || []]: an array, empty or not, is truthy. *)
Definition getBalances (pk : string) : M (list BalanceData) :=
  try_catch
    (account <- loadAccount pk ;;
     ret (rec_balances account))
    (fun error =>
       console_error ("Error getting balances: " +:+ error_toString error) ;;;
       throw error).

Definition accountExists (pk : string) : M bool :=
  try_catch
    (loadAccount pk ;;;
     ret true)
    (fun error => ret false).

End WithEnv.

End HorizonService.

(** ** TransactionService *)

Module TransactionService.

Section WithEnv.

Context (E : Env).

(** [if (options.memo)]: a string is truthy unless it is empty. *)
Definition memo_truthy (memo : option string) : bool :=
  match memo with
  | Some text => negb (bool_decide (text = ""))
  | None => false
  end.

Definition createPaymentTransaction (sourcePublicKey : string)
    (options : PaymentOptions) : M Transaction :=
  try_catch
    (sourceAccount <- HorizonService.loadAccount E sourcePublicKey ;;
     let networkPassphrase := HorizonService.getNetworkPassphrase E in
     check (Operation_payment E (pay_destination options)
              (pay_asset options) (pay_amount options)) ;;;
     let transaction :=
       addOperation
         (OpPayment (pay_destination options) (pay_asset options)
            (pay_amount options))
         (new_TransactionBuilder sourceAccount "100" networkPassphrase) in
     transaction <-
       (if memo_truthy (pay_memo options) then
          let text := default "" (pay_memo options) in
          check (Memo_text E text) ;;;
          ret (addMemo (MemoText text) transaction)
        else ret transaction) ;;
     ret (build (setTimeout 30 transaction)))
    (fun error =>
       throw (new_Error
                ("Error creating payment transaction: "
                   +:+ error_toString error))).

Definition createTrustlineTransaction (sourcePublicKey : string)
    (options : TrustlineOptions) : M Transaction :=
  try_catch
    (sourceAccount <- HorizonService.loadAccount E sourcePublicKey ;;
     let networkPassphrase := HorizonService.getNetworkPassphrase E in
     check (Operation_changeTrust E (trust_asset options)
              (trust_limit options)) ;;;
     let transaction :=
       addOperation
         (OpChangeTrust (trust_asset options) (trust_limit options))
         (new_TransactionBuilder sourceAccount "100" networkPassphrase) in
     ret (build (setTimeout 30 transaction)))
    (fun error =>
       throw (new_Error
                ("Error creating trustline transaction: "
                   +:+ error_toString error))).

Definition signTransaction (transaction : Transaction) (secretKey : string)
    : M Transaction :=
  try_catch
    (keyPair <- answer (Keypair_fromSecret E secretKey) ;;
     ret (sign keyPair transaction))
    (fun error =>
       throw (new_Error
                ("Error signing transaction: " +:+ error_toString error))).

Definition submitTransaction (transaction : Transaction) : M string :=
  try_catch (HorizonService.submitTransaction E transaction)
    (fun error =>
       throw (new_Error
                ("Error submitting transaction: " +:+ error_toString error))).

Definition sendPayment (sourcePublicKey secretKey : string)
    (options : PaymentOptions) : M string :=
  try_catch
    (transaction <- createPaymentTransaction sourcePublicKey options ;;
     signedTransaction <- signTransaction transaction secretKey ;;
     submitTransaction signedTransaction)
    (fun error =>
       throw (new_Error ("Error sending payment: " +:+ error_toString error))).

Definition addTrustline (sourcePublicKey secretKey : string)
    (options : TrustlineOptions) : M string :=
  try_catch
    (transaction <- createTrustlineTransaction sourcePublicKey options ;;
     signedTransaction <- signTransaction transaction secretKey ;;
     submitTransaction signedTransaction)
    (fun error =>
       throw (new_Error ("Error adding trustline: " +:+ error_toString error))).

Definition createAccount (sourcePublicKey secretKey : string)
    (destinationPublicKey startingBalance : string) : M string :=
  try_catch
    (sourceAccount <- HorizonService.loadAccount E sourcePublicKey ;;
     let networkPassphrase := HorizonService.getNetworkPassphrase E in
     check (Operation_createAccount E destinationPublicKey startingBalance) ;;;
     let transaction :=
       build
         (setTimeout 30
            (addOperation
               (OpCreateAccount destinationPublicKey startingBalance)
               (new_TransactionBuilder sourceAccount "100"
                  networkPassphrase))) in
     signedTransaction <- signTransaction transaction secretKey ;;
     submitTransaction signedTransaction)
    (fun error =>
       throw (new_Error ("Error creating account: " +:+ error_toString error))).

End WithEnv.

End TransactionService.

(** ** KeyManager: the locally stored account directory

    The accounts live in the keychain as one JSON array; the state holds
    the array as parsed.  [generateKeypair], [signData] and
    [verifySignature] are calls into the SDK's key pair and have no model
    here. *)

Module KeyManager.

Section WithEnv.

Context (E : Env) (K : Keychain).

(** The key pair the SDK makes of a secret key is given by its public
    key; [keypair.secret()] is the secret key it was made of. *)
Definition importFromSecret (secretKey : string) : M KeyPairData :=
  try_catch
    (keypair <- answer (Keypair_fromSecret E secretKey) ;;
     ret {| publicKey := keypair; secretKey := Some secretKey |})
    (fun error =>
       throw (new_Error ("Invalid secret key: " +:+ error_toString error))).

(** [Keychain.getGenericPassword({ service })] and the parse of what it
    returns; [None] is the [false] of an empty keychain.  The parse of a
    stored array of account records is that array. *)
Definition Keychain_getGenericPassword : M (option (list AccountData)) :=
  fun s =>
    match getGenericPassword_throws K with
    | Some e => (Thrown e, s)
    | None => (Returned (st_keychain s), s)
    end.

(** [Keychain.setGenericPassword(ACCOUNTS_KEY, JSON.stringify(accounts),
    { service })] *)
Definition Keychain_setGenericPassword (accounts : list AccountData)
    : M unit :=
  fun s =>
    let s1 := log (KeychainSet accounts) s in
    match setGenericPassword_throws K accounts with
    | Some e => (Thrown e, s1)
    | None => (Returned tt, set_keychain (Some accounts) s1)
    end.

Definition getAccounts : M (list AccountData) :=
  try_catch
    (result <- Keychain_getGenericPassword ;;
     match result with
     | Some accounts => ret accounts
     | None => ret []
     end)
    (fun error =>
       console_error
         ("Error retrieving accounts: " +:+ error_toString error) ;;;
       ret []).

Definition storeAccount (account : AccountData) : M bool :=
  try_catch
    (accounts <- getAccounts ;;
     let accounts' :=
       match list_find (fun acc => acct_id acc = acct_id account) accounts with
       | Some (existingIndex, _) => <[existingIndex := account]> accounts
       | None => accounts ++ [account]
       end in
     Keychain_setGenericPassword accounts' ;;;
     ret true)
    (fun error =>
       console_error ("Error storing account: " +:+ error_toString error) ;;;
       ret false).

Definition getAccount (id : string) : M (option AccountData) :=
  accounts <- getAccounts ;;
  ret (snd <$> list_find (fun acc => acct_id acc = id) accounts).

Definition deleteAccount (id : string) : M bool :=
  try_catch
    (accounts <- getAccounts ;;
     let filteredAccounts := filter (fun acc => acct_id acc ≠ id) accounts in
     if bool_decide (length accounts = length filteredAccounts) then
       ret false
     else
       Keychain_setGenericPassword filteredAccounts ;;;
       ret true)
    (fun error =>
       console_error ("Error deleting account: " +:+ error_toString error) ;;;
       ret false).

End WithEnv.

End KeyManager.

(** ** StellarWallet, the facade *)

Module StellarWallet.

Section WithEnv.

Context (E : Env) (K : Keychain).

(** [name || 'Account ' + keyPair.publicKey.substring(0, 5)] *)
Definition account_name (name : option string) (keyPair : KeyPairData)
    : string :=
  match name with
  | Some text =>
      if bool_decide (text = "") then
        "Account " +:+ String.substring 0 5 (publicKey keyPair)
      else text
  | None => "Account " +:+ String.substring 0 5 (publicKey keyPair)
  end.

Definition importAccount (secretKey : string) (name : option string)
    : M AccountData :=
  keyPair <- KeyManager.importFromSecret E secretKey ;;
  ret {| acct_id := publicKey keyPair;
         acct_name := Some (account_name name keyPair);
         acct_keyPair := keyPair;
         acct_balances := None |}.

Definition storeAccount (account : AccountData) : M bool :=
  KeyManager.storeAccount K account.

Definition getAccounts : M (list AccountData) := KeyManager.getAccounts K.

Definition getAccount (id : string) : M (option AccountData) :=
  KeyManager.getAccount K id.

Definition deleteAccount (id : string) : M bool :=
  KeyManager.deleteAccount K id.

Definition loadAccountData (pk : string) : M AccountData :=
  try_catch
    (storedAccount <- KeyManager.getAccount K pk ;;
     match storedAccount with
     | None => throw (new_Error ("Account not found: " +:+ pk))
     | Some storedAccount =>
         accountRecord <- HorizonService.loadAccount E pk ;;
         let updatedAccount :=
           {| acct_id := acct_id storedAccount;
              acct_name := acct_name storedAccount;
              acct_keyPair := acct_keyPair storedAccount;
              acct_balances := Some (rec_balances accountRecord) |} in
         KeyManager.storeAccount K updatedAccount ;;;
         ret updatedAccount
     end)
    (fun error =>
       throw (new_Error
                ("Error loading account data: " +:+ error_toString error))).

Definition sendPayment (sourcePublicKey secretKey : string)
    (options : PaymentOptions) : M string :=
  TransactionService.sendPayment E sourcePublicKey secretKey options.

Definition addTrustline (sourcePublicKey secretKey : string)
    (options : TrustlineOptions) : M string :=
  TransactionService.addTrustline E sourcePublicKey secretKey options.

(** [startingBalance = '1']: the default stands in for a missing
    argument. *)
Definition createAccount (sourcePublicKey secretKey : string)
    (destinationPublicKey : string) (startingBalance : option string)
    : M string :=
  TransactionService.createAccount E sourcePublicKey secretKey
    destinationPublicKey (default "1" startingBalance).

End WithEnv.

End StellarWallet.

(** * Specification vocabulary *)

(** ** Reading the trace *)

(** The calls a computation makes when started in [s]. *)
Definition calls_of {A} (m : M A) (s : State) : list Call :=
  drop (length (st_calls s)) (st_calls (snd (m s))).

(** The listener invocations of a trace, in order. *)
Definition invocations (cs : list Call) : list (EventCallback * EventData) :=
  omap (fun c => match c with
                 | InvokeListener cb ev => Some (cb, ev)
                 | _ => None
                 end) cs.

(** How often a trace invokes the listener [cb]. *)
Definition times_invoked (cb : EventCallback) (cs : list Call) : nat :=
  length (filter (fun y => y = cb) (invocations cs).*1).

(** The transactions a trace hands to [server.submitTransaction]. *)
Definition submissions (cs : list Call) : list Transaction :=
  omap (fun c => match c with
                 | SubmitTransaction t => Some t
                 | _ => None
                 end) cs.

(** The account lists a trace writes to the keychain. *)
Definition keychain_writes (cs : list Call) : list (list AccountData) :=
  omap (fun c => match c with
                 | KeychainSet accounts => Some accounts
                 | _ => None
                 end) cs.

(** The close callbacks a trace invokes, in order. *)
Definition closings (cs : list Call) : list nat :=
  omap (fun c => match c with
                 | CloseStream h => Some h
                 | _ => None
                 end) cs.

Definition add_calls (cs : list Call) (s : State) : State :=
  {| st_listeners := st_listeners s;
     st_closeCallbacks := st_closeCallbacks s;
     st_streams := st_streams s; st_next := st_next s;
     st_keychain := st_keychain s; st_calls := (st_calls s ++ cs)%list |}.

(** A computation that changes nothing but the trace. *)
Definition only_logs {A} (m : M A) : Prop :=
  forall s, exists cs,
    snd (m s) = add_calls cs s /\ keychain_writes cs = [].

(** ** Listeners *)

(** The listeners registered for an event class. *)
Definition listeners_of (s : State) (t : EventType) : list EventCallback :=
  default [] (st_listeners s !! EventType_value t).

(** What [emitEvent] adds to the trace for one listener: the invocation
    and, when the listener throws, the logged error. *)
Definition listener_trace (E : Env) (ev : EventData) (cb : EventCallback)
    : list Call :=
  InvokeListener cb ev ::
  match callback_throws E cb ev with
  | Some e =>
      [ConsoleError
         ("Error in event listener for " +:+ EventType_value (ev_type ev)
            +:+ ": " +:+ error_toString e)]
  | None => []
  end.

(** A [Set] holds each member once. *)
Definition listeners_wf (s : State) : Prop :=
  forall k set, st_listeners s !! k = Some set -> NoDup set.

(** ** Subscriptions *)

(** The subscription key: event class and account. *)
Definition subscriptionId_of (kind : StreamKind) (pk : string) : string :=
  match kind with
  | AccountsStream => EventService.account_subscriptionId pk
  | PaymentsStream => EventService.payments_subscriptionId pk
  end.

Definition subscribe (E : Env) (kind : StreamKind) : string -> M string :=
  match kind with
  | AccountsStream => EventService.subscribeToAccount E
  | PaymentsStream => EventService.subscribeToPayments E
  end.

Definition stream_key (x : Stream) : string :=
  subscriptionId_of (s_kind x) (s_account x).

(** The connections open for one subscription key. *)
Definition streams_for (kind : StreamKind) (pk : string) (s : State)
    : list Stream :=
  filter (fun x => s_kind x = kind /\ s_account x = pk) (st_streams s).

Definition at_most_one_stream (s : State) : Prop :=
  forall kind pk, length (streams_for kind pk s) <= 1.

(** What holds of the registry in every state the service reaches: the
    map has one entry per key, each close callback is stored once and
    was handed out by the server, and every open connection is the one
    registered under its key. *)
Record registry_wf (s : State) : Prop := {
  wf_keys : NoDup (st_closeCallbacks s).*1;
  wf_handles : NoDup (st_closeCallbacks s).*2;
  wf_fresh : Forall (fun kh => kh.2 < st_next s) (st_closeCallbacks s);
  wf_streams : NoDup (s_handle <$> st_streams s);
  wf_streams_fresh : Forall (fun x => s_handle x < st_next s) (st_streams s);
  wf_registered :
    Forall (fun x =>
              jsmap_get (stream_key x) (st_closeCallbacks s)
              = Some (s_handle x))
      (st_streams s);
}.

(** The registry after [unsubscribe id] closed the callback [h]. *)
Definition after_close (id : string) (h : nat) (s : State) : State :=
  set_closeCallbacks (jsmap_delete id (st_closeCallbacks s))
    (set_streams (filter (fun x => s_handle x ≠ h) (st_streams s))
       (st_next s) (log (CloseStream h) s)).

(** The registry after a connection for [id] was opened and stored. *)
Definition after_open (kind : StreamKind) (pk id : string) (s : State)
    : State :=
  set_closeCallbacks (jsmap_set id (st_next s) (st_closeCallbacks s))
    (log (OpenStream kind pk "now" (st_next s))
       (set_streams
          (st_streams s ++
             [{| s_handle := st_next s; s_kind := kind; s_account := pk |}])
          (S (st_next s)) s)).

(** The subscribe contract as worded for every registry state: the call
    returns the deterministic id. *)
Definition subscribe_returns_id (E : Env) (s : State) (kind : StreamKind)
    (pk : string) : Prop :=
  fst (subscribe E kind pk s) = Returned (subscriptionId_of kind pk).

(** The [unsubscribe] contract as worded for every registry state. *)
Definition unsubscribe_contract (E : Env) (s : State) (id : string) : Prop :=
  match jsmap_get id (st_closeCallbacks s) with
  | None => EventService.unsubscribe E id s = (Returned false, s)
  | Some h =>
      let s' := snd (EventService.unsubscribe E id s) in
      fst (EventService.unsubscribe E id s) = Returned true
      /\ closings (calls_of (EventService.unsubscribe E id) s) = [h]
      /\ jsmap_get id (st_closeCallbacks s') = None
      /\ h ∉ closings (calls_of (EventService.unsubscribeAll E) s')
  end.

(** The teardown contract as worded for every registry state. *)
Definition unsubscribeAll_contract (E : Env) (s : State) : Prop :=
  fst (EventService.unsubscribeAll E s) = Returned tt
  /\ (forall h, h ∈ (st_closeCallbacks s).*2 ->
        h ∈ closings (calls_of (EventService.unsubscribeAll E) s))
  /\ st_closeCallbacks (snd (EventService.unsubscribeAll E s)) = [].

(** ** The transaction pipeline *)

Inductive Intent :=
| PaymentIntent (options : PaymentOptions)
| TrustlineIntent (options : TrustlineOptions).

(** The build stage: the two envelope constructors, by kind of intent. *)
Definition build_intent (E : Env) (pk : string) (intent : Intent) : M Transaction :=
  match intent with
  | PaymentIntent o => TransactionService.createPaymentTransaction E pk o
  | TrustlineIntent o => TransactionService.createTrustlineTransaction E pk o
  end.

(** [execute]: the two one-call helpers, by kind of intent. *)
Definition execute (E : Env) (pk sk : string) (intent : Intent) : M string :=
  match intent with
  | PaymentIntent o => TransactionService.sendPayment E pk sk o
  | TrustlineIntent o => TransactionService.addTrustline E pk sk o
  end.

(** The context each stage puts in front of the error it rethrows. *)
Definition build_context (intent : Intent) : string :=
  match intent with
  | PaymentIntent _ => "Error creating payment transaction: "
  | TrustlineIntent _ => "Error creating trustline transaction: "
  end.

Definition execute_context (intent : Intent) : string :=
  match intent with
  | PaymentIntent _ => "Error sending payment: "
  | TrustlineIntent _ => "Error adding trustline: "
  end.

Definition operation_of (intent : Intent) : Operation :=
  match intent with
  | PaymentIntent o =>
      OpPayment (pay_destination o) (pay_asset o) (pay_amount o)
  | TrustlineIntent o => OpChangeTrust (trust_asset o) (trust_limit o)
  end.

(** The memo an intent supplies; a trustline intent has no such field. *)
Definition intent_memo (intent : Intent) : option string :=
  match intent with
  | PaymentIntent o => pay_memo o
  | TrustlineIntent _ => None
  end.

(** The answer of the SDK's operation constructor to the fields of the
    intent: [Some cause] when it rejects them. *)
Definition operation_rejected (E : Env) (intent : Intent) : option JsError :=
  match intent with
  | PaymentIntent o =>
      Operation_payment E (pay_destination o) (pay_asset o) (pay_amount o)
  | TrustlineIntent o =>
      Operation_changeTrust E (trust_asset o) (trust_limit o)
  end.

(** The answer of [Memo.text] to the memo the source attaches: asked
    only for a memo that is present and not empty. *)
Definition memo_rejected (E : Env) (intent : Intent) : option JsError :=
  match intent_memo intent with
  | Some text => if bool_decide (text = "") then None else Memo_text E text
  | None => None
  end.

(** A well-formed intent: the SDK accepts its operation fields and the
    memo text that gets attached. *)
Definition intent_accepted (E : Env) (intent : Intent) : Prop :=
  operation_rejected E intent = None /\ memo_rejected E intent = None.

Definition memo_attached (t : Transaction) : Prop :=
  exists text, tx_memo t = MemoText text.

(** The sequence number that follows [z] among the signed 64-bit
    numbers: one more, and the smallest number after the largest. *)
Definition next_sequence (z : Z) : Z :=
  if bool_decide (z = 9223372036854775807%Z) then (-9223372036854775808)%Z
  else (z + 1)%Z.

(** The envelope the build stage makes for an accepted intent. *)
Definition envelope_of (E : Env) (account : AccountRecord) (intent : Intent)
    : Transaction :=
  {| tx_source := rec_id account;
     tx_sequence := int64_wrap (rec_sequence account + 1);
     tx_fee := "100";
     tx_networkPassphrase := networkPassphrase E;
     tx_operations := [operation_of intent];
     tx_memo :=
       match intent_memo intent with
       | Some text => if bool_decide (text = "") then MemoNone else MemoText text
       | None => MemoNone
       end;
     tx_timeout := Some 30%Z;
     tx_signatures := [] |}.

(** The envelope contract as worded: a memo is attached exactly when the
    intent supplies one. *)
Definition envelope_contract (E : Env) (s : State) (pk : string)
    (intent : Intent) : Prop :=
  exists t s',
    build_intent E pk intent s = (Returned t, s')
    /\ tx_operations t = [operation_of intent]
    /\ tx_fee t = "100"
    /\ tx_timeout t = Some 30%Z
    /\ (memo_attached t <-> is_Some (intent_memo intent)).

(** The failure classes of the error taxonomy. *)
Inductive FailureClass :=
| AccountNotFound
| InvalidIntent
| InvalidSecretKey
| SubmissionRejected
| TransportError.

(** Whether the text [s] begins with [p]. *)
Fixpoint starts_with (p s : string) : bool :=
  match p, s with
  | EmptyString, _ => true
  | String a p', String b s' => Ascii.eqb a b && starts_with p' s'
  | String _ _, EmptyString => false
  end.

(** What is left of [s] after its beginning [p]. *)
Fixpoint strip_prefix (p s : string) : option string :=
  match p, s with
  | EmptyString, _ => Some s
  | String a p', String b s' =>
      if Ascii.eqb a b then strip_prefix p' s' else None
  | String _ _, EmptyString => None
  end.

(** The class of a failed stage, read off the message its error carries:
    each stage puts its own context in front of what it rethrows, and
    the gateway's wrapper does the same for a failed account load and
    for a submission answered with result codes. *)
Definition classify_stage (message : string) : option FailureClass :=
  if starts_with
       "Error creating payment transaction: Error: Error loading account: "
       message
     || starts_with
          "Error creating trustline transaction: Error: Error loading account: "
          message
  then Some AccountNotFound
  else if starts_with "Error creating payment transaction: " message
          || starts_with "Error creating trustline transaction: " message
  then Some InvalidIntent
  else if starts_with "Error signing transaction: " message
  then Some InvalidSecretKey
  else if starts_with
            "Error submitting transaction: Error: Transaction failed: " message
  then Some SubmissionRejected
  else if starts_with "Error submitting transaction: " message
  then Some TransportError
  else None.

(** What a caller can tell from a thrown value, be it thrown by a stage
    or by [execute], which puts one more context in front. *)
Definition classify_failure (e : JsError) : option FailureClass :=
  match strip_prefix "Error sending payment: Error: " (err_message e) with
  | Some message => classify_stage message
  | None =>
      match strip_prefix "Error adding trustline: Error: " (err_message e) with
      | Some message => classify_stage message
      | None => classify_stage (err_message e)
      end
  end.

(** The SDK's operation constructors complain about their own arguments:
    the text of an error of theirs does not read like the gateway's
    report of a failed account load. *)
Definition sdk_errors_proper (E : Env) : Prop :=
  forall intent cause,
    operation_rejected E intent = Some cause ->
    starts_with "Error: Error loading account: " (error_toString cause)
    = false.

(** ** Sample collaborators and inputs *)

(** A ledger on which every account exists with sequence number 5 and an
    SDK that accepts everything; no callback ever throws. *)
Definition quiet_env : Env :=
  {| networkPassphrase := "Test SDF Network ; September 2015";
     server_loadAccount :=
       fun pk => inr {| rec_id := pk; rec_sequence := 5; rec_balances := [] |};
     server_submitTransaction := fun _ => inr "hash";
     Operation_payment := fun _ _ _ => None;
     Operation_changeTrust := fun _ _ => None;
     Operation_createAccount := fun _ _ => None;
     Memo_text := fun _ => None;
     Keypair_fromSecret := fun sk => inr ("signer of " +:+ sk);
     close_throws := fun _ => None;
     callback_throws := fun _ _ => None |}.

(** As [quiet_env], but the close callback of the first connection
    throws. *)
Definition failing_close_env : Env :=
  {| networkPassphrase := networkPassphrase quiet_env;
     server_loadAccount := server_loadAccount quiet_env;
     server_submitTransaction := server_submitTransaction quiet_env;
     Operation_payment := Operation_payment quiet_env;
     Operation_changeTrust := Operation_changeTrust quiet_env;
     Operation_createAccount := Operation_createAccount quiet_env;
     Memo_text := Memo_text quiet_env;
     Keypair_fromSecret := Keypair_fromSecret quiet_env;
     close_throws :=
       fun h => if bool_decide (h = 0) then Some (new_Error "close failed")
                else None;
     callback_throws := callback_throws quiet_env |}.

(** As [quiet_env], but listener 1 throws on every event. *)
Definition failing_listener_env : Env :=
  {| networkPassphrase := networkPassphrase quiet_env;
     server_loadAccount := server_loadAccount quiet_env;
     server_submitTransaction := server_submitTransaction quiet_env;
     Operation_payment := Operation_payment quiet_env;
     Operation_changeTrust := Operation_changeTrust quiet_env;
     Operation_createAccount := Operation_createAccount quiet_env;
     Memo_text := Memo_text quiet_env;
     Keypair_fromSecret := Keypair_fromSecret quiet_env;
     close_throws := close_throws quiet_env;
     callback_throws :=
       fun cb _ => if bool_decide (cb = 1) then Some (new_Error "boom")
                   else None |}.

(** As [quiet_env], but no account can be loaded. *)
Definition no_account_env : Env :=
  {| networkPassphrase := networkPassphrase quiet_env;
     server_loadAccount :=
       fun _ => inl {| err_name := "NotFoundError";
                       err_message := "Not Found";
                       err_result_codes := None |};
     server_submitTransaction := server_submitTransaction quiet_env;
     Operation_payment := Operation_payment quiet_env;
     Operation_changeTrust := Operation_changeTrust quiet_env;
     Operation_createAccount := Operation_createAccount quiet_env;
     Memo_text := Memo_text quiet_env;
     Keypair_fromSecret := Keypair_fromSecret quiet_env;
     close_throws := close_throws quiet_env;
     callback_throws := callback_throws quiet_env |}.

(** As [quiet_env], but the SDK rejects every operation: a payment for
    its destination, a trustline for its limit. *)
Definition rejecting_sdk_env : Env :=
  {| networkPassphrase := networkPassphrase quiet_env;
     server_loadAccount := server_loadAccount quiet_env;
     server_submitTransaction := server_submitTransaction quiet_env;
     Operation_payment :=
       fun _ _ _ => Some (new_Error "destination is invalid");
     Operation_changeTrust :=
       fun _ _ =>
         Some {| err_name := "TypeError";
                 err_message :=
                   "limit argument must be of type String, represent a "
                     +:+ "positive number and have at most 7 digits after "
                     +:+ "the decimal";
                 err_result_codes := None |};
     Operation_createAccount := Operation_createAccount quiet_env;
     Memo_text := Memo_text quiet_env;
     Keypair_fromSecret := Keypair_fromSecret quiet_env;
     close_throws := close_throws quiet_env;
     callback_throws := callback_throws quiet_env |}.

(** As [quiet_env], but the ledger rejects every submission with result
    codes. *)
Definition bad_seq_env : Env :=
  {| networkPassphrase := networkPassphrase quiet_env;
     server_loadAccount := server_loadAccount quiet_env;
     server_submitTransaction :=
       fun _ => inl {| err_name := "BadResponseError";
                       err_message := "Request failed with status code 400";
                       err_result_codes := Some "{transaction:tx_bad_seq}" |};
     Operation_payment := Operation_payment quiet_env;
     Operation_changeTrust := Operation_changeTrust quiet_env;
     Operation_createAccount := Operation_createAccount quiet_env;
     Memo_text := Memo_text quiet_env;
     Keypair_fromSecret := Keypair_fromSecret quiet_env;
     close_throws := close_throws quiet_env;
     callback_throws := callback_throws quiet_env |}.

(** As [quiet_env], but no secret key is valid. *)
Definition bad_key_env : Env :=
  {| networkPassphrase := networkPassphrase quiet_env;
     server_loadAccount := server_loadAccount quiet_env;
     server_submitTransaction := server_submitTransaction quiet_env;
     Operation_payment := Operation_payment quiet_env;
     Operation_changeTrust := Operation_changeTrust quiet_env;
     Operation_createAccount := Operation_createAccount quiet_env;
     Memo_text := Memo_text quiet_env;
     Keypair_fromSecret := fun _ => inl (new_Error "invalid encoded string");
     close_throws := close_throws quiet_env;
     callback_throws := callback_throws quiet_env |}.

(** A payment of 10 lumens from A to B. *)
Definition payment_A_to_B (memo : option string) : PaymentOptions :=
  {| pay_destination := "GB"; pay_amount := "10"; pay_asset := AssetNative;
     pay_memo := memo |}.

(** The registry after [subscribeToAccount "GA"]. *)
Definition one_subscription (E : Env) : State :=
  snd (EventService.subscribeToAccount E "GA" initial_state).

(** The registry after [subscribeToAccount "GA"] and
    [subscribeToPayments "GA"]. *)
Definition two_subscriptions (E : Env) : State :=
  snd (EventService.subscribeToPayments E "GA" (one_subscription E)).

(** The listener state after registering 1 and then 2 for
    [PAYMENT_SENT]. *)
Definition two_listeners : State :=
  snd (EventService.addEventListener PAYMENT_SENT 2
         (snd (EventService.addEventListener PAYMENT_SENT 1 initial_state))).
(** ** Sequences of calls on the event service *)

(** What a client of [EventService] and the server can do to it. *)
Inductive Request :=
| AddEventListener (t : EventType) (cb : EventCallback)
| RemoveEventListener (t : EventType) (cb : EventCallback)
| SubscribeToAccount (pk : string)
| SubscribeToPayments (pk : string)
| Unsubscribe (subscriptionId : string)
| UnsubscribeAll
| Message (h : nat) (message : Payload).

(** The state one request leaves, whether the call returns or throws. *)
Definition serve (E : Env) (r : Request) (s : State) : State :=
  match r with
  | AddEventListener t cb => snd (EventService.addEventListener t cb s)
  | RemoveEventListener t cb => snd (EventService.removeEventListener t cb s)
  | SubscribeToAccount pk => snd (EventService.subscribeToAccount E pk s)
  | SubscribeToPayments pk => snd (EventService.subscribeToPayments E pk s)
  | Unsubscribe id => snd (EventService.unsubscribe E id s)
  | UnsubscribeAll => snd (EventService.unsubscribeAll E s)
  | Message h message => snd (EventService.deliver E h message s)
  end.

Definition serve_all (E : Env) (rs : list Request) (s : State) : State :=
  foldl (fun s r => serve E r s) s rs.

(** The event classes a stream handler emits. *)
Definition stream_event_type (t : EventType) : bool :=
  match t with
  | ACCOUNT_UPDATED | PAYMENT_RECEIVED | PAYMENT_SENT => true
  | TRANSACTION_SUBMITTED | TRANSACTION_FAILED => false
  end.

(** ** The account directory *)

(** The accounts the keychain holds. *)
Definition stored_accounts (s : State) : list AccountData :=
  default [] (st_keychain s).

(** The directory lookup: the first stored account with the id. *)
Definition lookup_account (id : string) (accounts : list AccountData)
    : option AccountData :=
  snd <$> list_find (fun acc => acct_id acc = id) accounts.

(** No two stored accounts share an id. *)
Definition ids_unique (accounts : list AccountData) : Prop :=
  NoDup (acct_id <$> accounts).

(** A keychain whose calls succeed. *)
Definition working_keychain : Keychain :=
  {| getGenericPassword_throws := None;
     setGenericPassword_throws := fun _ => None |}.

(** A keychain that cannot be read but can be written. *)
Definition unreadable_keychain : Keychain :=
  {| getGenericPassword_throws := Some (new_Error "keychain locked");
     setGenericPassword_throws := fun _ => None |}.

(** A keychain that can be read but not written. *)
Definition readonly_keychain : Keychain :=
  {| getGenericPassword_throws := None;
     setGenericPassword_throws := fun _ => Some (new_Error "keychain full") |}.

Definition account_A : AccountData :=
  {| acct_id := "GA"; acct_name := Some "savings";
     acct_keyPair := {| publicKey := "GA"; secretKey := Some "SA" |};
     acct_balances := None |}.

Definition account_B : AccountData :=
  {| acct_id := "GB"; acct_name := None;
     acct_keyPair := {| publicKey := "GB"; secretKey := None |};
     acct_balances := None |}.

(** A keychain state holding A and B. *)
Definition two_accounts : State :=
  set_keychain (Some [account_A; account_B]) initial_state.

(** The envelope [createAccount] builds. *)
Definition createAccount_envelope (E : Env) (account : AccountRecord)
    (destination startingBalance : string) : Transaction :=
  {| tx_source := rec_id account;
     tx_sequence := int64_wrap (rec_sequence account + 1);
     tx_fee := "100";
     tx_networkPassphrase := networkPassphrase E;
     tx_operations := [OpCreateAccount destination startingBalance];
     tx_memo := MemoNone;
     tx_timeout := Some 30%Z;
     tx_signatures := [] |}.

(** As [quiet_env], but [Memo.text] rejects every text. *)
Definition rejecting_memo_env : Env :=
  {| networkPassphrase := networkPassphrase quiet_env;
     server_loadAccount := server_loadAccount quiet_env;
     server_submitTransaction := server_submitTransaction quiet_env;
     Operation_payment := Operation_payment quiet_env;
     Operation_changeTrust := Operation_changeTrust quiet_env;
     Operation_createAccount := Operation_createAccount quiet_env;
     Memo_text :=
       fun _ =>
         Some (new_Error "Expects string, array or buffer, max 28 bytes");
     Keypair_fromSecret := Keypair_fromSecret quiet_env;
     close_throws := close_throws quiet_env;
     callback_throws := callback_throws quiet_env |}.

(** The event the handler of a stream makes of a message. *)
Definition stream_event (kind : StreamKind) (pk : string) (message : Payload)
    : EventData :=
  match kind with
  | AccountsStream => {| ev_type := ACCOUNT_UPDATED; ev_payload := message |}
  | PaymentsStream => EventService.payment_event pk message
  end.

(** The list [storeAccount] writes: the account takes the place of the
    first stored account with its id, or goes last. *)
Definition put_account (account : AccountData) (accounts : list AccountData)
    : list AccountData :=
  match list_find (fun acc => acct_id acc = acct_id account) accounts with
  | Some (existingIndex, _) => <[existingIndex := account]> accounts
  | None => accounts ++ [account]
  end.

(** What [getAccounts] reads: nothing when the keychain cannot be read. *)
Definition read_accounts (K : Keychain) (s : State) : list AccountData :=
  match getGenericPassword_throws K with
  | Some _ => []
  | None => stored_accounts s
  end.

(** What a failed read leaves in the trace. *)
Definition read_trace (K : Keychain) : list Call :=
  match getGenericPassword_throws K with
  | Some e =>
      [ConsoleError ("Error retrieving accounts: " +:+ error_toString e)]
  | None => []
  end.

(** ** Sequences of calls on the account directory *)

Inductive DirectoryRequest :=
| StoreAccount (account : AccountData)
| DeleteAccount (id : string)
| GetAccount (id : string)
| GetAccounts
| LoadAccountData (pk : string).

(** The state one request leaves, under the collaborators of that
    moment. *)
Definition serve_directory (E : Env) (K : Keychain) (r : DirectoryRequest)
    (s : State) : State :=
  match r with
  | StoreAccount account => snd (StellarWallet.storeAccount K account s)
  | DeleteAccount id => snd (StellarWallet.deleteAccount K id s)
  | GetAccount id => snd (StellarWallet.getAccount K id s)
  | GetAccounts => snd (StellarWallet.getAccounts K s)
  | LoadAccountData pk => snd (StellarWallet.loadAccountData E K pk s)
  end.

Definition serve_directory_all
    (rs : list (Env * Keychain * DirectoryRequest)) (s : State) : State :=
  foldl (fun s r => serve_directory r.1.1 r.1.2 r.2 s) s rs.

(** * Properties *)

(** ** Trace bookkeeping *)

Lemma log_add_calls c s : log c s = add_calls [c] s.
Proof. reflexivity. Qed.

Lemma add_calls_nil s : add_calls [] s = s.
Proof. destruct s; unfold add_calls; simpl. by rewrite app_nil_r. Qed.

Lemma add_calls_app cs1 cs2 s :
  add_calls cs2 (add_calls cs1 s) = add_calls (cs1 ++ cs2)%list s.
Proof. unfold add_calls; simpl. by rewrite app_assoc. Qed.

Lemma calls_of_add_calls {A} (m : M A) s r cs s' :
  m s = (r, s') -> st_calls s' = (st_calls s ++ cs)%list -> calls_of m s = cs.
Proof.
  intros Hm Hc. unfold calls_of. rewrite Hm. simpl. rewrite Hc.
  apply drop_app_length.
Qed.

(** ** List facts *)

Lemma filter_all {A} (P : A -> Prop) `{!forall x, Decision (P x)} (l : list A) :
  (forall x, x ∈ l -> P x) -> filter P l = l.
Proof.
  induction l as [| x l IH]; intros HP; [done |].
  rewrite filter_cons_True by (apply HP; by left).
  f_equal. apply IH. intros y Hy. apply HP. by right.
Qed.

Lemma filter_none {A} (P : A -> Prop) `{!forall x, Decision (P x)}
    (l : list A) :
  (forall x, x ∈ l -> ~ P x) -> filter P l = [].
Proof.
  induction l as [| x l IH]; intros HP; [done |].
  rewrite filter_cons_False by (apply HP; by left).
  apply IH. intros y Hy. apply HP. by right.
Qed.

(** ** JavaScript [Map] and [Set] facts *)

Lemma jsset_add_elem x s : x ∈ jsset_add x s.
Proof.
  unfold jsset_add. case_bool_decide as Hk; [done |].
  apply elem_of_app. right. by apply list_elem_of_singleton.
Qed.

Lemma jsset_add_idem x s : jsset_add x (jsset_add x s) = jsset_add x s.
Proof.
  unfold jsset_add at 1. rewrite bool_decide_eq_true_2; [done |].
  apply jsset_add_elem.
Qed.

Lemma jsset_add_NoDup x s : NoDup s -> NoDup (jsset_add x s).
Proof.
  intros Hs. unfold jsset_add. case_bool_decide as Hk; [done |].
  apply NoDup_app. split; [done |]. split.
  - intros y Hy Hy'. apply list_elem_of_singleton in Hy'. by subst.
  - apply NoDup_singleton.
Qed.

Lemma jsset_delete_not_elem x s : x ∉ jsset_delete x s.
Proof.
  unfold jsset_delete. intros H. apply list_elem_of_filter in H. by destruct H.
Qed.

Lemma jsset_delete_NoDup x s : NoDup s -> NoDup (jsset_delete x s).
Proof. apply NoDup_filter. Qed.

Section MapFacts.

Context {V : Type}.
Implicit Types (m : list (string * V)) (k : string) (v : V).

Lemma jsmap_get_set_eq k v m : jsmap_get k (jsmap_set k v m) = Some v.
Proof.
  induction m as [| [k' v'] m IH]; simpl.
  - by rewrite bool_decide_eq_true_2.
  - case_bool_decide as Hk; simpl.
    + by rewrite bool_decide_eq_true_2.
    + by rewrite bool_decide_eq_false_2.
Qed.

Lemma jsmap_get_set_ne k k' v m :
  k ≠ k' -> jsmap_get k' (jsmap_set k v m) = jsmap_get k' m.
Proof.
  intros Hne. induction m as [| [k0 v0] m IH]; simpl.
  - by rewrite bool_decide_eq_false_2.
  - case_bool_decide as Hk; simpl.
    + subst k0. by rewrite !bool_decide_eq_false_2.
    + by rewrite IH.
Qed.

Lemma jsmap_get_delete_ne k k' m :
  k ≠ k' -> jsmap_get k' (jsmap_delete k m) = jsmap_get k' m.
Proof.
  intros Hne. induction m as [| [k0 v0] m IH]; simpl; [done |].
  case_bool_decide as Hk; simpl.
  - subst k0. by rewrite bool_decide_eq_false_2.
  - by rewrite IH.
Qed.

Lemma jsmap_get_None k m : jsmap_get k m = None <-> k ∉ m.*1.
Proof.
  induction m as [| [k0 v0] m IH]; simpl.
  - split; [intros _; apply not_elem_of_nil | done].
  - case_bool_decide as Hk.
    + subst k0. split; [done |]. intros H. destruct H. by left.
    + rewrite IH, not_elem_of_cons. split; [by intros ? | by intros [_ ?]].
Qed.

Lemma jsmap_get_Some_elem k v m : jsmap_get k m = Some v -> (k, v) ∈ m.
Proof.
  induction m as [| [k0 v0] m IH]; simpl; [done |].
  case_bool_decide as Hk.
  - intros [= ->]. subst k0. by left.
  - intros H. right. by apply IH.
Qed.

Lemma jsmap_elem_get k v m : NoDup m.*1 -> (k, v) ∈ m -> jsmap_get k m = Some v.
Proof.
  induction m as [| [k0 v0] m IH]; simpl; intros Hnd Hin.
  - by apply elem_of_nil in Hin.
  - apply NoDup_cons in Hnd as [Hk0 Hnd].
    apply elem_of_cons in Hin as [[= <- <-] | Hin].
    + by rewrite bool_decide_eq_true_2.
    + case_bool_decide as Hk.
      * subst k0. exfalso. apply Hk0.
        apply list_elem_of_fmap. by exists (k, v).
      * by apply IH.
Qed.

Lemma jsmap_get_delete_eq k m : NoDup m.*1 -> jsmap_get k (jsmap_delete k m) = None.
Proof.
  induction m as [| [k0 v0] m IH]; simpl; intros Hnd; [done |].
  apply NoDup_cons in Hnd as [Hk0 Hnd].
  case_bool_decide as Hk; simpl.
  - subst k0. by apply jsmap_get_None.
  - rewrite bool_decide_eq_false_2; [| done]. by apply IH.
Qed.

Lemma jsmap_delete_sublist k m : sublist (jsmap_delete k m) m.
Proof.
  induction m as [| [k0 v0] m IH]; simpl; [done |].
  case_bool_decide as Hk.
  - by apply sublist_cons.
  - by apply sublist_skip.
Qed.

Lemma jsmap_delete_absent k m : jsmap_get k m = None -> jsmap_delete k m = m.
Proof.
  induction m as [| [k0 v0] m IH]; simpl; [done |].
  case_bool_decide as Hk; [done |]. intros H. by rewrite IH.
Qed.

Lemma jsmap_delete_elem k v m :
  NoDup m.*2 -> jsmap_get k m = Some v -> v ∉ (jsmap_delete k m).*2.
Proof.
  induction m as [| [k0 v0] m IH]; simpl; intros Hnd Hget; [done |].
  apply NoDup_cons in Hnd as [Hv0 Hnd].
  case_bool_decide as Hk.
  - by injection Hget as <-.
  - simpl. apply not_elem_of_cons. split.
    + intros ->. apply Hv0. apply list_elem_of_fmap.
      exists (k, v0). split; [done |]. by apply jsmap_get_Some_elem.
    + by apply IH.
Qed.

Lemma jsmap_set_keys_fresh k v m :
  jsmap_get k m = None -> jsmap_set k v m = (m ++ [(k, v)])%list.
Proof.
  induction m as [| [k0 v0] m IH]; simpl; [done |].
  case_bool_decide as Hk; [done |]. intros H. by rewrite IH.
Qed.

End MapFacts.

(** ** Listeners *)

Lemma forEach_listener_spec E ev cbs s :
  EventService.forEach_listener E ev cbs s
  = (Returned tt, add_calls (cbs ≫= listener_trace E ev) s).
Proof.
  revert s. induction cbs as [| cb cbs IH]; intros s; simpl.
  - unfold ret. by rewrite add_calls_nil.
  - unfold bind, try_catch, call_listener, console_error, listener_trace.
    destruct (callback_throws E cb ev) as [e |]; simpl;
      rewrite IH, !log_add_calls, !add_calls_app; reflexivity.
Qed.

Lemma emitEvent_spec E ev s :
  EventService.emitEvent E ev s
  = (Returned tt,
     add_calls (listeners_of s (ev_type ev) ≫= listener_trace E ev) s).
Proof.
  unfold EventService.emitEvent, listeners_of.
  destruct (st_listeners s !! EventType_value (ev_type ev)) as [set |]; simpl.
  - apply forEach_listener_spec.
  - by rewrite add_calls_nil.
Qed.

Lemma invocations_listener_trace E ev cbs :
  invocations (cbs ≫= listener_trace E ev) = (fun cb => (cb, ev)) <$> cbs.
Proof.
  induction cbs as [| cb cbs IH]; [done |].
  rewrite bind_cons, fmap_cons, <- IH. unfold invocations.
  rewrite omap_app. unfold listener_trace at 1.
  by destruct (callback_throws E cb ev).
Qed.

Lemma calls_of_emitEvent E ev s :
  calls_of (EventService.emitEvent E ev) s
  = listeners_of s (ev_type ev) ≫= listener_trace E ev.
Proof.
  eapply calls_of_add_calls; [apply emitEvent_spec | reflexivity].
Qed.

Lemma addEventListener_spec t cb s :
  EventService.addEventListener t cb s
  = (Returned tt,
     set_listeners
       (<[EventType_value t := jsset_add cb (listeners_of s t)]>
          (st_listeners s)) s).
Proof.
  unfold EventService.addEventListener, listeners_of. cbv zeta.
  destruct (st_listeners s !! EventType_value t) as [set |] eqn:Hget.
  - rewrite bool_decide_eq_true_2 by eauto. cbv iota. by rewrite Hget.
  - rewrite bool_decide_eq_false_2 by (intros [? ?]; congruence). cbv iota.
    by rewrite lookup_insert_eq, insert_insert_eq.
Qed.

Lemma removeEventListener_listeners t cb s :
  listeners_of (snd (EventService.removeEventListener t cb s)) t
  = jsset_delete cb (listeners_of s t).
Proof.
  unfold EventService.removeEventListener, listeners_of.
  destruct (st_listeners s !! EventType_value t) as [set |] eqn:Hget; simpl.
  - by rewrite lookup_insert_eq.
  - by rewrite Hget.
Qed.

Lemma listeners_wf_initial : listeners_wf initial_state.
Proof. intros k set H. simpl in H. by rewrite lookup_empty in H. Qed.

Lemma addEventListener_wf t cb s :
  listeners_wf s -> listeners_wf (snd (EventService.addEventListener t cb s)).
Proof.
  intros Hwf k set. rewrite addEventListener_spec. simpl.
  rewrite lookup_insert. case_decide as Hk.
  - intros [= <-]. apply jsset_add_NoDup. unfold listeners_of.
    destruct (st_listeners s !! EventType_value t) eqn:Hget; simpl.
    + by eapply Hwf.
    + apply NoDup_nil_2.
  - apply Hwf.
Qed.

Lemma removeEventListener_wf t cb s :
  listeners_wf s ->
  listeners_wf (snd (EventService.removeEventListener t cb s)).
Proof.
  intros Hwf k set. unfold EventService.removeEventListener.
  destruct (st_listeners s !! EventType_value t) as [set0 |] eqn:Hget; simpl.
  - rewrite lookup_insert. case_decide as Hk.
    + intros [= <-]. apply jsset_delete_NoDup. by eapply Hwf.
    + apply Hwf.
  - apply Hwf.
Qed.

Lemma filter_eq_absent (x : nat) (l : list nat) :
  x ∉ l -> filter (fun y => y = x) l = [].
Proof.
  induction l as [| y l IH]; intros Hx; [done |].
  apply not_elem_of_cons in Hx as [Hne Hx].
  rewrite filter_cons_False by congruence. by apply IH.
Qed.

Lemma NoDup_count_one (x : nat) (l : list nat) :
  NoDup l -> x ∈ l -> length (filter (fun y => y = x) l) = 1.
Proof.
  induction 1 as [| y l Hy Hnd IH]; intros Hin.
  - by apply elem_of_nil in Hin.
  - destruct (decide (y = x)) as [-> | Hne].
    + rewrite filter_cons_True by done. by rewrite filter_eq_absent.
    + rewrite filter_cons_False by done.
      apply elem_of_cons in Hin as [-> | Hin]; [done |]. by apply IH.
Qed.

Lemma emitEvent_fan_out E ev s :
  EventService.emitEvent E ev s
  = (Returned tt,
     add_calls (listeners_of s (ev_type ev) ≫= listener_trace E ev) s)
  /\ invocations (calls_of (EventService.emitEvent E ev) s)
     = (fun cb => (cb, ev)) <$> listeners_of s (ev_type ev).
Proof.
  split; [apply emitEvent_spec |].
  rewrite calls_of_emitEvent. apply invocations_listener_trace.
Qed.

(** C7. Listener isolation on fan-out.  Whatever the listeners do,
    [emitEvent] returns normally, nothing but the trace changes, and the
    invocations it makes are exactly one per listener registered for the
    class of the event, each with that same event, in the order of the
    set: a listener that throws (its error goes to [console.error]) does
    not keep any other listener from being invoked. *)
Theorem emitEvent_isolates_listeners (E : Env) (ev : EventData) (s : State) :
  let registered := listeners_of s (ev_type ev) in
  EventService.emitEvent E ev s
  = (Returned tt, add_calls (registered ≫= listener_trace E ev) s)
  /\ invocations (calls_of (EventService.emitEvent E ev) s)
     = (fun cb => (cb, ev)) <$> registered
  /\ (forall cb e, cb ∈ registered -> callback_throws E cb ev = Some e ->
        ConsoleError
          ("Error in event listener for " +:+ EventType_value (ev_type ev)
             +:+ ": " +:+ error_toString e)
        ∈ calls_of (EventService.emitEvent E ev) s).
Proof.
  intros registered. split; [apply emitEvent_spec |].
  rewrite calls_of_emitEvent. split; [apply invocations_listener_trace |].
  intros cb e Hin Hthrow. apply list_elem_of_bind. exists cb. split; [| done].
  unfold listener_trace. rewrite Hthrow. right. by left.
Qed.

(** C7 at a sample state: listener 1 throws, listener 2 is invoked all
    the same and [emitEvent] returns. *)
Lemma emitEvent_isolates_listeners_witness :
  let ev := {| ev_type := PAYMENT_SENT; ev_payload := [] |} in
  fst (EventService.emitEvent failing_listener_env ev two_listeners)
  = Returned tt
  /\ invocations
       (calls_of (EventService.emitEvent failing_listener_env ev)
          two_listeners)
     = [(1, ev); (2, ev)].
Proof.
  intros ev.
  pose proof (emitEvent_isolates_listeners failing_listener_env ev
                two_listeners) as (Hrun & Hinv & _).
  split; [by rewrite Hrun | exact Hinv].
Defined.

Lemma times_invoked_emitEvent E ev cb s :
  times_invoked cb (calls_of (EventService.emitEvent E ev) s)
  = length (filter (fun y => y = cb) (listeners_of s (ev_type ev))).
Proof.
  unfold times_invoked.
  rewrite calls_of_emitEvent, invocations_listener_trace.
  f_equal. f_equal. induction (listeners_of s (ev_type ev)) as [| y l IH];
    [done | by rewrite !fmap_cons, IH].
Qed.

Lemma NoDup_count_le_one (x : nat) (l : list nat) :
  NoDup l -> length (filter (fun y => y = x) l) <= 1.
Proof.
  intros Hnd. destruct (decide (x ∈ l)) as [Hin | Hout].
  - by rewrite NoDup_count_one.
  - rewrite filter_eq_absent by done. simpl. lia.
Qed.

Lemma listeners_wf_listeners_of s t : listeners_wf s -> NoDup (listeners_of s t).
Proof.
  intros Hwf. unfold listeners_of.
  destruct (st_listeners s !! EventType_value t) as [set |] eqn:Hget; simpl.
  - by eapply Hwf.
  - apply NoDup_nil_2.
Qed.

Lemma addEventListener_listeners t cb s :
  listeners_of (snd (EventService.addEventListener t cb s)) t
  = jsset_add cb (listeners_of s t).
Proof.
  rewrite addEventListener_spec. unfold listeners_of at 1. simpl.
  by rewrite lookup_insert_eq.
Qed.

(** C10. Registering a callback twice for the same event class leaves
    the listener state as registering it once does; an emitted event then
    invokes the callback at most once (exactly once for an event of that
    class); one [removeEventListener] takes it out of the set, after
    which an event of that class does not invoke it. *)
Theorem addEventListener_idempotent (E : Env) (s : State) (t : EventType)
    (cb : EventCallback) :
  listeners_wf s ->
  let once := snd (EventService.addEventListener t cb s) in
  let twice :=
    snd ((EventService.addEventListener t cb ;;;
          EventService.addEventListener t cb) s) in
  let removed := snd (EventService.removeEventListener t cb twice) in
  twice = once
  /\ (forall ev,
        times_invoked cb (calls_of (EventService.emitEvent E ev) twice) <= 1)
  /\ (forall ev, ev_type ev = t ->
        times_invoked cb (calls_of (EventService.emitEvent E ev) twice) = 1)
  /\ (cb ∉ listeners_of removed t)
  /\ (forall ev, ev_type ev = t ->
        times_invoked cb (calls_of (EventService.emitEvent E ev) removed) = 0).
Proof.
  intros Hwf once twice removed.
  assert (Htwice : twice = once).
  { subst twice once. unfold bind. rewrite !addEventListener_spec.
    unfold listeners_of at 1. simpl.
    rewrite lookup_insert_eq. simpl.
    by rewrite jsset_add_idem, insert_insert_eq. }
  assert (Hwf1 : listeners_wf once) by by apply addEventListener_wf.
  split; [done |]. rewrite Htwice in *. repeat split.
  - intros ev. rewrite times_invoked_emitEvent.
    apply NoDup_count_le_one. by apply listeners_wf_listeners_of.
  - intros ev <-. rewrite times_invoked_emitEvent.
    apply NoDup_count_one; [by apply listeners_wf_listeners_of |].
    subst once. rewrite addEventListener_listeners. apply jsset_add_elem.
  - subst removed. rewrite Htwice, removeEventListener_listeners.
    apply jsset_delete_not_elem.
  - intros ev <-. rewrite times_invoked_emitEvent.
    subst removed. rewrite Htwice, removeEventListener_listeners.
    rewrite filter_eq_absent; [done | apply jsset_delete_not_elem].
Qed.

(** C10 at a sample state: listener 1 is registered again where 1 and 2
    already listen for [PAYMENT_SENT]. *)
Lemma addEventListener_idempotent_witness :
  listeners_wf two_listeners
  /\ snd ((EventService.addEventListener PAYMENT_SENT 1 ;;;
           EventService.addEventListener PAYMENT_SENT 1) two_listeners)
     = snd (EventService.addEventListener PAYMENT_SENT 1 two_listeners).
Proof.
  assert (H : listeners_wf two_listeners).
  { unfold two_listeners.
    do 2 apply addEventListener_wf. apply listeners_wf_initial. }
  split; [exact H |].
  exact (proj1 (addEventListener_idempotent quiet_env two_listeners
                  PAYMENT_SENT 1 H)).
Defined.

(** ** Payment classification *)

Lemma strict_eq_spec a b : strict_eq a b = true <-> a = b.
Proof.
  destruct a, b; simpl; try (split; [discriminate | congruence]); try done.
  all: rewrite bool_decide_eq_true; split; congruence.
Qed.

(** C4. The event the payments stream of [pk] makes of a message has type
    [PAYMENT_RECEIVED] exactly when the message's [to] field is the string
    [pk], and type [PAYMENT_SENT] for every other value of [to], absent
    included; it carries the message as payload.  A message delivered on
    an open payments connection of [pk] is emitted as that event: the
    listeners invoked are those of its type, each with that event. *)
Theorem payment_event_classification (E : Env) (pk : string)
    (paymentData : Payload) (s : State) (h : nat) (i : nat) :
  list_find (fun x => s_handle x = h) (st_streams s)
  = Some (i, {| s_handle := h; s_kind := PaymentsStream; s_account := pk |}) ->
  let ev := EventService.payment_event pk paymentData in
  (ev_type ev = PAYMENT_RECEIVED <-> prop paymentData "to" = JsString pk)
  /\ (ev_type ev = PAYMENT_SENT <-> prop paymentData "to" ≠ JsString pk)
  /\ ev_payload ev = paymentData
  /\ EventService.deliver E h paymentData s = EventService.emitEvent E ev s
  /\ invocations (calls_of (EventService.deliver E h paymentData) s)
     = (fun cb => (cb, ev)) <$> listeners_of s (ev_type ev).
Proof.
  intros Hopen ev.
  assert (Hdeliver :
    EventService.deliver E h paymentData s = EventService.emitEvent E ev s).
  { unfold EventService.deliver. by rewrite Hopen. }
  assert (Hinv :
    invocations (calls_of (EventService.deliver E h paymentData) s)
    = (fun cb => (cb, ev)) <$> listeners_of s (ev_type ev)).
  { unfold calls_of. rewrite Hdeliver.
    apply (proj2 (emitEvent_fan_out E ev s)). }
  assert (Hty :
    ev_type ev
    = if strict_eq (prop paymentData "to") (JsString pk)
      then PAYMENT_RECEIVED else PAYMENT_SENT) by reflexivity.
  split; [| split; [| done]]; rewrite Hty;
    destruct (strict_eq (prop paymentData "to") (JsString pk)) eqn:Heq.
  - split; [intros _; by apply strict_eq_spec | done].
  - split; [discriminate |].
    intros Hc. apply strict_eq_spec in Hc. congruence.
  - split; [discriminate |]. intros Hc. by apply strict_eq_spec in Heq.
  - split; [| done]. intros _ Hc. apply strict_eq_spec in Hc. congruence.
Qed.

(** C4 at a sample state: a payment to someone else arrives on the
    payments connection of GA. *)
Lemma payment_event_classification_witness :
  ev_type (EventService.payment_event "GA" [("to", JsString "GB")])
  = PAYMENT_SENT
  /\ invocations
       (calls_of (EventService.deliver quiet_env 1 [("to", JsString "GB")])
          (two_subscriptions quiet_env))
     = [].
Proof.
  pose proof (payment_event_classification quiet_env "GA"
                [("to", JsString "GB")] (two_subscriptions quiet_env) 1 1
                eq_refl) as (_ & Hsent & _ & _ & Hinv).
  split; [apply Hsent; discriminate | exact Hinv].
Defined.

(** ** The subscription registry *)

Lemma closings_close_calls (hs : list nat) : closings (CloseStream <$> hs) = hs.
Proof.
  induction hs as [| h hs IH]; [done |].
  rewrite fmap_cons. unfold closings in *. simpl. by f_equal.
Qed.

Lemma closings_app cs1 cs2 :
  closings (cs1 ++ cs2) = (closings cs1 ++ closings cs2)%list.
Proof. apply omap_app. Qed.

Lemma unsubscribe_spec E id s :
  EventService.unsubscribe E id s
  = match jsmap_get id (st_closeCallbacks s) with
    | None => (Returned false, s)
    | Some h =>
        match close_throws E h with
        | Some e => (Thrown e, log (CloseStream h) s)
        | None => (Returned true, after_close id h s)
        end
    end.
Proof.
  unfold EventService.unsubscribe.
  destruct (jsmap_get id (st_closeCallbacks s)) as [h |]; [| done].
  unfold bind, call_close. by destruct (close_throws E h).
Qed.

(** What a run of [closeCallbacks.forEach] leaves when the callbacks
    [hs] were closed. *)
Lemma forEach_close_returns E entries s :
  Forall (fun kh => close_throws E kh.2 = None) entries ->
  EventService.forEach_close E entries s
  = (Returned tt,
     set_streams (filter (fun x => s_handle x ∉ entries.*2) (st_streams s))
       (st_next s) (add_calls (CloseStream <$> entries.*2) s)).
Proof.
  intros Hok. revert s.
  induction Hok as [| [k h] entries Hh Hok IH]; intros s; simpl.
  - unfold ret, set_streams. destruct s; simpl. f_equal. f_equal.
    + symmetry. apply filter_all. intros x _. apply not_elem_of_nil.
    + by rewrite app_nil_r.
  - unfold bind, call_close. simpl in Hh. rewrite Hh. rewrite IH.
    unfold set_streams, add_calls, log. simpl. f_equal. f_equal.
    + rewrite list_filter_filter. apply list_filter_iff. intros x.
      rewrite not_elem_of_cons. tauto.
    + by rewrite <- app_assoc.
Qed.

Lemma forEach_close_throws E pre k h e post s :
  Forall (fun kh => close_throws E kh.2 = None) pre ->
  close_throws E h = Some e ->
  EventService.forEach_close E (pre ++ (k, h) :: post) s
  = (Thrown e,
     set_streams (filter (fun x => s_handle x ∉ pre.*2) (st_streams s))
       (st_next s) (add_calls (CloseStream <$> (pre.*2 ++ [h])) s)).
Proof.
  intros Hok Hthrow. revert s.
  induction Hok as [| [k0 h0] pre Hh Hok IH]; intros s; simpl.
  - unfold bind, call_close. rewrite Hthrow.
    unfold set_streams, add_calls, log. destruct s; simpl. f_equal. f_equal.
    symmetry. apply filter_all. intros x _. apply not_elem_of_nil.
  - unfold bind, call_close. simpl in Hh. rewrite Hh. rewrite IH.
    unfold set_streams, add_calls, log. simpl. f_equal. f_equal.
    + rewrite list_filter_filter. apply list_filter_iff. intros x.
      rewrite not_elem_of_cons. tauto.
    + by rewrite <- app_assoc.
Qed.

(** Throwing or not, [closeCallbacks.forEach] invokes stored callbacks
    only. *)
Lemma forEach_close_closings E entries s :
  exists cs,
    st_calls (snd (EventService.forEach_close E entries s))
    = (st_calls s ++ cs)%list
    /\ forall h, h ∈ closings cs -> h ∈ entries.*2.
Proof.
  revert s. induction entries as [| [k h] entries IH]; intros s; simpl.
  - exists []. split; [by rewrite app_nil_r | done].
  - unfold bind, call_close. destruct (close_throws E h) as [e |]; simpl.
    + exists [CloseStream h]. split; [done |].
      intros h' Hin. apply list_elem_of_singleton in Hin as ->. by left.
    + match goal with
      | |- context [EventService.forEach_close E entries ?s1] =>
          destruct (IH s1) as (cs & Hcs & Hin)
      end.
      exists (CloseStream h :: cs). split.
      * rewrite Hcs. simpl. by rewrite <- app_assoc.
      * intros h' Hh'. simpl in Hh'. apply elem_of_cons in Hh' as [-> | Hh'].
        -- by left.
        -- right. by apply Hin.
Qed.

Lemma unsubscribeAll_closings E s h :
  h ∈ closings (calls_of (EventService.unsubscribeAll E) s) ->
  h ∈ (st_closeCallbacks s).*2.
Proof.
  unfold calls_of, EventService.unsubscribeAll, bind.
  destruct (forEach_close_closings E (st_closeCallbacks s) s)
    as (cs & Hcs & Hin).
  destruct (EventService.forEach_close E (st_closeCallbacks s) s)
    as [[[] | e] s1] eqn:Hrun; simpl in *;
    rewrite Hcs, drop_app_length; apply Hin.
Qed.

(** *** The registry invariant *)

Lemma registry_wf_initial : registry_wf initial_state.
Proof. split; simpl; constructor. Qed.

Lemma registry_wf_log c s : registry_wf s -> registry_wf (log c s).
Proof. intros [? ? ? ? ? ?]. by split. Qed.

Lemma registry_wf_registered s x :
  registry_wf s -> x ∈ st_streams s ->
  jsmap_get (stream_key x) (st_closeCallbacks s) = Some (s_handle x).
Proof.
  intros Hwf Hx.
  exact (proj1 (Forall_forall _ _) (wf_registered s Hwf) x Hx).
Qed.

Lemma registry_wf_key_absent s x id :
  registry_wf s -> x ∈ st_streams s ->
  jsmap_get id (st_closeCallbacks s) = None -> stream_key x ≠ id.
Proof.
  intros Hwf Hx Hnone Hkey.
  pose proof (registry_wf_registered s x Hwf Hx) as Hreg.
  rewrite Hkey in Hreg. congruence.
Qed.

Lemma after_close_wf id h s :
  registry_wf s -> jsmap_get id (st_closeCallbacks s) = Some h ->
  registry_wf (after_close id h s).
Proof.
  intros Hwf Hget. pose proof Hwf as [Hk Hh Hf Hs Hsf Hr].
  pose proof (jsmap_delete_sublist id (st_closeCallbacks s)) as Hsub.
  split; simpl.
  - eapply sublist_NoDup; [apply Hk |]. by apply fmap_sublist.
  - eapply sublist_NoDup; [apply Hh |]. by apply fmap_sublist.
  - apply Forall_forall. intros kh Hin.
    apply (proj1 (Forall_forall _ _) Hf). by eapply elem_of_sublist.
  - eapply sublist_NoDup; [apply Hs |]. apply fmap_sublist, sublist_filter.
  - apply Forall_forall. intros x Hin. apply list_elem_of_filter in Hin as [_ Hin].
    by apply (proj1 (Forall_forall _ _) Hsf).
  - apply Forall_forall. intros x Hin.
    apply list_elem_of_filter in Hin as [Hne Hin].
    pose proof (registry_wf_registered s x Hwf Hin) as Hreg.
    rewrite jsmap_get_delete_ne; [done |].
    intros Hkey. rewrite Hkey, Hreg in Hget. congruence.
Qed.

Lemma after_close_absent id h s :
  registry_wf s -> jsmap_get id (st_closeCallbacks (after_close id h s)) = None.
Proof. intros Hwf. simpl. apply jsmap_get_delete_eq, Hwf. Qed.

Lemma after_open_wf kind pk s :
  registry_wf s ->
  jsmap_get (subscriptionId_of kind pk) (st_closeCallbacks s) = None ->
  registry_wf (after_open kind pk (subscriptionId_of kind pk) s).
Proof.
  intros Hwf Hnone. pose proof Hwf as [Hk Hh Hf Hs Hsf Hr].
  set (id := subscriptionId_of kind pk) in *.
  assert (Hfresh : st_next s ∉ (st_closeCallbacks s).*2).
  { intros Hin. apply list_elem_of_fmap in Hin as ([k h] & Heq & Hin).
    pose proof (proj1 (Forall_forall _ _) Hf _ Hin). simpl in *. lia. }
  assert (Hsfresh : st_next s ∉ s_handle <$> st_streams s).
  { intros Hin. apply list_elem_of_fmap in Hin as (x & Heq & Hin).
    pose proof (proj1 (Forall_forall _ _) Hsf _ Hin). simpl in *. lia. }
  split; simpl; rewrite ?(jsmap_set_keys_fresh _ _ _ Hnone), ?fmap_app; simpl.
  - apply NoDup_app. split; [done |]. split; [| apply NoDup_singleton].
    intros k Hin Hin'. apply list_elem_of_singleton in Hin' as ->.
    by apply jsmap_get_None in Hnone.
  - apply NoDup_app. split; [done |]. split; [| apply NoDup_singleton].
    intros h Hin Hin'. by apply list_elem_of_singleton in Hin' as ->.
  - apply Forall_app. split.
    + eapply Forall_impl; [apply Hf |]. simpl. intros. lia.
    + constructor; [simpl; lia | constructor].
  - apply NoDup_app. split; [done |]. split; [| apply NoDup_singleton].
    intros h Hin Hin'. by apply list_elem_of_singleton in Hin' as ->.
  - apply Forall_app. split.
    + eapply Forall_impl; [apply Hsf |]. simpl. intros. lia.
    + constructor; [simpl; lia | constructor].
  - apply Forall_app. split.
    + apply Forall_forall. intros x Hin.
      pose proof (registry_wf_registered s x Hwf Hin) as Hreg.
      rewrite <- (jsmap_set_keys_fresh _ (st_next s) _ Hnone).
      rewrite jsmap_get_set_ne; [done |].
      intros Hkey. eapply registry_wf_key_absent; eauto.
    + constructor; [| constructor]. simpl.
      rewrite <- (jsmap_set_keys_fresh _ (st_next s) _ Hnone).
      apply jsmap_get_set_eq.
Qed.

Lemma NoDup_constant_le_one {A} (a : A) (l : list A) :
  NoDup l -> (forall x, x ∈ l -> x = a) -> length l <= 1.
Proof.
  intros Hnd Hall. destruct l as [| x [| y l]]; simpl; [lia | lia |].
  exfalso. apply NoDup_cons in Hnd as [Hx _]. apply Hx.
  rewrite (Hall x) by by left. rewrite <- (Hall y) by (right; by left).
  by left.
Qed.

Lemma registry_wf_at_most_one s : registry_wf s -> at_most_one_stream s.
Proof.
  intros Hwf kind pk. unfold streams_for.
  set (l := filter _ _).
  assert (Hsub : l `sublist_of` st_streams s) by apply sublist_filter.
  assert (Hnd : NoDup (s_handle <$> l)).
  { eapply sublist_NoDup; [apply (wf_streams s Hwf) |]. by apply fmap_sublist. }
  apply NoDup_fmap_1 in Hnd.
  destruct l as [| x0 l0] eqn:Hl; [simpl; lia |].
  apply (NoDup_constant_le_one x0); [done |].
  assert (Hkey : forall x, x ∈ x0 :: l0 ->
            s_kind x = kind /\ s_account x = pk
            /\ jsmap_get (subscriptionId_of kind pk) (st_closeCallbacks s)
               = Some (s_handle x)).
  { intros x Hx. rewrite <- Hl in Hx. subst l.
    apply list_elem_of_filter in Hx as [[Hkd Hpk] Hx].
    pose proof (registry_wf_registered s x Hwf Hx) as Hreg.
    unfold stream_key in Hreg. rewrite Hkd, Hpk in Hreg. done. }
  intros x Hx.
  destruct (Hkey x Hx) as (Hk1 & Hp1 & Hg1).
  destruct (Hkey x0 ltac:(by left)) as (Hk0 & Hp0 & Hg0).
  destruct x, x0; simpl in *. congruence.
Qed.

Lemma streams_for_absent kind pk s :
  registry_wf s ->
  jsmap_get (subscriptionId_of kind pk) (st_closeCallbacks s) = None ->
  streams_for kind pk s = [].
Proof.
  intros Hwf Hnone. apply filter_none. intros x Hx [Hkd Hpk].
  eapply registry_wf_key_absent; eauto.
  unfold stream_key. by rewrite Hkd, Hpk.
Qed.

Lemma streams_for_after_open kind pk id s :
  streams_for kind pk (after_open kind pk id s)
  = streams_for kind pk s
    ++ [{| s_handle := st_next s; s_kind := kind; s_account := pk |}].
Proof.
  unfold streams_for. simpl. rewrite filter_app. f_equal.
  by rewrite filter_cons_True.
Qed.

(** Both subscribe methods have the same body, up to the event class. *)
Lemma subscribe_spec E kind pk s :
  let id := subscriptionId_of kind pk in
  subscribe E kind pk s
  = match jsmap_get id (st_closeCallbacks s) with
    | None => (Returned id, after_open kind pk id s)
    | Some h =>
        match close_throws E h with
        | Some e => (Thrown e, log (CloseStream h) s)
        | None => (Returned id, after_open kind pk id (after_close id h s))
        end
    end.
Proof.
  destruct kind; simpl;
    unfold EventService.subscribeToAccount, EventService.subscribeToPayments;
    unfold bind at 1; rewrite unsubscribe_spec;
    match goal with
    | |- context [jsmap_get ?i ?m] => destruct (jsmap_get i m) as [h |]
    end;
    try destruct (close_throws E h); reflexivity.
Qed.

Lemma unsubscribe_wf E id s :
  registry_wf s -> registry_wf (snd (EventService.unsubscribe E id s)).
Proof.
  intros Hwf. rewrite unsubscribe_spec.
  destruct (jsmap_get id (st_closeCallbacks s)) as [h |] eqn:Hget; [| done].
  destruct (close_throws E h); simpl.
  - by apply registry_wf_log.
  - by apply after_close_wf.
Qed.

Lemma subscribe_wf E kind pk s :
  registry_wf s -> registry_wf (snd (subscribe E kind pk s)).
Proof.
  intros Hwf. rewrite subscribe_spec. cbv zeta.
  destruct (jsmap_get _ (st_closeCallbacks s)) as [h |] eqn:Hget.
  - destruct (close_throws E h); simpl.
    + by apply registry_wf_log.
    + apply after_open_wf; [by apply after_close_wf |].
      by apply after_close_absent.
  - by apply after_open_wf.
Qed.

(** *** unsubscribe *)

(** A close callback that throws takes [unsubscribe] with it: the error
    reaches the caller and the entry stays. *)
Lemma unsubscribe_throwing_callback E id s h e :
  jsmap_get id (st_closeCallbacks s) = Some h ->
  close_throws E h = Some e ->
  EventService.unsubscribe E id s = (Thrown e, log (CloseStream h) s).
Proof. intros Hget Hthrow. by rewrite unsubscribe_spec, Hget, Hthrow. Qed.

(** C6, as worded, fails where the stored close callback throws:
    [unsubscribe] of the one active subscription neither returns [true]
    nor removes the entry. *)
Lemma unsubscribe_contract_fails :
  ~ unsubscribe_contract failing_close_env
      (one_subscription failing_close_env) "account-GA".
Proof.
  unfold unsubscribe_contract. intros H. vm_compute in H.
  destruct H as [H _]. discriminate H.
Qed.

(** C6, amended.  [unsubscribe id] returns [false] and leaves the state
    as it was when no subscription is stored under [id]; when one is
    stored and its close callback returns normally, that callback is
    invoked exactly once, the entry is removed, the result is [true], and
    a later [unsubscribeAll] does not invoke the callback again. *)
Theorem unsubscribe_removes_entry (E : Env) (s : State) (id : string) :
  registry_wf s ->
  (forall h, jsmap_get id (st_closeCallbacks s) = Some h ->
             close_throws E h = None) ->
  unsubscribe_contract E s id.
Proof.
  intros Hwf Hok. unfold unsubscribe_contract.
  destruct (jsmap_get id (st_closeCallbacks s)) as [h |] eqn:Hget.
  - assert (Hrun : EventService.unsubscribe E id s
                   = (Returned true, after_close id h s)).
    { by rewrite unsubscribe_spec, Hget, (Hok h). }
    cbv zeta. rewrite Hrun. simpl. repeat split.
    + erewrite calls_of_add_calls; [| apply Hrun | reflexivity]. done.
    + apply jsmap_get_delete_eq, Hwf.
    + intros Hin. apply unsubscribeAll_closings in Hin. simpl in Hin.
      revert Hin. apply jsmap_delete_elem; [apply Hwf | done].
  - by rewrite unsubscribe_spec, Hget.
Qed.

(** C6 at a sample state: the one active subscription is cancelled. *)
Lemma unsubscribe_removes_entry_witness :
  unsubscribe_contract quiet_env (one_subscription quiet_env) "account-GA".
Proof.
  apply unsubscribe_removes_entry.
  - apply (subscribe_wf quiet_env AccountsStream), registry_wf_initial.
  - reflexivity.
Defined.

(** *** unsubscribeAll *)

(** The first close callback that throws ends [unsubscribeAll]: the
    error reaches the caller, the callbacks stored after it are not
    invoked and the map is not cleared. *)
Lemma unsubscribeAll_throwing_callback E s pre k h e post :
  st_closeCallbacks s = pre ++ (k, h) :: post ->
  Forall (fun kh => close_throws E kh.2 = None) pre ->
  close_throws E h = Some e ->
  fst (EventService.unsubscribeAll E s) = Thrown e
  /\ closings (calls_of (EventService.unsubscribeAll E) s) = pre.*2 ++ [h]
  /\ st_closeCallbacks (snd (EventService.unsubscribeAll E s))
     = st_closeCallbacks s.
Proof.
  intros Hcbs Hok Hthrow.
  assert (Hrun : EventService.unsubscribeAll E s
    = (Thrown e,
       set_streams (filter (fun x => s_handle x ∉ pre.*2) (st_streams s))
         (st_next s) (add_calls (CloseStream <$> (pre.*2 ++ [h])) s))).
  { unfold EventService.unsubscribeAll, bind. rewrite Hcbs.
    by rewrite (forEach_close_throws E pre k h e post s Hok Hthrow). }
  rewrite Hrun. simpl. repeat split.
  erewrite calls_of_add_calls; [| apply Hrun | reflexivity].
  apply closings_close_calls.
Qed.

(** C2, as worded, fails where a stored close callback throws: with two
    active subscriptions, the first of which throws on cancellation, the
    exception escapes [unsubscribeAll]. *)
Lemma unsubscribeAll_contract_fails :
  ~ unsubscribeAll_contract failing_close_env
      (two_subscriptions failing_close_env).
Proof.
  unfold unsubscribeAll_contract. intros [H _]. vm_compute in H.
  discriminate H.
Qed.

(** C2, amended.  Where no stored close callback throws,
    [unsubscribeAll] returns normally, invokes every stored close
    callback, once each and in the order of the map, and leaves the map
    empty; in a reachable registry no connection stays open. *)
Theorem unsubscribeAll_clears_registry (E : Env) (s : State) :
  Forall (fun kh => close_throws E kh.2 = None) (st_closeCallbacks s) ->
  unsubscribeAll_contract E s
  /\ closings (calls_of (EventService.unsubscribeAll E) s)
     = (st_closeCallbacks s).*2
  /\ (registry_wf s ->
      st_streams (snd (EventService.unsubscribeAll E s)) = []).
Proof.
  intros Hok.
  set (hs := (st_closeCallbacks s).*2).
  assert (Hrun : EventService.unsubscribeAll E s
    = (Returned tt,
       set_closeCallbacks []
         (set_streams (filter (fun x => s_handle x ∉ hs) (st_streams s))
            (st_next s) (add_calls (CloseStream <$> hs) s)))).
  { unfold EventService.unsubscribeAll, bind.
    by rewrite (forEach_close_returns E _ s Hok). }
  assert (Hcalls : closings (calls_of (EventService.unsubscribeAll E) s) = hs).
  { erewrite calls_of_add_calls; [| apply Hrun | reflexivity].
    apply closings_close_calls. }
  unfold unsubscribeAll_contract. rewrite Hcalls, Hrun. simpl.
  repeat split; try done.
  intros Hwf. apply filter_none. intros x Hx Hout. apply Hout.
  apply list_elem_of_fmap. exists (stream_key x, s_handle x). split; [done |].
  apply jsmap_get_Some_elem. by apply registry_wf_registered.
Qed.

(** C2 at a sample state: two active subscriptions, no callback
    throws. *)
Lemma unsubscribeAll_clears_registry_witness :
  unsubscribeAll_contract quiet_env (two_subscriptions quiet_env).
Proof.
  apply (unsubscribeAll_clears_registry quiet_env
           (two_subscriptions quiet_env)).
  repeat constructor.
Defined.

(** Teardown keeps the registry invariant, whether it completes or
    not. *)
Lemma registry_wf_fewer_streams s s' :
  registry_wf s ->
  st_closeCallbacks s' = st_closeCallbacks s ->
  st_next s' = st_next s ->
  st_streams s' `sublist_of` st_streams s ->
  registry_wf s'.
Proof.
  intros Hwf Hcbs Hnext Hsub. pose proof Hwf as [Hk Hh Hf Hs Hsf Hr].
  split; rewrite ?Hcbs, ?Hnext; try done.
  - eapply sublist_NoDup; [apply Hs |]. by apply fmap_sublist.
  - apply Forall_forall. intros x Hx.
    apply (proj1 (Forall_forall _ _) Hsf). by eapply elem_of_sublist.
  - apply Forall_forall. intros x Hx.
    apply registry_wf_registered; [done |]. by eapply elem_of_sublist.
Qed.

Lemma forEach_close_frame E entries s :
  let run := EventService.forEach_close E entries s in
  st_closeCallbacks (snd run) = st_closeCallbacks s
  /\ st_next (snd run) = st_next s
  /\ st_streams (snd run) `sublist_of` st_streams s
  /\ (fst run = Returned tt ->
      forall x, x ∈ st_streams (snd run) -> s_handle x ∉ entries.*2).
Proof.
  revert s. induction entries as [| [k h] entries IH]; intros s; simpl.
  - repeat split; try done. intros _ x _. apply not_elem_of_nil.
  - unfold bind, call_close. destruct (close_throws E h) as [e |]; simpl.
    + repeat split; try done.
    + match goal with
      | |- context [EventService.forEach_close E entries ?s1] =>
          destruct (IH s1) as (Hcbs & Hnext & Hsub & Hclosed)
      end.
      simpl in Hcbs, Hnext, Hsub.
      split; [done |]. split; [done |]. split.
      * etrans; [apply Hsub | apply sublist_filter].
      * intros Hret x Hx. apply not_elem_of_cons. split.
        -- pose proof (elem_of_sublist _ _ _ Hx Hsub) as Hx'.
           apply list_elem_of_filter in Hx' as [Hne _]. done.
        -- by apply Hclosed.
Qed.

Lemma unsubscribeAll_wf E s :
  registry_wf s -> registry_wf (snd (EventService.unsubscribeAll E s)).
Proof.
  intros Hwf. unfold EventService.unsubscribeAll, bind.
  destruct (forEach_close_frame E (st_closeCallbacks s) s)
    as (Hcbs & Hnext & Hsub & Hclosed).
  destruct (EventService.forEach_close E (st_closeCallbacks s) s)
    as [[[] | e] s1] eqn:Hrun; simpl in *.
  - assert (Hnone : st_streams s1 = []).
    { apply elem_of_nil_inv. intros x Hx.
      apply (Hclosed eq_refl x Hx).
      apply list_elem_of_fmap. exists (stream_key x, s_handle x).
      split; [done |]. apply jsmap_get_Some_elem.
      apply registry_wf_registered; [done |]. by eapply elem_of_sublist. }
    pose proof Hwf as [Hk Hh Hf Hs Hsf Hr].
    split; simpl; rewrite ?Hnone; constructor.
  - by eapply registry_wf_fewer_streams.
Qed.

(** *** subscribe *)

Lemma subscriptionId_of_prefix kind pk :
  subscriptionId_of kind pk
  = match kind with
    | AccountsStream => "account-"
    | PaymentsStream => "payments-"
    end +:+ pk.
Proof. by destruct kind. Qed.

(** One [subscribe] call from a reachable registry whose stored close
    callback for the key, if any, returns normally. *)
Lemma subscribe_step E s kind pk :
  registry_wf s ->
  (forall h, jsmap_get (subscriptionId_of kind pk) (st_closeCallbacks s)
             = Some h -> close_throws E h = None) ->
  let id := subscriptionId_of kind pk in
  let s' := snd (subscribe E kind pk s) in
  fst (subscribe E kind pk s) = Returned id
  /\ calls_of (subscribe E kind pk) s
     = match jsmap_get id (st_closeCallbacks s) with
       | Some h => [CloseStream h]
       | None => []
       end ++ [OpenStream kind pk "now" (st_next s)]
  /\ streams_for kind pk s'
     = [{| s_handle := st_next s; s_kind := kind; s_account := pk |}]
  /\ jsmap_get id (st_closeCallbacks s') = Some (st_next s)
  /\ st_next s' = S (st_next s)
  /\ registry_wf s'.
Proof.
  intros Hwf Hok id s'.
  assert (Hwf' : registry_wf s') by by apply subscribe_wf.
  pose proof (subscribe_spec E kind pk s) as Hrun. cbv zeta in Hrun.
  fold id in Hrun, Hok. subst s'.
  destruct (jsmap_get id (st_closeCallbacks s)) as [h |] eqn:Hget.
  - rewrite (Hok h eq_refl) in Hrun.
    assert (Hwf1 : registry_wf (after_close id h s)) by by apply after_close_wf.
    pose proof (after_close_absent id h s Hwf) as Hnone.
    split; [by rewrite Hrun |]. split.
    { erewrite calls_of_add_calls; [| apply Hrun |]; [reflexivity |].
      simpl. by rewrite <- app_assoc. }
    split.
    { rewrite Hrun. simpl snd. rewrite streams_for_after_open.
      by rewrite (streams_for_absent kind pk _ Hwf1 Hnone). }
    split; [rewrite Hrun; simpl; apply jsmap_get_set_eq |].
    split; [by rewrite Hrun | done].
  - split; [by rewrite Hrun |]. split.
    { erewrite calls_of_add_calls; [| apply Hrun |]; reflexivity. }
    split.
    { rewrite Hrun. simpl snd. rewrite streams_for_after_open.
      by rewrite (streams_for_absent kind pk _ Hwf Hget). }
    split; [rewrite Hrun; simpl; apply jsmap_get_set_eq |].
    split; [by rewrite Hrun | done].
Qed.

(** A stored close callback that throws takes [subscribe] with it: no
    connection is opened and the registry stays as it was. *)
Lemma subscribe_throwing_callback E s kind pk h e :
  jsmap_get (subscriptionId_of kind pk) (st_closeCallbacks s) = Some h ->
  close_throws E h = Some e ->
  subscribe E kind pk s = (Thrown e, log (CloseStream h) s).
Proof.
  intros Hget Hthrow. pose proof (subscribe_spec E kind pk s) as Hrun.
  cbv zeta in Hrun. by rewrite Hget, Hthrow in Hrun.
Qed.

(** C1, as worded, fails where the close callback of the prior
    subscription throws: the repeated [subscribeToAccount] does not
    return the id. *)
Lemma subscribe_returns_id_fails :
  subscribe_returns_id failing_close_env initial_state AccountsStream "GA"
  /\ ~ subscribe_returns_id failing_close_env
         (one_subscription failing_close_env) AccountsStream "GA".
Proof.
  unfold subscribe_returns_id. split; [reflexivity |].
  intros H. vm_compute in H. discriminate H.
Qed.

(** C1, amended.  From a reachable registry in which the close callback
    stored for the key, if any, returns normally, [subscribeToAccount pk]
    returns ["account-" + pk] and [subscribeToPayments pk] returns
    ["payments-" + pk]; a prior subscription under the key is cancelled
    first and only then a connection is opened at cursor [now]; afterwards
    exactly that one connection is open for the key and no key has more
    than one.  A repeated call, when the callback just stored returns
    normally too, returns the same id and again leaves one connection. *)
Theorem subscribe_deterministic_single_stream (E : Env) (s : State)
    (kind : StreamKind) (pk : string) :
  registry_wf s ->
  (forall h, jsmap_get (subscriptionId_of kind pk) (st_closeCallbacks s)
             = Some h -> close_throws E h = None) ->
  let id := subscriptionId_of kind pk in
  let s' := snd (subscribe E kind pk s) in
  let s'' := snd (subscribe E kind pk s') in
  id = match kind with
       | AccountsStream => "account-"
       | PaymentsStream => "payments-"
       end +:+ pk
  /\ subscribe_returns_id E s kind pk
  /\ calls_of (subscribe E kind pk) s
     = match jsmap_get id (st_closeCallbacks s) with
       | Some h => [CloseStream h]
       | None => []
       end ++ [OpenStream kind pk "now" (st_next s)]
  /\ streams_for kind pk s'
     = [{| s_handle := st_next s; s_kind := kind; s_account := pk |}]
  /\ at_most_one_stream s'
  /\ (close_throws E (st_next s) = None ->
      subscribe_returns_id E s' kind pk
      /\ calls_of (subscribe E kind pk) s'
         = [CloseStream (st_next s);
            OpenStream kind pk "now" (S (st_next s))]
      /\ streams_for kind pk s''
         = [{| s_handle := S (st_next s); s_kind := kind; s_account := pk |}]
      /\ at_most_one_stream s'').
Proof.
  intros Hwf Hok id s' s''.
  destruct (subscribe_step E s kind pk Hwf Hok)
    as (Hret & Hcalls & Hstreams & Hget' & Hnext' & Hwf').
  fold id in Hret, Hcalls, Hget'. fold s' in Hstreams, Hget', Hnext', Hwf'.
  assert (Hok' : forall h,
            jsmap_get (subscriptionId_of kind pk) (st_closeCallbacks s')
            = Some h -> close_throws E (st_next s) = None ->
            close_throws E h = None).
  { intros h Hh Hc. fold id in Hh. congruence. }
  split; [apply subscriptionId_of_prefix |].
  split; [done |]. split; [done |]. split; [done |].
  split; [by apply registry_wf_at_most_one |].
  intros Hc.
  destruct (subscribe_step E s' kind pk Hwf' (fun h Hh => Hok' h Hh Hc))
    as (Hret' & Hcalls' & Hstreams' & _ & _ & Hwf'').
  fold id in Hret', Hcalls'. fold s'' in Hstreams', Hwf''.
  split; [done |]. split; [by rewrite Hcalls', Hget', Hnext' |].
  split; [by rewrite Hstreams', Hnext' |].
  by apply registry_wf_at_most_one.
Qed.

(** C1 at a sample state: [subscribeToAccount "GA"] is repeated on a
    transport whose close callbacks return normally. *)
Lemma subscribe_deterministic_single_stream_witness :
  subscribe_returns_id quiet_env (one_subscription quiet_env)
    AccountsStream "GA"
  /\ calls_of (subscribe quiet_env AccountsStream "GA")
       (one_subscription quiet_env)
     = [CloseStream 0; OpenStream AccountsStream "GA" "now" 1].
Proof.
  assert (Hwf : registry_wf (one_subscription quiet_env)).
  { apply (subscribe_wf quiet_env AccountsStream), registry_wf_initial. }
  pose proof (subscribe_deterministic_single_stream quiet_env
                (one_subscription quiet_env) AccountsStream "GA" Hwf
                (fun _ _ => eq_refl)) as (_ & Hret & Hcalls & _).
  split; [exact Hret | exact Hcalls].
Defined.

(** ** The transaction pipeline *)

Lemma error_toString_new_Error m :
  m ≠ "" -> error_toString (new_Error m) = "Error: " +:+ m.
Proof.
  intros Hm. unfold error_toString, new_Error. simpl.
  by rewrite bool_decide_eq_false_2.
Qed.

Lemma append_inj_l (p a b : string) : p +:+ a = p +:+ b -> a = b.
Proof. induction p as [| c p IH]; simpl; [done |]. intros [= H]. auto. Qed.

(** The outcome of the build stage, by what the collaborators answer. *)
(** In 64 bits the number stored for [z + 1] is the one that follows
    [z]. *)
Lemma int64_wrap_next z :
  int64_range z -> int64_wrap (z + 1) = next_sequence z.
Proof.
  unfold int64_range, int64_wrap, next_sequence. intros Hz.
  case_bool_decide as Hmax.
  - by subst z.
  - rewrite Z.mod_small by lia. lia.
Qed.

Lemma int64_wrap_largest :
  int64_wrap (9223372036854775807 + 1) = (-9223372036854775808)%Z.
Proof. reflexivity. Qed.

Lemma next_sequence_range z : int64_range z -> int64_range (next_sequence z).
Proof.
  unfold int64_range, next_sequence. intros Hz.
  case_bool_decide as Hmax; lia.
Qed.

Lemma build_intent_spec E pk intent s :
  build_intent E pk intent s
  = (match server_loadAccount E pk with
     | inl cause =>
         Thrown (new_Error
                   (build_context intent +:+ "Error: Error loading account: "
                      +:+ error_toString cause))
     | inr account =>
         match operation_rejected E intent with
         | Some cause =>
             Thrown (new_Error (build_context intent +:+ error_toString cause))
         | None =>
             match memo_rejected E intent with
             | Some cause =>
                 Thrown (new_Error
                           (build_context intent +:+ error_toString cause))
             | None => Returned (envelope_of E account intent)
             end
         end
     end, log (LoadAccount pk) s).
Proof.
  destruct intent as [o | o]; simpl;
    unfold TransactionService.createPaymentTransaction,
      TransactionService.createTrustlineTransaction,
      HorizonService.loadAccount, server_call_loadAccount,
      try_catch, bind, answer, check, throw, ret,
      operation_rejected, memo_rejected, envelope_of; simpl.
  - destruct (server_loadAccount E pk) as [cause | account]; simpl; [done |].
    destruct (Operation_payment E _ _ _) as [cause |]; simpl; [done |].
    unfold TransactionService.memo_truthy.
    destruct (pay_memo o) as [text |]; simpl; [| done].
    destruct (bool_decide (text = "")); simpl; [done |].
    by destruct (Memo_text E text).
  - destruct (server_loadAccount E pk) as [cause | account]; simpl; [done |].
    by destruct (Operation_changeTrust E _ _) as [cause |].
Qed.

Lemma build_intent_state E pk intent s :
  snd (build_intent E pk intent s) = log (LoadAccount pk) s.
Proof. by rewrite build_intent_spec. Qed.

Lemma signTransaction_spec E t sk s :
  TransactionService.signTransaction E t sk s
  = (match Keypair_fromSecret E sk with
     | inl cause =>
         Thrown (new_Error
                   ("Error signing transaction: " +:+ error_toString cause))
     | inr signer => Returned (sign signer t)
     end, s).
Proof.
  unfold TransactionService.signTransaction, try_catch, bind, answer.
  by destruct (Keypair_fromSecret E sk).
Qed.

Lemma submitTransaction_spec E t s :
  TransactionService.submitTransaction E t s
  = (match server_submitTransaction E t with
     | inl cause =>
         Thrown (new_Error
                   ("Error submitting transaction: Error: " +:+
                    match err_result_codes cause with
                    | Some codes => "Transaction failed: " +:+ codes
                    | None =>
                        "Error submitting transaction: "
                          +:+ error_toString cause
                    end))
     | inr result => Returned result
     end, log (SubmitTransaction t) s).
Proof.
  unfold TransactionService.submitTransaction,
    HorizonService.submitTransaction, server_call_submitTransaction,
    try_catch, answer, throw, ret.
  destruct (server_submitTransaction E t) as [cause | result]; [| done].
  by destruct (err_result_codes cause).
Qed.

Lemma execute_unfold E pk sk intent :
  execute E pk sk intent
  = try_catch
      (transaction <- build_intent E pk intent ;;
       signedTransaction <-
         TransactionService.signTransaction E transaction sk ;;
       TransactionService.submitTransaction E signedTransaction)
      (fun error =>
         throw (new_Error (execute_context intent +:+ error_toString error))).
Proof. by destruct intent. Qed.

(** [execute] runs the stages in order: the account is loaded, and only
    with a built and signed envelope is anything submitted. *)
Lemma execute_submits_signed_envelope E s pk sk intent account signer :
  server_loadAccount E pk = inr account ->
  intent_accepted E intent ->
  Keypair_fromSecret E sk = inr signer ->
  calls_of (execute E pk sk intent) s
  = [LoadAccount pk;
     SubmitTransaction (sign signer (envelope_of E account intent))].
Proof.
  intros Hload [Hop Hmemo] Hkey.
  unfold calls_of. rewrite execute_unfold. unfold try_catch, bind.
  rewrite build_intent_spec, Hload, Hop, Hmemo.
  rewrite signTransaction_spec, Hkey, submitTransaction_spec.
  destruct (server_submitTransaction E _); simpl;
    by rewrite <- app_assoc, drop_app_length.
Qed.

(** C3. When the build stage throws, or it returns and signing throws,
    [execute] (that is [sendPayment] for a payment and [addTrustline] for
    a trustline) rejects with an [Error] whose message is the stage's
    error under the context of [execute], and nothing was submitted: the
    only call made is the account load. *)
Theorem execute_no_partial_submission (E : Env) (s : State) (pk sk : string)
    (intent : Intent) (e : JsError) (s1 : State) :
  (build_intent E pk intent s = (Thrown e, s1)
   \/ exists t s0,
        build_intent E pk intent s = (Returned t, s0)
        /\ TransactionService.signTransaction E t sk s0 = (Thrown e, s1)) ->
  execute E pk sk intent s
  = (Thrown (new_Error (execute_context intent +:+ error_toString e)), s1)
  /\ submissions (calls_of (execute E pk sk intent) s) = []
  /\ calls_of (execute E pk sk intent) s = [LoadAccount pk].
Proof.
  intros Hstage.
  assert (Hrun : execute E pk sk intent s
    = (Thrown (new_Error (execute_context intent +:+ error_toString e)), s1)
    /\ s1 = log (LoadAccount pk) s).
  { rewrite execute_unfold. unfold try_catch, bind.
    destruct Hstage as [Hbuild | (t & s0 & Hbuild & Hsign)].
    - rewrite Hbuild. split; [done |].
      by rewrite <- (build_intent_state E pk intent s), Hbuild.
    - rewrite Hbuild, Hsign. split; [done |].
      rewrite signTransaction_spec in Hsign. injection Hsign as _ <-.
      by rewrite <- (build_intent_state E pk intent s), Hbuild. }
  destruct Hrun as [Hrun ->].
  assert (Hcalls : calls_of (execute E pk sk intent) s = [LoadAccount pk]).
  { eapply calls_of_add_calls; [apply Hrun | reflexivity]. }
  by rewrite Hcalls.
Qed.

(** C3 at two sample inputs: the account cannot be loaded, and the
    secret key is invalid. *)
Lemma execute_no_partial_submission_witness :
  submissions
    (calls_of (execute no_account_env "GA" "SA"
                 (PaymentIntent (payment_A_to_B None))) initial_state) = []
  /\ submissions
       (calls_of (execute bad_key_env "GA" "SA"
                    (TrustlineIntent
                       {| trust_asset := AssetCredit "USD" "GI";
                          trust_limit := None |})) initial_state) = [].
Proof.
  split.
  - eapply execute_no_partial_submission. left. reflexivity.
  - eapply execute_no_partial_submission. right.
    eexists _, _. split; reflexivity.
Defined.

(** C5, as worded, fails for an intent that supplies the empty memo:
    [if (options.memo)] does not attach it. *)
Lemma envelope_contract_fails :
  ~ envelope_contract quiet_env initial_state "GA"
      (PaymentIntent (payment_A_to_B (Some ""))).
Proof.
  intros (t & s' & Hrun & _ & _ & _ & Hmemo).
  rewrite build_intent_spec in Hrun. simpl in Hrun.
  injection Hrun as <- _.
  destruct Hmemo as [_ Hmemo].
  destruct (Hmemo (ex_intro _ "" eq_refl)) as [text Htext].
  discriminate Htext.
Qed.

(** C5, amended.  When the source account loads and the SDK accepts the
    intent, the build stage returns an envelope with exactly one
    operation, the payment or the changeTrust of the intent, fee ["100"]
    and a timeout of 30 seconds; it carries a text memo exactly when the
    intent supplies a memo that is not the empty string, and then that
    text.  The only call made is the account load. *)
Theorem build_single_operation (E : Env) (s : State) (pk : string)
    (intent : Intent) (account : AccountRecord) :
  server_loadAccount E pk = inr account ->
  intent_accepted E intent ->
  exists t,
    build_intent E pk intent s = (Returned t, log (LoadAccount pk) s)
    /\ tx_operations t = [operation_of intent]
    /\ tx_fee t = "100"
    /\ tx_timeout t = Some 30%Z
    /\ (memo_attached t <->
        exists text, intent_memo intent = Some text /\ text ≠ "")
    /\ (forall text, intent_memo intent = Some text -> text ≠ "" ->
          tx_memo t = MemoText text)
    /\ tx_source t = rec_id account
    /\ (int64_range (rec_sequence account) ->
        tx_sequence t = next_sequence (rec_sequence account))
    /\ tx_signatures t = [].
Proof.
  intros Hload [Hop Hmemo]. exists (envelope_of E account intent).
  split; [by rewrite build_intent_spec, Hload, Hop, Hmemo |].
  repeat split; try done; try apply int64_wrap_next.
  - intros [text Htext]. simpl in Htext.
    destruct (intent_memo intent) as [text' |]; [| done].
    case_bool_decide as Hempty; [done |]. by exists text'.
  - intros (text & Hsome & Hne). unfold memo_attached. simpl.
    rewrite Hsome, bool_decide_eq_false_2 by done. by exists text.
  - intros text Hsome Hne. simpl.
    by rewrite Hsome, bool_decide_eq_false_2.
Qed.

(** C5 at the sample input: a payment of 10 from A to B with memo
    "rent". *)
Lemma build_single_operation_witness :
  exists t,
    build_intent quiet_env "GA" (PaymentIntent (payment_A_to_B (Some "rent")))
      initial_state
    = (Returned t, log (LoadAccount "GA") initial_state)
    /\ tx_operations t = [OpPayment "GB" AssetNative "10"]
    /\ tx_fee t = "100"
    /\ tx_timeout t = Some 30%Z.
Proof.
  destruct (build_single_operation quiet_env initial_state "GA"
              (PaymentIntent (payment_A_to_B (Some "rent")))
              {| rec_id := "GA"; rec_sequence := 5; rec_balances := [] |}
              eq_refl (conj eq_refl eq_refl))
    as (t & Hrun & Hops & Hfee & Htimeout & _).
  exists t. repeat split; assumption.
Defined.

(** ** The account directory *)

Lemma only_logs_execute E pk sk intent : only_logs (execute E pk sk intent).
Proof.
  intros s. rewrite execute_unfold. unfold try_catch, bind.
  rewrite build_intent_spec.
  destruct (server_loadAccount E pk) as [cause | account];
    [by exists [LoadAccount pk] |].
  destruct (operation_rejected E intent); [by exists [LoadAccount pk] |].
  destruct (memo_rejected E intent); [by exists [LoadAccount pk] |].
  rewrite signTransaction_spec.
  destruct (Keypair_fromSecret E sk) as [cause | signer];
    [by exists [LoadAccount pk] |].
  rewrite submitTransaction_spec.
  exists [LoadAccount pk;
          SubmitTransaction (sign signer (envelope_of E account intent))].
  destruct (server_submitTransaction E _); simpl;
    unfold add_calls, log; simpl; by rewrite <- app_assoc.
Qed.

(** The facade only forwards to the transaction service. *)
Lemma StellarWallet_sendPayment_forwards E pk sk o :
  StellarWallet.sendPayment E pk sk o = execute E pk sk (PaymentIntent o).
Proof. reflexivity. Qed.

Lemma StellarWallet_addTrustline_forwards E pk sk o :
  StellarWallet.addTrustline E pk sk o = execute E pk sk (TrustlineIntent o).
Proof. reflexivity. Qed.

(** C8. No run of [execute] writes the account directory: whatever the
    outcome, nothing but the trace changes, the keychain holds what it
    held and no keychain write is among the calls made.  When the ledger
    rejects the submission with result codes, [execute] rejects with an
    [Error] whose message ends in those codes. *)
Theorem execute_leaves_accounts_untouched (E : Env) (s : State)
    (pk sk : string) (intent : Intent) :
  st_keychain (snd (execute E pk sk intent s)) = st_keychain s
  /\ keychain_writes (calls_of (execute E pk sk intent) s) = []
  /\ only_logs (execute E pk sk intent)
  /\ (forall account signer cause codes,
        server_loadAccount E pk = inr account ->
        intent_accepted E intent ->
        Keypair_fromSecret E sk = inr signer ->
        server_submitTransaction E
          (sign signer (envelope_of E account intent)) = inl cause ->
        err_result_codes cause = Some codes ->
        fst (execute E pk sk intent s)
        = Thrown
            (new_Error
               (execute_context intent
                  +:+ "Error: Error submitting transaction: "
                  +:+ "Error: Transaction failed: " +:+ codes))).
Proof.
  destruct (only_logs_execute E pk sk intent s) as (cs & Hstate & Hwrites).
  split; [by rewrite Hstate |].
  split.
  { unfold calls_of. rewrite Hstate. simpl. by rewrite drop_app_length. }
  split; [apply only_logs_execute |].
  intros account signer cause codes Hload [Hop Hmemo] Hkey Hsubmit Hcodes.
  rewrite execute_unfold. unfold try_catch, bind.
  rewrite build_intent_spec, Hload, Hop, Hmemo.
  rewrite signTransaction_spec, Hkey.
  rewrite submitTransaction_spec, Hsubmit, Hcodes. reflexivity.
Qed.

(** C8 at the sample input: the ledger answers the payment with
    [tx_bad_seq] while an account is stored locally. *)
Lemma execute_leaves_accounts_untouched_witness :
  let stored :=
    {| acct_id := "GA"; acct_name := None;
       acct_keyPair := {| publicKey := "GA"; secretKey := Some "SA" |};
       acct_balances := None |} in
  let s := set_keychain (Some [stored]) initial_state in
  let run := execute bad_seq_env "GA" "SA"
               (PaymentIntent (payment_A_to_B None)) s in
  st_keychain (snd run) = Some [stored]
  /\ fst run
     = Thrown
         (new_Error
            ("Error sending payment: Error: Error submitting transaction: "
               +:+ "Error: Transaction failed: {transaction:tx_bad_seq}")).
Proof.
  intros stored s run.
  pose proof (execute_leaves_accounts_untouched bad_seq_env s "GA" "SA"
                (PaymentIntent (payment_A_to_B None)))
    as (Hframe & _ & _ & Hreject).
  split; [exact Hframe |].
  exact (Hreject {| rec_id := "GA"; rec_sequence := 5; rec_balances := [] |}
           "signer of SA" _ "{transaction:tx_bad_seq}"
           eq_refl (conj eq_refl eq_refl) eq_refl eq_refl eq_refl).
Defined.

(** By contrast [loadAccountData] does write the directory. *)
Lemma loadAccountData_writes_accounts :
  let stored :=
    {| acct_id := "GA"; acct_name := None;
       acct_keyPair := {| publicKey := "GA"; secretKey := Some "SA" |};
       acct_balances := None |} in
  let s := set_keychain (Some [stored]) initial_state in
  st_keychain
    (snd (StellarWallet.loadAccountData quiet_env
            {| getGenericPassword_throws := None;
               setGenericPassword_throws := fun _ => None |} "GA" s))
  = Some [{| acct_id := "GA"; acct_name := None;
             acct_keyPair := {| publicKey := "GA"; secretKey := Some "SA" |};
             acct_balances := Some [] |}].
Proof. reflexivity. Qed.

(** ** Errors of the build stage *)

(** The messages of the two failures of the build stage: the context of
    the stage, then either the gateway's report of the failed load or
    the text of the SDK's error.  The two thrown values are equal only if
    the SDK's text itself reads like the gateway's report. *)
Lemma build_failure_messages (E : Env) (s : State) (pk : string)
    (intent : Intent) :
  (forall cause,
     server_loadAccount E pk = inl cause ->
     build_intent E pk intent s
     = (Thrown (new_Error
                  (build_context intent +:+ "Error: Error loading account: "
                     +:+ error_toString cause)),
        log (LoadAccount pk) s))
  /\ (forall account cause,
        server_loadAccount E pk = inr account ->
        operation_rejected E intent = Some cause ->
        build_intent E pk intent s
        = (Thrown (new_Error (build_context intent +:+ error_toString cause)),
           log (LoadAccount pk) s))
  /\ (forall gateway_cause sdk_cause,
        new_Error (build_context intent +:+ "Error: Error loading account: "
                     +:+ error_toString gateway_cause)
        = new_Error (build_context intent +:+ error_toString sdk_cause)
        <-> error_toString sdk_cause
            = "Error: Error loading account: "
                +:+ error_toString gateway_cause).
Proof.
  split; [| split].
  - intros cause Hload. by rewrite build_intent_spec, Hload.
  - intros account cause Hload Hop. by rewrite build_intent_spec, Hload, Hop.
  - intros c1 c2. split.
    + intros [= Heq]. apply append_inj_l in Heq. done.
    + by intros ->.
Qed.

Lemma starts_with_app p s : starts_with p (p +:+ s) = true.
Proof.
  induction p as [| a p IH]; [done |].
  simpl. by rewrite Ascii.eqb_refl, IH.
Qed.

Lemma starts_with_app_both p q s :
  starts_with (p +:+ q) (p +:+ s) = starts_with q s.
Proof.
  induction p as [| a p IH]; [done |].
  simpl. by rewrite Ascii.eqb_refl, IH.
Qed.

Lemma starts_with_spec p s :
  starts_with p s = true <-> exists rest, s = p +:+ rest.
Proof.
  split.
  - revert s. induction p as [| a p IH]; intros s Hs; [by exists s |].
    destruct s as [| b s]; [done |]. simpl in Hs.
    apply andb_true_iff in Hs as [Hab Hs]. apply Ascii.eqb_eq in Hab as ->.
    destruct (IH s Hs) as [rest ->]. by exists rest.
  - intros [rest ->]. apply starts_with_app.
Qed.

Lemma strip_prefix_app p s : strip_prefix p (p +:+ s) = Some s.
Proof.
  induction p as [| a p IH]; [done |].
  simpl. by rewrite Ascii.eqb_refl.
Qed.

(** The classes of the messages the stages produce. *)
Lemma classify_stage_load intent text :
  classify_stage
    (build_context intent +:+ "Error: Error loading account: " +:+ text)
  = Some AccountNotFound.
Proof. by destruct intent. Qed.

Lemma classify_stage_intent intent text :
  starts_with "Error: Error loading account: " text = false ->
  classify_stage (build_context intent +:+ text) = Some InvalidIntent.
Proof.
  intros Htext. unfold classify_stage.
  destruct intent; unfold build_context.
  - change "Error creating payment transaction: Error: Error loading account: "
      with ("Error creating payment transaction: "
              +:+ "Error: Error loading account: ").
    by rewrite starts_with_app_both, Htext.
  - change
      "Error creating trustline transaction: Error: Error loading account: "
      with ("Error creating trustline transaction: "
              +:+ "Error: Error loading account: ").
    by rewrite starts_with_app_both, Htext.
Qed.

Lemma classify_stage_sign text :
  classify_stage ("Error signing transaction: " +:+ text)
  = Some InvalidSecretKey.
Proof. reflexivity. Qed.

Lemma classify_stage_submit (cause : JsError) :
  classify_stage
    ("Error submitting transaction: Error: " +:+
     match err_result_codes cause with
     | Some codes => "Transaction failed: " +:+ codes
     | None => "Error submitting transaction: " +:+ error_toString cause
     end)
  = Some match err_result_codes cause with
         | Some _ => SubmissionRejected
         | None => TransportError
         end.
Proof. by destruct (err_result_codes cause). Qed.

Lemma strip_prefix_spec p s rest :
  strip_prefix p s = Some rest -> s = p +:+ rest.
Proof.
  revert s. induction p as [| a p IH]; intros s Hs.
  - by injection Hs as ->.
  - destruct s as [| b s]; [done |]. simpl in Hs.
    destruct (Ascii.eqb a b) eqn:Hab; [| done].
    apply Ascii.eqb_eq in Hab as ->. simpl. by rewrite (IH s Hs).
Qed.

(** A stage's message keeps its class when the stage's error reaches the
    caller as it is, and when it does under the context of [execute]. *)
Lemma classify_failure_stage message class :
  classify_stage message = Some class ->
  classify_failure (new_Error message) = Some class.
Proof.
  unfold classify_failure, new_Error. cbn [err_message]. intros Hclass.
  destruct (strip_prefix "Error sending payment: Error: " message)
    as [rest |] eqn:Hpay.
  { apply strip_prefix_spec in Hpay. subst message. discriminate Hclass. }
  destruct (strip_prefix "Error adding trustline: Error: " message)
    as [rest |] eqn:Htrust; [| exact Hclass].
  apply strip_prefix_spec in Htrust. subst message. discriminate Hclass.
Qed.

Lemma classify_failure_execute intent message class :
  message ≠ "" ->
  classify_stage message = Some class ->
  classify_failure
    (new_Error (execute_context intent +:+ error_toString (new_Error message)))
  = Some class.
Proof.
  intros Hne Hclass. rewrite error_toString_new_Error by done.
  unfold classify_failure.
  destruct intent; simpl; exact Hclass.
Qed.

(** C9.  What the build stage throws tells the caller why it failed.  For
    every source account that cannot be loaded the thrown [Error] is of
    class [AccountNotFound], and for every intent whose fields the SDK's
    operation constructor rejects it is of class [InvalidIntent]; the
    class is read off the message, by the context each stage puts in
    front of what it rethrows, and stays readable when the error reaches
    the caller through [execute].  An invalid secret key gives class
    [InvalidSecretKey], a submission the ledger answers with result codes
    gives [SubmissionRejected] and any other failed submission
    [TransportError], so the five classes are told apart.  This holds for
    an SDK whose operation errors do not themselves read like a failed
    account load. *)
Theorem build_failures_classified (E : Env) (s : State) (pk sk : string)
    (intent : Intent) :
  sdk_errors_proper E ->
  (forall cause,
     server_loadAccount E pk = inl cause ->
     exists e e',
       build_intent E pk intent s = (Thrown e, log (LoadAccount pk) s)
       /\ classify_failure e = Some AccountNotFound
       /\ fst (execute E pk sk intent s) = Thrown e'
       /\ classify_failure e' = Some AccountNotFound)
  /\ (forall account cause,
        server_loadAccount E pk = inr account ->
        operation_rejected E intent = Some cause ->
        exists e e',
          build_intent E pk intent s = (Thrown e, log (LoadAccount pk) s)
          /\ classify_failure e = Some InvalidIntent
          /\ fst (execute E pk sk intent s) = Thrown e'
          /\ classify_failure e' = Some InvalidIntent)
  /\ (forall account cause,
        server_loadAccount E pk = inr account ->
        intent_accepted E intent ->
        Keypair_fromSecret E sk = inl cause ->
        exists e e',
          TransactionService.signTransaction E
            (envelope_of E account intent) sk s = (Thrown e, s)
          /\ classify_failure e = Some InvalidSecretKey
          /\ fst (execute E pk sk intent s) = Thrown e'
          /\ classify_failure e' = Some InvalidSecretKey)
  /\ (forall account signer cause,
        server_loadAccount E pk = inr account ->
        intent_accepted E intent ->
        Keypair_fromSecret E sk = inr signer ->
        server_submitTransaction E
          (sign signer (envelope_of E account intent)) = inl cause ->
        let class :=
          match err_result_codes cause with
          | Some _ => SubmissionRejected
          | None => TransportError
          end in
        exists e e',
          fst (TransactionService.submitTransaction E
                 (sign signer (envelope_of E account intent)) s) = Thrown e
          /\ classify_failure e = Some class
          /\ fst (execute E pk sk intent s) = Thrown e'
          /\ classify_failure e' = Some class).
Proof.
  intros Hproper.
  assert (Hctx : forall text, build_context intent +:+ text ≠ "")
    by (intros text; by destruct intent).
  split; [| split; [| split]].
  - intros cause Hload. eexists _, _.
    rewrite execute_unfold. unfold try_catch, bind.
    rewrite build_intent_spec, Hload. cbv iota.
    split; [reflexivity |].
    split; [apply classify_failure_stage, classify_stage_load |].
    split; [reflexivity |].
    apply classify_failure_execute; [apply Hctx |].
    apply classify_stage_load.
  - intros account cause Hload Hop. eexists _, _.
    rewrite execute_unfold. unfold try_catch, bind.
    rewrite build_intent_spec, Hload, Hop. cbv iota.
    split; [reflexivity |].
    split; [by eapply classify_failure_stage, classify_stage_intent,
              Hproper |].
    split; [reflexivity |].
    apply classify_failure_execute; [apply Hctx |].
    by eapply classify_stage_intent, Hproper.
  - intros account cause Hload [Hop Hmemo] Hkey. eexists _, _.
    rewrite execute_unfold. unfold try_catch, bind.
    rewrite build_intent_spec, Hload, Hop, Hmemo. cbv iota.
    rewrite !signTransaction_spec, Hkey. cbv iota.
    split; [reflexivity |].
    split; [apply classify_failure_stage, classify_stage_sign |].
    split; [reflexivity |].
    by apply classify_failure_execute.
  - intros account signer cause Hload [Hop Hmemo] Hkey Hsubmit class.
    eexists _, _.
    rewrite execute_unfold. unfold try_catch, bind.
    rewrite build_intent_spec, Hload, Hop, Hmemo. cbv iota.
    rewrite signTransaction_spec, Hkey. cbv iota.
    rewrite !submitTransaction_spec, Hsubmit. cbv iota.
    split; [reflexivity |].
    split; [apply classify_failure_stage, classify_stage_submit |].
    split; [reflexivity |].
    apply classify_failure_execute; [done |].
    apply classify_stage_submit.
Qed.

Lemma sdk_errors_proper_accepting (E : Env) :
  (forall destination asset amount,
     Operation_payment E destination asset amount = None) ->
  (forall asset limit, Operation_changeTrust E asset limit = None) ->
  sdk_errors_proper E.
Proof.
  intros Hpay Htrust intent cause Hop.
  destruct intent; simpl in Hop; by rewrite ?Hpay, ?Htrust in Hop.
Qed.

Lemma sdk_errors_proper_rejecting : sdk_errors_proper rejecting_sdk_env.
Proof.
  intros intent cause Hop.
  destruct intent; simpl in Hop; by injection Hop as <-.
Qed.

(** C9 at three sample inputs: a ledger without the account, an SDK that
    rejects the limit of the trustline, and a ledger that answers the
    submission with result codes. *)
Lemma build_failures_classified_witness :
  (exists e,
     fst (build_intent no_account_env "GA"
            (PaymentIntent (payment_A_to_B None)) initial_state) = Thrown e
     /\ classify_failure e = Some AccountNotFound)
  /\ (exists e,
        fst (build_intent rejecting_sdk_env "GA"
               (TrustlineIntent {| trust_asset := AssetCredit "USD" "GI";
                                   trust_limit := Some "-1" |})
               initial_state) = Thrown e
        /\ classify_failure e = Some InvalidIntent)
  /\ (exists e,
        fst (execute bad_seq_env "GA" "SA"
               (PaymentIntent (payment_A_to_B None)) initial_state) = Thrown e
        /\ classify_failure e = Some SubmissionRejected).
Proof.
  split; [| split].
  - destruct (proj1 (build_failures_classified no_account_env initial_state
                       "GA" "SA" (PaymentIntent (payment_A_to_B None))
                       (sdk_errors_proper_accepting no_account_env
                          (fun _ _ _ => eq_refl) (fun _ _ => eq_refl)))
                _ eq_refl)
      as (e & e' & Hrun & Hclass & _).
    exists e. by rewrite Hrun.
  - destruct (proj1 (proj2 (build_failures_classified rejecting_sdk_env
                              initial_state "GA" "SA"
                              (TrustlineIntent
                                 {| trust_asset := AssetCredit "USD" "GI";
                                    trust_limit := Some "-1" |})
                              sdk_errors_proper_rejecting))
                _ _ eq_refl eq_refl)
      as (e & e' & Hrun & Hclass & _).
    exists e. by rewrite Hrun.
  - destruct (proj2 (proj2 (proj2 (build_failures_classified bad_seq_env
                                     initial_state "GA" "SA"
                                     (PaymentIntent (payment_A_to_B None))
                                     (sdk_errors_proper_accepting bad_seq_env
                                        (fun _ _ _ => eq_refl)
                                        (fun _ _ => eq_refl)))))
                {| rec_id := "GA"; rec_sequence := 5; rec_balances := [] |}
                "signer of SA" _ eq_refl (conj eq_refl eq_refl) eq_refl
                eq_refl)
      as (e & e' & _ & _ & Hrun & Hclass).
    by exists e'.
Defined.

(** * Further properties of the event service *)

Lemma filter_ext_in {A} (P Q : A -> Prop) `{!forall x, Decision (P x)}
    `{!forall x, Decision (Q x)} (l : list A) :
  (forall x, x ∈ l -> (P x <-> Q x)) -> filter P l = filter Q l.
Proof.
  induction l as [| x l IH]; intros HPQ; [done |].
  rewrite !filter_cons.
  destruct (decide (P x)) as [HP | HP], (decide (Q x)) as [HQ | HQ].
  - f_equal. apply IH. intros y Hy. apply HPQ. by right.
  - exfalso. apply HQ. apply (HPQ x); [by left | done].
  - exfalso. apply HP. apply (HPQ x); [by left | done].
  - apply IH. intros y Hy. apply HPQ. by right.
Qed.

Lemma jsmap_get_inj {V} (k k' : string) (v : V) (m : list (string * V)) :
  NoDup m.*2 -> jsmap_get k m = Some v -> jsmap_get k' m = Some v -> k = k'.
Proof.
  induction m as [| [k0 v0] m IH]; simpl; intros Hnd Hk Hk'; [done |].
  apply NoDup_cons in Hnd as [Hv0 Hnd].
  destruct (decide (k0 = k)) as [H1 | H1], (decide (k0 = k')) as [H2 | H2].
  - congruence.
  - rewrite bool_decide_eq_true_2 in Hk by done.
    rewrite bool_decide_eq_false_2 in Hk' by done.
    injection Hk as <-. exfalso. apply Hv0.
    apply list_elem_of_fmap. exists (k', v0). split; [done |].
    by apply jsmap_get_Some_elem.
  - rewrite bool_decide_eq_false_2 in Hk by done.
    rewrite bool_decide_eq_true_2 in Hk' by done.
    injection Hk' as <-. exfalso. apply Hv0.
    apply list_elem_of_fmap. exists (k, v0). split; [done |].
    by apply jsmap_get_Some_elem.
  - rewrite bool_decide_eq_false_2 in Hk by done.
    rewrite bool_decide_eq_false_2 in Hk' by done.
    by apply IH.
Qed.

Lemma jsmap_delete_set_fresh {V} (k : string) (v : V) (m : list (string * V)) :
  jsmap_get k m = None -> jsmap_delete k (jsmap_set k v m) = m.
Proof.
  induction m as [| [k0 v0] m IH]; simpl; intros Hnone.
  - by rewrite bool_decide_eq_true_2.
  - case_bool_decide as Hk; [done |]. simpl.
    rewrite bool_decide_eq_false_2 by done. by rewrite IH.
Qed.

(** X1. The subscription ids are injective: two subscriptions share an id
    only when they are for the same event class and the same account, so
    an account subscription and a payments subscription never replace
    each other. *)
Theorem subscriptionId_injective (kind kind' : StreamKind) (pk pk' : string) :
  subscriptionId_of kind pk = subscriptionId_of kind' pk'
  <-> kind = kind' /\ pk = pk'.
Proof.
  split; [| by intros [-> ->]].
  destruct kind, kind'; simpl;
    unfold EventService.account_subscriptionId,
      EventService.payments_subscriptionId; intros Heq.
  - apply append_inj_l in Heq. by subst.
  - discriminate Heq.
  - discriminate Heq.
  - apply append_inj_l in Heq. by subst.
Qed.

Lemma subscriptionId_ne kind pk kind' pk' :
  (kind', pk') ≠ (kind, pk) ->
  subscriptionId_of kind pk ≠ subscriptionId_of kind' pk'.
Proof.
  intros Hne Heq. apply subscriptionId_injective in Heq as [-> ->]. done.
Qed.

Lemma streams_for_add_calls kind pk cs s :
  streams_for kind pk (add_calls cs s) = streams_for kind pk s.
Proof. reflexivity. Qed.

Lemma streams_for_after_close kind pk id h s :
  registry_wf s ->
  jsmap_get id (st_closeCallbacks s) = Some h ->
  subscriptionId_of kind pk ≠ id ->
  streams_for kind pk (after_close id h s) = streams_for kind pk s.
Proof.
  intros Hwf Hget Hne. unfold streams_for. simpl.
  rewrite list_filter_filter. apply filter_ext_in. intros x Hx.
  split; [tauto |]. intros [Hk Hp]. split; [done |].
  intros Hh. apply Hne.
  pose proof (registry_wf_registered s x Hwf Hx) as Hreg.
  unfold stream_key in Hreg. rewrite Hk, Hp, Hh in Hreg.
  eapply jsmap_get_inj; [apply (wf_handles s Hwf) | apply Hreg | apply Hget].
Qed.

Lemma streams_for_after_open_other kind pk kind' pk' id s :
  (kind', pk') ≠ (kind, pk) ->
  streams_for kind' pk' (after_open kind pk id s) = streams_for kind' pk' s.
Proof.
  intros Hne. unfold streams_for. simpl. rewrite filter_app.
  rewrite filter_cons_False; [by rewrite filter_nil, app_nil_r |].
  simpl. intros [-> ->]. done.
Qed.

(** X2. Subscriptions under different keys do not disturb each other:
    whatever [subscribe] does for one key, returning or throwing, the
    connections open for any other key and the close callback stored for
    it are as before. *)
Theorem subscribe_other_keys_untouched (E : Env) (s : State)
    (kind kind' : StreamKind) (pk pk' : string) :
  registry_wf s ->
  (kind', pk') ≠ (kind, pk) ->
  let s' := snd (subscribe E kind pk s) in
  streams_for kind' pk' s' = streams_for kind' pk' s
  /\ jsmap_get (subscriptionId_of kind' pk') (st_closeCallbacks s')
     = jsmap_get (subscriptionId_of kind' pk') (st_closeCallbacks s).
Proof.
  intros Hwf Hne s'. subst s'.
  pose proof (subscriptionId_ne kind pk kind' pk' Hne) as Hid.
  rewrite subscribe_spec. cbv zeta.
  destruct (jsmap_get (subscriptionId_of kind pk) (st_closeCallbacks s))
    as [h |] eqn:Hget.
  - destruct (close_throws E h); simpl snd; [done |].
    rewrite streams_for_after_open_other by done.
    rewrite streams_for_after_close by (done || by apply not_eq_sym).
    split; [done |]. simpl.
    by rewrite jsmap_get_set_ne, jsmap_get_delete_ne.
  - simpl snd. rewrite streams_for_after_open_other by done.
    split; [done |]. simpl. by rewrite jsmap_get_set_ne.
Qed.

(** X2 at a sample state: subscribing to the payments of GA leaves the
    account subscription of GA alone. *)
Lemma subscribe_other_keys_untouched_witness :
  streams_for AccountsStream "GA" (two_subscriptions quiet_env)
  = streams_for AccountsStream "GA" (one_subscription quiet_env).
Proof.
  assert (Hwf : registry_wf (one_subscription quiet_env)).
  { apply (subscribe_wf quiet_env AccountsStream), registry_wf_initial. }
  apply (subscribe_other_keys_untouched quiet_env (one_subscription quiet_env)
           PaymentsStream AccountsStream "GA" "GA" Hwf).
  discriminate.
Defined.

(** X3. [subscribe] followed by [unsubscribe] of the id it returned puts
    the registry back: where no subscription was stored under the key and
    the close callback handed out returns normally, [unsubscribe] returns
    [true] after invoking exactly that callback, and the stored close
    callbacks and the open connections are those from before the
    [subscribe]. *)
Theorem subscribe_unsubscribe_restores (E : Env) (s : State)
    (kind : StreamKind) (pk : string) :
  registry_wf s ->
  jsmap_get (subscriptionId_of kind pk) (st_closeCallbacks s) = None ->
  close_throws E (st_next s) = None ->
  let id := subscriptionId_of kind pk in
  let s1 := snd (subscribe E kind pk s) in
  let s2 := snd (EventService.unsubscribe E id s1) in
  fst (EventService.unsubscribe E id s1) = Returned true
  /\ closings (calls_of (EventService.unsubscribe E id) s1) = [st_next s]
  /\ st_closeCallbacks s2 = st_closeCallbacks s
  /\ st_streams s2 = st_streams s
  /\ st_listeners s2 = st_listeners s.
Proof.
  intros Hwf Hnone Hok. cbv zeta.
  set (id := subscriptionId_of kind pk) in *.
  set (s1 := snd (subscribe E kind pk s)).
  set (s2 := snd (EventService.unsubscribe E id s1)).
  assert (Hs1 : s1 = after_open kind pk id s).
  { subst s1. rewrite subscribe_spec. cbv zeta. fold id. by rewrite Hnone. }
  assert (Hget1 : jsmap_get id (st_closeCallbacks s1) = Some (st_next s)).
  { rewrite Hs1. simpl. apply jsmap_get_set_eq. }
  assert (Hrun : EventService.unsubscribe E id s1
                 = (Returned true, after_close id (st_next s) s1)).
  { by rewrite unsubscribe_spec, Hget1, Hok. }
  subst s2. rewrite Hrun. simpl fst. simpl snd.
  split; [done |]. split.
  { erewrite calls_of_add_calls; [| apply Hrun | reflexivity]. done. }
  rewrite Hs1. simpl. split; [by apply jsmap_delete_set_fresh |].
  split; [| done].
  rewrite filter_app, filter_cons_False by (simpl; intros Hc; by apply Hc).
  rewrite filter_nil, app_nil_r. apply filter_all. intros x Hx.
  pose proof (proj1 (Forall_forall _ _) (wf_streams_fresh s Hwf) x Hx).
  simpl in *. lia.
Qed.

(** X3 at the empty registry. *)
Lemma subscribe_unsubscribe_restores_witness :
  st_closeCallbacks
    (snd (EventService.unsubscribe quiet_env "account-GA"
            (one_subscription quiet_env))) = []
  /\ st_streams
       (snd (EventService.unsubscribe quiet_env "account-GA"
               (one_subscription quiet_env))) = [].
Proof.
  pose proof (subscribe_unsubscribe_restores quiet_env initial_state
                AccountsStream "GA" registry_wf_initial eq_refl eq_refl)
    as (_ & _ & Hcbs & Hstreams & _).
  split; [exact Hcbs | exact Hstreams].
Defined.

(** X4. [unsubscribe] is idempotent: once it has returned [true] for an
    id, a second call for that id returns [false], invokes nothing and
    leaves the state as it is. *)
Theorem unsubscribe_twice (E : Env) (s : State) (id : string) :
  registry_wf s ->
  fst (EventService.unsubscribe E id s) = Returned true ->
  let s' := snd (EventService.unsubscribe E id s) in
  EventService.unsubscribe E id s' = (Returned false, s').
Proof.
  intros Hwf Htrue. cbv zeta.
  assert (exists h, EventService.unsubscribe E id s
                    = (Returned true, after_close id h s)) as [h Hrun].
  { rewrite unsubscribe_spec in Htrue |- *.
    destruct (jsmap_get id (st_closeCallbacks s)) as [h |];
      [| discriminate Htrue].
    destruct (close_throws E h); [discriminate Htrue |]. by exists h. }
  rewrite Hrun. simpl snd.
  by rewrite unsubscribe_spec, (after_close_absent id h s Hwf).
Qed.

(** X4 at the state with one active subscription. *)
Lemma unsubscribe_twice_witness :
  let s' := snd (EventService.unsubscribe quiet_env "account-GA"
                   (one_subscription quiet_env)) in
  EventService.unsubscribe quiet_env "account-GA" s' = (Returned false, s').
Proof.
  apply unsubscribe_twice; [| reflexivity].
  apply (subscribe_wf quiet_env AccountsStream), registry_wf_initial.
Defined.

(** *** What each method leaves alone *)

Lemma forEach_close_listeners E entries s :
  st_listeners (snd (EventService.forEach_close E entries s)) = st_listeners s
  /\ st_keychain (snd (EventService.forEach_close E entries s))
     = st_keychain s.
Proof.
  revert s. induction entries as [| [k h] entries IH]; intros s; simpl;
    [done |].
  unfold bind, call_close. destruct (close_throws E h); simpl; [done |].
  match goal with
  | |- context [EventService.forEach_close E entries ?s1] =>
      destruct (IH s1) as [Hl Hk]
  end.
  by rewrite Hl, Hk.
Qed.

Lemma deliver_cases E h message s :
  EventService.deliver E h message s = (Returned tt, s)
  \/ exists ev,
       EventService.deliver E h message s = EventService.emitEvent E ev s
       /\ stream_event_type (ev_type ev) = true
       /\ ev_payload ev = message.
Proof.
  unfold EventService.deliver.
  destruct (list_find _ (st_streams s)) as [[i x] |]; [| by left].
  right. destruct (s_kind x).
  - by exists {| ev_type := ACCOUNT_UPDATED; ev_payload := message |}.
  - exists (EventService.payment_event (s_account x) message).
    split; [done |]. unfold EventService.payment_event. simpl.
    by destruct (strict_eq _ _).
Qed.

Lemma unsubscribe_frame E id s :
  st_listeners (snd (EventService.unsubscribe E id s)) = st_listeners s
  /\ st_keychain (snd (EventService.unsubscribe E id s)) = st_keychain s.
Proof.
  rewrite unsubscribe_spec.
  destruct (jsmap_get id (st_closeCallbacks s)) as [h |]; [| done].
  by destruct (close_throws E h).
Qed.

Lemma subscribe_frame E kind pk s :
  st_listeners (snd (subscribe E kind pk s)) = st_listeners s
  /\ st_keychain (snd (subscribe E kind pk s)) = st_keychain s.
Proof.
  rewrite subscribe_spec. cbv zeta.
  destruct (jsmap_get _ (st_closeCallbacks s)) as [h |]; [| done].
  by destruct (close_throws E h).
Qed.

Lemma unsubscribeAll_frame E s :
  st_listeners (snd (EventService.unsubscribeAll E s)) = st_listeners s
  /\ st_keychain (snd (EventService.unsubscribeAll E s)) = st_keychain s.
Proof.
  unfold EventService.unsubscribeAll, bind.
  destruct (forEach_close_listeners E (st_closeCallbacks s) s) as [Hl Hk].
  destruct (EventService.forEach_close E (st_closeCallbacks s) s)
    as [[[] | e] s1]; simpl in *; by rewrite Hl, Hk.
Qed.

Lemma removeEventListener_spec t cb s :
  EventService.removeEventListener t cb s
  = (Returned tt,
     match st_listeners s !! EventType_value t with
     | Some set =>
         set_listeners
           (<[EventType_value t := jsset_delete cb set]> (st_listeners s)) s
     | None => s
     end).
Proof.
  unfold EventService.removeEventListener.
  by destruct (st_listeners s !! EventType_value t).
Qed.

(** X5. Adding or removing a listener contacts no collaborator and leaves
    the subscriptions alone: the stored close callbacks, the open
    connections and the trace are unchanged.  Subscribing, unsubscribing
    and teardown, returning or throwing, leave the listener sets
    alone. *)
Theorem listeners_and_subscriptions_independent (E : Env) (s : State) :
  (forall t cb,
     let s' := snd (EventService.addEventListener t cb s) in
     st_closeCallbacks s' = st_closeCallbacks s
     /\ st_streams s' = st_streams s /\ st_calls s' = st_calls s)
  /\ (forall t cb,
        let s' := snd (EventService.removeEventListener t cb s) in
        st_closeCallbacks s' = st_closeCallbacks s
        /\ st_streams s' = st_streams s /\ st_calls s' = st_calls s)
  /\ (forall pk,
        st_listeners (snd (EventService.subscribeToAccount E pk s))
        = st_listeners s)
  /\ (forall pk,
        st_listeners (snd (EventService.subscribeToPayments E pk s))
        = st_listeners s)
  /\ (forall id,
        st_listeners (snd (EventService.unsubscribe E id s)) = st_listeners s)
  /\ st_listeners (snd (EventService.unsubscribeAll E s)) = st_listeners s.
Proof.
  split; [| split; [| split; [| split; [| split]]]].
  - intros t cb. by rewrite addEventListener_spec.
  - intros t cb. rewrite removeEventListener_spec.
    by destruct (st_listeners s !! EventType_value t).
  - intros pk. apply (subscribe_frame E AccountsStream).
  - intros pk. apply (subscribe_frame E PaymentsStream).
  - intros id. apply unsubscribe_frame.
  - apply unsubscribeAll_frame.
Qed.

(** *** The invariant of the service *)

Lemma registry_wf_same_registry s s' :
  registry_wf s ->
  st_closeCallbacks s' = st_closeCallbacks s ->
  st_streams s' = st_streams s ->
  st_next s' = st_next s ->
  registry_wf s'.
Proof.
  intros Hwf Hc Hs Hn. eapply registry_wf_fewer_streams; eauto.
  by rewrite Hs.
Qed.

Lemma listeners_wf_same_listeners s s' :
  listeners_wf s -> st_listeners s' = st_listeners s -> listeners_wf s'.
Proof. intros Hwf Heq k set. rewrite Heq. apply Hwf. Qed.

Lemma deliver_state E h message s :
  exists cs, EventService.deliver E h message s = (Returned tt, add_calls cs s).
Proof.
  destruct (deliver_cases E h message s) as [Hrun | (ev & Hrun & _)].
  - exists []. by rewrite add_calls_nil.
  - eexists. rewrite Hrun. apply emitEvent_spec.
Qed.

Lemma serve_wf E r s :
  registry_wf s /\ listeners_wf s ->
  registry_wf (serve E r s) /\ listeners_wf (serve E r s).
Proof.
  intros [Hr Hl]. destruct r as [t cb | t cb | pk | pk | id | | h message];
    unfold serve.
  - split; [| by apply addEventListener_wf].
    eapply registry_wf_same_registry; [done | ..];
      by rewrite addEventListener_spec.
  - split; [| by apply removeEventListener_wf].
    eapply registry_wf_same_registry; [done | ..];
      rewrite removeEventListener_spec;
      by destruct (st_listeners s !! EventType_value t).
  - split; [apply (subscribe_wf E AccountsStream); done |].
    eapply listeners_wf_same_listeners; [done |].
    apply (subscribe_frame E AccountsStream).
  - split; [apply (subscribe_wf E PaymentsStream); done |].
    eapply listeners_wf_same_listeners; [done |].
    apply (subscribe_frame E PaymentsStream).
  - split; [by apply unsubscribe_wf |].
    eapply listeners_wf_same_listeners; [done |]. apply unsubscribe_frame.
  - split; [by apply unsubscribeAll_wf |].
    eapply listeners_wf_same_listeners; [done |]. apply unsubscribeAll_frame.
  - destruct (deliver_state E h message s) as [cs Hrun]. rewrite Hrun. simpl.
    split.
    + by eapply registry_wf_same_registry.
    + by eapply listeners_wf_same_listeners.
Qed.

Lemma serve_all_wf E rs s :
  registry_wf s /\ listeners_wf s ->
  registry_wf (serve_all E rs s) /\ listeners_wf (serve_all E rs s).
Proof.
  revert s. induction rs as [| r rs IH]; intros s Hwf; [done |].
  simpl. apply IH. by apply serve_wf.
Qed.

(** X6. The invariant of the event service.  After any sequence of
    listener registrations and removals, subscriptions, cancellations,
    teardowns and incoming messages, applied to a fresh service, with
    callbacks that may throw: no subscription key has more than one open
    connection, every open connection has its close callback stored under
    its key (so it can still be cancelled), the map holds each close
    callback once, and no listener set holds a callback twice. *)
Theorem event_service_invariant (E : Env) (rs : list Request) :
  let s := serve_all E rs initial_state in
  at_most_one_stream s
  /\ (forall x, x ∈ st_streams s ->
        jsmap_get (stream_key x) (st_closeCallbacks s) = Some (s_handle x))
  /\ NoDup (st_closeCallbacks s).*2
  /\ registry_wf s
  /\ listeners_wf s.
Proof.
  intros s.
  destruct (serve_all_wf E rs initial_state
              (conj registry_wf_initial listeners_wf_initial)) as [Hr Hl].
  fold s in Hr, Hl.
  split; [by apply registry_wf_at_most_one |].
  split; [intros x Hx; by apply registry_wf_registered |].
  split; [apply Hr | done].
Qed.

(** *** Listener edge cases *)

Lemma set_listeners_same s : set_listeners (st_listeners s) s = s.
Proof. by destruct s. Qed.

Lemma EventType_value_inj t t' : EventType_value t = EventType_value t' -> t = t'.
Proof. destruct t, t'; simpl; intros H; try done; discriminate H. Qed.

(** X7. Removing a callback that is not registered for the class, the
    class having listeners or not, changes nothing at all. *)
Theorem removeEventListener_absent (s : State) (t : EventType)
    (cb : EventCallback) :
  cb ∉ listeners_of s t ->
  EventService.removeEventListener t cb s = (Returned tt, s).
Proof.
  intros Hout. rewrite removeEventListener_spec. unfold listeners_of in Hout.
  destruct (st_listeners s !! EventType_value t) as [set |] eqn:Hget;
    [| done].
  simpl in Hout. unfold jsset_delete.
  rewrite filter_all by (intros y Hy ->; done).
  by rewrite insert_id, set_listeners_same.
Qed.

(** X7 at a sample state: listener 3 was never registered. *)
Lemma removeEventListener_absent_witness :
  EventService.removeEventListener PAYMENT_SENT 3 two_listeners
  = (Returned tt, two_listeners).
Proof.
  apply removeEventListener_absent. vm_compute.
  intros H. repeat (apply elem_of_cons in H as [H | H]; [discriminate H |]).
  by apply elem_of_nil in H.
Defined.

(** X8. Event classes are independent: registering or removing a
    callback for one class leaves the listeners of every other class as
    they are, and an event of another class is fanned out exactly as
    before. *)
Theorem listener_classes_independent (E : Env) (s : State) (t t' : EventType)
    (cb : EventCallback) (ev : EventData) :
  t ≠ t' ->
  ev_type ev = t' ->
  let added := snd (EventService.addEventListener t cb s) in
  let removed := snd (EventService.removeEventListener t cb s) in
  listeners_of added t' = listeners_of s t'
  /\ listeners_of removed t' = listeners_of s t'
  /\ calls_of (EventService.emitEvent E ev) added
     = calls_of (EventService.emitEvent E ev) s
  /\ calls_of (EventService.emitEvent E ev) removed
     = calls_of (EventService.emitEvent E ev) s.
Proof.
  intros Hne Hev added removed.
  assert (Hkey : EventType_value t ≠ EventType_value t').
  { intros Hc. by apply EventType_value_inj in Hc. }
  assert (Hadd : listeners_of added t' = listeners_of s t').
  { subst added. rewrite addEventListener_spec. unfold listeners_of. simpl.
    by rewrite lookup_insert_ne. }
  assert (Hrem : listeners_of removed t' = listeners_of s t').
  { subst removed. rewrite removeEventListener_spec. unfold listeners_of.
    destruct (st_listeners s !! EventType_value t); [| done]. simpl.
    by rewrite lookup_insert_ne. }
  rewrite !calls_of_emitEvent, Hev. by rewrite Hadd, Hrem.
Qed.

(** X8 at a sample state. *)
Lemma listener_classes_independent_witness :
  listeners_of
    (snd (EventService.addEventListener ACCOUNT_UPDATED 5 two_listeners))
    PAYMENT_SENT
  = listeners_of two_listeners PAYMENT_SENT.
Proof.
  apply (listener_classes_independent quiet_env two_listeners
           ACCOUNT_UPDATED PAYMENT_SENT 5
           {| ev_type := PAYMENT_SENT; ev_payload := [] |});
    [discriminate | reflexivity].
Defined.

(** *** Messages *)

Lemma fmap_pair_fst {A B} (b : B) (l : list A) :
  ((fun a => (a, b)) <$> l).*1 = l.
Proof. induction l as [| y l IH]; [done | by rewrite !fmap_cons, IH]. Qed.

Lemma list_find_snoc {A} (P : A -> Prop) `{!forall x, Decision (P x)}
    (l : list A) (y : A) :
  (forall x, x ∈ l -> ~ P x) -> P y ->
  list_find P (l ++ [y]) = Some (length l, y).
Proof.
  induction l as [| x l IH]; intros Hl Hy; simpl.
  - by rewrite decide_True.
  - rewrite decide_False by (apply Hl; by left).
    rewrite IH; [done | | done]. intros z Hz. apply Hl. by right.
Qed.

(** The connection [subscribe] opens is the one found under its
    handle. *)
Lemma subscribe_opens_stream E kind pk s :
  registry_wf s ->
  fst (subscribe E kind pk s) = Returned (subscriptionId_of kind pk) ->
  exists i,
    list_find (fun x => s_handle x = st_next s)
      (st_streams (snd (subscribe E kind pk s)))
    = Some (i, {| s_handle := st_next s; s_kind := kind; s_account := pk |}).
Proof.
  intros Hwf Hret.
  assert (Hold : forall l : list Stream,
            l `sublist_of` st_streams s ->
            forall x, x ∈ l -> ~ s_handle x = st_next s).
  { intros l Hsub x Hx Heq.
    pose proof (proj1 (Forall_forall _ _) (wf_streams_fresh s Hwf) x
                  (elem_of_sublist _ _ _ Hx Hsub)). simpl in *. lia. }
  rewrite subscribe_spec in Hret |- *. cbv zeta in Hret |- *.
  destruct (jsmap_get _ (st_closeCallbacks s)) as [h |].
  - destruct (close_throws E h); [discriminate Hret |]. simpl.
    eexists. apply list_find_snoc; [| done].
    apply Hold, sublist_filter.
  - simpl. eexists. apply list_find_snoc; [| done]. by apply Hold.
Qed.

(** X9. A listener may be registered before the subscription exists.
    Once [subscribe] has returned, a message arriving on the connection
    it opened is emitted as the event of that stream ([ACCOUNT_UPDATED]
    for an accounts stream, the classified payment event for a payments
    stream), and a listener registered for that class beforehand is
    invoked exactly once, with that event. *)
Theorem subscription_delivers_to_listeners (E : Env) (s : State)
    (kind : StreamKind) (pk : string) (cb : EventCallback)
    (message : Payload) :
  registry_wf s ->
  listeners_wf s ->
  let ev := stream_event kind pk message in
  let s1 := snd (EventService.addEventListener (ev_type ev) cb s) in
  let s2 := snd (subscribe E kind pk s1) in
  fst (subscribe E kind pk s1) = Returned (subscriptionId_of kind pk) ->
  EventService.deliver E (st_next s) message s2
  = EventService.emitEvent E ev s2
  /\ times_invoked cb (calls_of (EventService.deliver E (st_next s) message) s2)
     = 1
  /\ invocations (calls_of (EventService.deliver E (st_next s) message) s2)
     = (fun cb' => (cb', ev)) <$> jsset_add cb (listeners_of s (ev_type ev)).
Proof.
  intros Hwf Hlwf ev s1 s2 Hret.
  assert (Hwf1 : registry_wf s1).
  { eapply registry_wf_same_registry; [apply Hwf | ..];
      subst s1; by rewrite addEventListener_spec. }
  assert (Hnext : st_next s1 = st_next s).
  { subst s1. by rewrite addEventListener_spec. }
  destruct (subscribe_opens_stream E kind pk s1 Hwf1 Hret) as [i Hfind].
  fold s2 in Hfind. rewrite Hnext in Hfind.
  assert (Hdeliver : EventService.deliver E (st_next s) message s2
                     = EventService.emitEvent E ev s2).
  { unfold EventService.deliver. rewrite Hfind. simpl.
    subst ev. by destruct kind. }
  assert (Hlisteners : listeners_of s2 (ev_type ev)
                       = jsset_add cb (listeners_of s (ev_type ev))).
  { unfold listeners_of at 1. subst s2.
    rewrite (proj1 (subscribe_frame E kind pk s1)). subst s1.
    apply addEventListener_listeners. }
  assert (Hinv :
    invocations (calls_of (EventService.deliver E (st_next s) message) s2)
    = (fun cb' => (cb', ev)) <$> jsset_add cb (listeners_of s (ev_type ev))).
  { unfold calls_of. rewrite Hdeliver, <- Hlisteners.
    apply (proj2 (emitEvent_fan_out E ev s2)). }
  split; [done |]. split; [| done].
  unfold times_invoked. rewrite Hinv, fmap_pair_fst.
  apply NoDup_count_one; [| apply jsset_add_elem].
  apply jsset_add_NoDup. by apply listeners_wf_listeners_of.
Qed.

(** X9 at the fresh service: listener 7 is registered, then the account
    of GA is subscribed to, then a message arrives. *)
Lemma subscription_delivers_to_listeners_witness :
  let s1 := snd (EventService.addEventListener ACCOUNT_UPDATED 7
                   initial_state) in
  let s2 := snd (EventService.subscribeToAccount quiet_env "GA" s1) in
  invocations
    (calls_of (EventService.deliver quiet_env 0 [("id", JsString "GA")]) s2)
  = [(7, {| ev_type := ACCOUNT_UPDATED;
            ev_payload := [("id", JsString "GA")] |})].
Proof.
  intros s1 s2.
  pose proof (subscription_delivers_to_listeners quiet_env initial_state
                AccountsStream "GA" 7 [("id", JsString "GA")]
                registry_wf_initial listeners_wf_initial eq_refl)
    as (_ & _ & Hinv).
  exact Hinv.
Defined.

(** X10. A stream only ever emits [ACCOUNT_UPDATED], [PAYMENT_RECEIVED]
    or [PAYMENT_SENT]: whatever message arrives on whatever handle, the
    delivery returns normally, changes nothing but the trace, and every
    listener it invokes is one registered for such a class and receives
    the message as payload.  Listeners of [TRANSACTION_SUBMITTED] and
    [TRANSACTION_FAILED] are never invoked. *)
Theorem stream_events_only (E : Env) (s : State) (h : nat)
    (message : Payload) :
  (exists cs,
     EventService.deliver E h message s = (Returned tt, add_calls cs s))
  /\ (forall cb ev,
        (cb, ev) ∈ invocations (calls_of (EventService.deliver E h message) s)
        -> stream_event_type (ev_type ev) = true
           /\ ev_payload ev = message
           /\ cb ∈ listeners_of s (ev_type ev)).
Proof.
  split; [apply deliver_state |].
  intros cb ev Hin. unfold calls_of in Hin.
  destruct (deliver_cases E h message s) as [Hrun | (ev0 & Hrun & Hty & Hpl)];
    rewrite Hrun in Hin.
  - simpl in Hin. rewrite drop_all in Hin. by apply elem_of_nil in Hin.
  - pose proof (proj2 (emitEvent_fan_out E ev0 s)) as Hinv.
    unfold calls_of in Hinv. rewrite Hinv in Hin.
    apply list_elem_of_fmap in Hin as (cb0 & [= -> ->] & Hcb). done.
Qed.

(** *** Close callbacks that throw *)

(** X11. A stored close callback that throws is not caught by
    [unsubscribe] nor by [subscribe]: the call rejects with that very
    error after invoking the callback once; the entry stays in the map,
    the connections stay as they are and [subscribe] opens none. *)
Theorem throwing_close_callback_propagates (E : Env) (s : State)
    (kind : StreamKind) (pk : string) (h : nat) (e : JsError) :
  jsmap_get (subscriptionId_of kind pk) (st_closeCallbacks s) = Some h ->
  close_throws E h = Some e ->
  let id := subscriptionId_of kind pk in
  EventService.unsubscribe E id s = (Thrown e, add_calls [CloseStream h] s)
  /\ subscribe E kind pk s = (Thrown e, add_calls [CloseStream h] s)
  /\ jsmap_get id (st_closeCallbacks (add_calls [CloseStream h] s)) = Some h
  /\ st_streams (add_calls [CloseStream h] s) = st_streams s.
Proof.
  intros Hget Hthrow id. subst id.
  split; [by rewrite unsubscribe_spec, Hget, Hthrow |].
  split; [| done].
  pose proof (subscribe_spec E kind pk s) as Hrun. cbv zeta in Hrun.
  by rewrite Hget, Hthrow in Hrun.
Qed.

(** X11 at the sample state whose one close callback throws. *)
Lemma throwing_close_callback_propagates_witness :
  EventService.subscribeToAccount failing_close_env "GA"
    (one_subscription failing_close_env)
  = (Thrown (new_Error "close failed"),
     add_calls [CloseStream 0] (one_subscription failing_close_env)).
Proof.
  apply (throwing_close_callback_propagates failing_close_env
           (one_subscription failing_close_env) AccountsStream "GA" 0
           (new_Error "close failed") eq_refl eq_refl).
Defined.

(** X12. Teardown of an empty registry does nothing, and teardown is
    idempotent: after an [unsubscribeAll] that returned, the map is empty
    and a second [unsubscribeAll] invokes nothing and changes nothing. *)
Theorem unsubscribeAll_idempotent (E : Env) (s : State) :
  (st_closeCallbacks s = [] ->
   EventService.unsubscribeAll E s = (Returned tt, s))
  /\ (fst (EventService.unsubscribeAll E s) = Returned tt ->
      let s' := snd (EventService.unsubscribeAll E s) in
      st_closeCallbacks s' = []
      /\ EventService.unsubscribeAll E s' = (Returned tt, s')).
Proof.
  assert (Hempty : forall s0, st_closeCallbacks s0 = [] ->
            EventService.unsubscribeAll E s0 = (Returned tt, s0)).
  { intros s0 Hnil. unfold EventService.unsubscribeAll, bind. rewrite Hnil.
    simpl. unfold EventService.closeCallbacks_clear.
    destruct s0; simpl in *. by subst. }
  split; [apply Hempty |].
  intros Hret. cbv zeta.
  assert (Hnil : st_closeCallbacks (snd (EventService.unsubscribeAll E s))
                 = []).
  { unfold EventService.unsubscribeAll, bind in Hret |- *.
    destruct (EventService.forEach_close E (st_closeCallbacks s) s)
      as [[[] | e] s1]; [done | discriminate Hret]. }
  split; [done | by apply Hempty].
Qed.

(** X12 at the sample state with two subscriptions. *)
Lemma unsubscribeAll_idempotent_witness :
  let s' := snd (EventService.unsubscribeAll quiet_env
                   (two_subscriptions quiet_env)) in
  EventService.unsubscribeAll quiet_env s' = (Returned tt, s').
Proof.
  apply (proj2 (unsubscribeAll_idempotent quiet_env
                  (two_subscriptions quiet_env))).
  reflexivity.
Defined.

(** X13. A teardown that meets a throwing close callback stops there:
    the callbacks stored before it have been invoked and their
    connections are closed, the throwing one and those after it keep
    their connections, and the map still holds every entry, the closed
    ones included. *)
Theorem unsubscribeAll_partial_teardown (E : Env) (s : State)
    (pre post : list (string * nat)) (k : string) (h : nat) (e : JsError) :
  st_closeCallbacks s = pre ++ (k, h) :: post ->
  Forall (fun kh => close_throws E kh.2 = None) pre ->
  close_throws E h = Some e ->
  let s' := snd (EventService.unsubscribeAll E s) in
  fst (EventService.unsubscribeAll E s) = Thrown e
  /\ closings (calls_of (EventService.unsubscribeAll E) s) = pre.*2 ++ [h]
  /\ st_closeCallbacks s' = st_closeCallbacks s
  /\ st_streams s' = filter (fun x => s_handle x ∉ pre.*2) (st_streams s).
Proof.
  intros Hcbs Hok Hthrow s'.
  assert (Hrun : EventService.unsubscribeAll E s
    = (Thrown e,
       set_streams (filter (fun x => s_handle x ∉ pre.*2) (st_streams s))
         (st_next s) (add_calls (CloseStream <$> (pre.*2 ++ [h])) s))).
  { unfold EventService.unsubscribeAll, bind. rewrite Hcbs.
    by rewrite (forEach_close_throws E pre k h e post s Hok Hthrow). }
  subst s'. rewrite Hrun. simpl. split; [done |]. split; [| done].
  erewrite calls_of_add_calls; [| apply Hrun | reflexivity].
  apply closings_close_calls.
Qed.

(** X13 at a sample state: of two subscriptions the first one's close
    callback throws. *)
Lemma unsubscribeAll_partial_teardown_witness :
  let s := two_subscriptions failing_close_env in
  closings (calls_of (EventService.unsubscribeAll failing_close_env) s) = [0]
  /\ st_closeCallbacks (snd (EventService.unsubscribeAll failing_close_env s))
     = [("account-GA", 0); ("payments-GA", 1)].
Proof.
  intros s.
  pose proof (unsubscribeAll_partial_teardown failing_close_env s []
                [("payments-GA", 1)] "account-GA" 0
                (new_Error "close failed") eq_refl (Forall_nil_2 _) eq_refl)
    as (_ & Hcalls & Hcbs & _).
  split; [exact Hcalls | exact Hcbs].
Defined.

(** X10 at a sample state: a payment message reaches the two
    [PAYMENT_SENT] listeners. *)
Lemma stream_events_only_witness :
  stream_event_type
    (ev_type (EventService.payment_event "GA" [("to", JsString "GB")]))
  = true.
Proof.
  apply (proj2 (stream_events_only quiet_env
                  (snd (EventService.subscribeToPayments quiet_env "GA"
                          two_listeners))
                  0 [("to", JsString "GB")]) 1 _).
  replace (invocations _)
    with [(1, EventService.payment_event "GA" [("to", JsString "GB")]);
          (2, EventService.payment_event "GA" [("to", JsString "GB")])]
    by reflexivity.
  by left.
Defined.

(** * Further properties of the transaction pipeline *)

(** X14. When every stage succeeds, [execute] returns what the gateway
    answered, and the calls it made are one account load followed by one
    submission, of the built envelope carrying exactly one signature, that
    of the given secret key, and exactly one operation.  Its sequence
    number is the signed 64-bit number that follows the account's: one
    more, and the smallest number after the largest. *)
Theorem execute_success (E : Env) (s : State) (pk sk : string)
    (intent : Intent) (account : AccountRecord) (signer result : string) :
  server_loadAccount E pk = inr account ->
  intent_accepted E intent ->
  Keypair_fromSecret E sk = inr signer ->
  server_submitTransaction E (sign signer (envelope_of E account intent))
  = inr result ->
  let signed := sign signer (envelope_of E account intent) in
  execute E pk sk intent s
  = (Returned result,
     add_calls [LoadAccount pk; SubmitTransaction signed] s)
  /\ tx_signatures signed = [signer]
  /\ tx_operations signed = [operation_of intent]
  /\ (int64_range (rec_sequence account) ->
      tx_sequence signed = next_sequence (rec_sequence account)
      /\ int64_range (tx_sequence signed)).
Proof.
  intros Hload [Hop Hmemo] Hkey Hsubmit signed. subst signed.
  split; [| split; [done | split; [done |]]].
  2: { intros Hrange. simpl. rewrite int64_wrap_next by done.
       split; [done | by apply next_sequence_range]. }
  rewrite execute_unfold. unfold try_catch, bind.
  rewrite build_intent_spec, Hload, Hop, Hmemo.
  rewrite signTransaction_spec, Hkey, submitTransaction_spec, Hsubmit.
  by rewrite !log_add_calls, add_calls_app.
Qed.

(** X14 at the sample input: 10 lumens from A to B on the quiet
    ledger. *)
Lemma execute_success_witness :
  let account :=
    {| rec_id := "GA"; rec_sequence := 5; rec_balances := [] |} in
  let intent := PaymentIntent (payment_A_to_B None) in
  fst (execute quiet_env "GA" "SA" intent initial_state) = Returned "hash"
  /\ tx_sequence (sign "signer of SA" (envelope_of quiet_env account intent))
     = 6%Z.
Proof.
  intros account intent.
  pose proof (execute_success quiet_env initial_state "GA" "SA" intent
                account "signer of SA" "hash" eq_refl (conj eq_refl eq_refl)
                eq_refl eq_refl) as (Hrun & _ & _ & Hsequence).
  split; [by rewrite Hrun |].
  apply Hsequence. unfold int64_range. simpl. lia.
Defined.

(** X15. [execute] never retries and never submits unsigned: whatever
    the collaborators answer, the calls it makes are the account load
    alone, or the account load followed by a single submission of an
    envelope with exactly one signature. *)
Theorem execute_submits_at_most_once (E : Env) (s : State) (pk sk : string)
    (intent : Intent) :
  calls_of (execute E pk sk intent) s = [LoadAccount pk]
  \/ exists t,
       calls_of (execute E pk sk intent) s
       = [LoadAccount pk; SubmitTransaction t]
       /\ length (tx_signatures t) = 1.
Proof.
  unfold calls_of. rewrite execute_unfold. unfold try_catch, bind.
  rewrite build_intent_spec.
  destruct (server_loadAccount E pk) as [cause | account];
    [left; apply drop_app_length |].
  destruct (operation_rejected E intent); [left; apply drop_app_length |].
  destruct (memo_rejected E intent); [left; apply drop_app_length |].
  rewrite signTransaction_spec.
  destruct (Keypair_fromSecret E sk) as [cause | signer];
    [left; apply drop_app_length |].
  rewrite submitTransaction_spec. right.
  exists (sign signer (envelope_of E account intent)). split; [| done].
  destruct (server_submitTransaction E _); simpl;
    by rewrite <- app_assoc, drop_app_length.
Qed.

(** X16. A payment memo is checked only when it is attached: with no
    memo or the empty memo, [Memo.text] is never consulted and the
    envelope has no memo whatever [Memo.text] would say; a memo that is
    not empty and that [Memo.text] rejects fails the build with the
    context of the stage and the text of that error, and [execute]
    submits nothing. *)
Theorem payment_memo_check (E : Env) (s : State) (pk sk : string)
    (o : PaymentOptions) (account : AccountRecord) :
  server_loadAccount E pk = inr account ->
  Operation_payment E (pay_destination o) (pay_asset o) (pay_amount o)
  = None ->
  (pay_memo o = None \/ pay_memo o = Some "" ->
   exists t,
     TransactionService.createPaymentTransaction E pk o s
     = (Returned t, add_calls [LoadAccount pk] s)
     /\ tx_memo t = MemoNone)
  /\ (forall text cause,
        pay_memo o = Some text -> text ≠ "" ->
        Memo_text E text = Some cause ->
        TransactionService.createPaymentTransaction E pk o s
        = (Thrown (new_Error ("Error creating payment transaction: "
                                +:+ error_toString cause)),
           add_calls [LoadAccount pk] s)
        /\ submissions
             (calls_of (TransactionService.sendPayment E pk sk o) s) = []).
Proof.
  intros Hload Hop.
  pose proof (build_intent_spec E pk (PaymentIntent o) s) as Hrun.
  simpl in Hrun. rewrite Hload in Hrun.
  unfold operation_rejected in Hrun. rewrite Hop in Hrun.
  unfold memo_rejected in Hrun. simpl in Hrun.
  split.
  - intros [Hmemo | Hmemo]; rewrite Hmemo in Hrun; simpl in Hrun;
      eexists; (split; [exact Hrun |]); simpl; by rewrite Hmemo.
  - intros text cause Hmemo Hne Hcheck.
    rewrite Hmemo, bool_decide_eq_false_2, Hcheck in Hrun by done.
    split; [exact Hrun |].
    change (TransactionService.sendPayment E pk sk o)
      with (execute E pk sk (PaymentIntent o)).
    unfold calls_of. rewrite execute_unfold. unfold try_catch, bind. simpl.
    rewrite Hrun. simpl. by rewrite drop_app_length.
Qed.

(** X16 at a sample input: the empty memo passes where [Memo.text]
    rejects every text. *)
Lemma payment_memo_check_witness :
  exists t,
    TransactionService.createPaymentTransaction rejecting_memo_env "GA"
      (payment_A_to_B (Some "")) initial_state
    = (Returned t, add_calls [LoadAccount "GA"] initial_state)
    /\ tx_memo t = MemoNone.
Proof.
  apply (proj1 (payment_memo_check rejecting_memo_env initial_state "GA" "SA"
                  (payment_A_to_B (Some ""))
                  {| rec_id := "GA"; rec_sequence := 5; rec_balances := [] |}
                  eq_refl eq_refl)).
  by right.
Defined.

(** X17. Signing is offline and adds exactly one signature: whatever the
    outcome, [signTransaction] contacts no collaborator and leaves the
    state as it is; with a valid secret key the envelope comes back with
    the signer appended to its signatures and everything else unchanged,
    so signing with two keys in turn accumulates both signatures in
    order; with an invalid key it throws an [Error] whose message is
    "Error signing transaction: " followed by the text of the SDK's
    error. *)
Theorem signTransaction_adds_one_signature (E : Env) (s : State)
    (t : Transaction) (sk : string) :
  snd (TransactionService.signTransaction E t sk s) = s
  /\ (forall signer,
        Keypair_fromSecret E sk = inr signer ->
        exists t',
          fst (TransactionService.signTransaction E t sk s) = Returned t'
          /\ tx_signatures t' = tx_signatures t ++ [signer]
          /\ tx_operations t' = tx_operations t
          /\ tx_source t' = tx_source t
          /\ tx_sequence t' = tx_sequence t
          /\ tx_fee t' = tx_fee t
          /\ tx_memo t' = tx_memo t
          /\ tx_timeout t' = tx_timeout t
          /\ forall sk2 signer2,
               Keypair_fromSecret E sk2 = inr signer2 ->
               exists t'',
                 fst (TransactionService.signTransaction E t' sk2 s)
                 = Returned t''
                 /\ tx_signatures t''
                    = tx_signatures t ++ [signer; signer2])
  /\ (forall cause,
        Keypair_fromSecret E sk = inl cause ->
        fst (TransactionService.signTransaction E t sk s)
        = Thrown (new_Error ("Error signing transaction: "
                               +:+ error_toString cause))).
Proof.
  split; [by rewrite signTransaction_spec |]. split.
  - intros signer Hkey. exists (sign signer t).
    rewrite signTransaction_spec, Hkey. repeat split.
    intros sk2 signer2 Hkey2. exists (sign signer2 (sign signer t)).
    rewrite signTransaction_spec, Hkey2. split; [done |]. simpl.
    by rewrite <- app_assoc.
  - intros cause Hkey. by rewrite signTransaction_spec, Hkey.
Qed.

(** X17 at a sample envelope signed by two keys. *)
Lemma signTransaction_adds_one_signature_witness :
  exists t',
    fst (TransactionService.signTransaction quiet_env
           (sign "signer of SA"
              (envelope_of quiet_env
                 {| rec_id := "GA"; rec_sequence := 5; rec_balances := [] |}
                 (PaymentIntent (payment_A_to_B None))))
           "SB" initial_state)
    = Returned t'
    /\ tx_signatures t' = ["signer of SA"; "signer of SB"].
Proof.
  destruct (proj1 (proj2 (signTransaction_adds_one_signature quiet_env
                            initial_state
                            (sign "signer of SA"
                               (envelope_of quiet_env
                                  {| rec_id := "GA"; rec_sequence := 5;
                                     rec_balances := [] |}
                                  (PaymentIntent (payment_A_to_B None))))
                            "SB"))
              "signer of SB" eq_refl) as (t' & Hrun & Hsig & _).
  exists t'. split; [exact Hrun | exact Hsig].
Defined.

(** *** createAccount *)

Lemma createAccount_spec E pk sk destination startingBalance s :
  TransactionService.createAccount E pk sk destination startingBalance s
  = match server_loadAccount E pk with
    | inl cause =>
        (Thrown (new_Error
                   ("Error creating account: Error: Error loading account: "
                      +:+ error_toString cause)),
         add_calls [LoadAccount pk] s)
    | inr account =>
        match Operation_createAccount E destination startingBalance with
        | Some cause =>
            (Thrown (new_Error
                       ("Error creating account: " +:+ error_toString cause)),
             add_calls [LoadAccount pk] s)
        | None =>
            match Keypair_fromSecret E sk with
            | inl cause =>
                (Thrown (new_Error
                           ("Error creating account: "
                              +:+ "Error: Error signing transaction: "
                              +:+ error_toString cause)),
                 add_calls [LoadAccount pk] s)
            | inr signer =>
                let signed :=
                  sign signer
                    (createAccount_envelope E account destination
                       startingBalance) in
                (match server_submitTransaction E signed with
                 | inl cause =>
                     Thrown (new_Error
                               ("Error creating account: "
                                  +:+ "Error: Error submitting transaction: "
                                  +:+ "Error: "
                                  +:+ match err_result_codes cause with
                                      | Some codes =>
                                          "Transaction failed: " +:+ codes
                                      | None =>
                                          "Error submitting transaction: "
                                            +:+ error_toString cause
                                      end))
                 | inr result => Returned result
                 end,
                 add_calls [LoadAccount pk; SubmitTransaction signed] s)
            end
        end
    end.
Proof.
  unfold TransactionService.createAccount, try_catch, bind at 1.
  unfold HorizonService.loadAccount, server_call_loadAccount, try_catch,
    answer, throw, ret.
  destruct (server_loadAccount E pk) as [cause | account]; simpl; [done |].
  unfold bind at 1, check, throw, ret.
  destruct (Operation_createAccount E destination startingBalance)
    as [cause |]; simpl; [done |].
  unfold bind. rewrite signTransaction_spec.
  destruct (Keypair_fromSecret E sk) as [cause | signer]; simpl; [done |].
  rewrite submitTransaction_spec.
  unfold createAccount_envelope, HorizonService.getNetworkPassphrase.
  destruct (server_submitTransaction E _) as [cause | result]; simpl;
    by rewrite !log_add_calls, add_calls_app.
Qed.

(** X18. When the source account loads, the SDK accepts the operation,
    the secret key is valid and the gateway accepts, [createAccount]
    returns the gateway's answer after one account load and one
    submission; the submitted envelope has exactly one operation, the
    createAccount of the destination with the starting balance, fee
    ["100"], a timeout of 30 seconds, no memo and exactly one signature.
    Through the facade a missing starting balance is ["1"]. *)
Theorem createAccount_success (E : Env) (s : State) (pk sk : string)
    (destination : string) (startingBalance : option string)
    (account : AccountRecord) (signer result : string) :
  let amount := default "1" startingBalance in
  let signed :=
    sign signer (createAccount_envelope E account destination amount) in
  server_loadAccount E pk = inr account ->
  Operation_createAccount E destination amount = None ->
  Keypair_fromSecret E sk = inr signer ->
  server_submitTransaction E signed = inr result ->
  StellarWallet.createAccount E pk sk destination startingBalance s
  = (Returned result,
     add_calls [LoadAccount pk; SubmitTransaction signed] s)
  /\ tx_operations signed = [OpCreateAccount destination amount]
  /\ tx_fee signed = "100"
  /\ tx_timeout signed = Some 30%Z
  /\ tx_memo signed = MemoNone
  /\ tx_signatures signed = [signer]
  /\ (int64_range (rec_sequence account) ->
      tx_sequence signed = next_sequence (rec_sequence account)).
Proof.
  intros amount signed Hload Hop Hkey Hsubmit.
  split; [| repeat split; try done; apply int64_wrap_next].
  unfold StellarWallet.createAccount. fold amount.
  rewrite createAccount_spec, Hload, Hop, Hkey. cbv zeta.
  fold signed. by rewrite Hsubmit.
Qed.

(** X18 at a sample input: the starting balance is left out. *)
Lemma createAccount_success_witness :
  exists t,
    calls_of (StellarWallet.createAccount quiet_env "GA" "SA" "GC" None)
      initial_state
    = [LoadAccount "GA"; SubmitTransaction t]
    /\ tx_operations t = [OpCreateAccount "GC" "1"].
Proof.
  pose proof (createAccount_success quiet_env initial_state "GA" "SA" "GC"
                None
                {| rec_id := "GA"; rec_sequence := 5; rec_balances := [] |}
                "signer of SA" "hash" eq_refl eq_refl eq_refl eq_refl)
    as (Hrun & Hops & _).
  eexists. split; [| exact Hops].
  eapply calls_of_add_calls; [exact Hrun | reflexivity].
Defined.

(** X19. [createAccount] submits nothing unless the account loaded, the
    SDK accepted the operation and the secret key was valid, and it
    submits at most once; whatever the outcome, the locally stored
    accounts are untouched.  A failed stage rejects with an [Error] whose
    message is "Error creating account: " followed by the text of the
    stage's error. *)
Theorem createAccount_no_partial_submission (E : Env) (s : State)
    (pk sk destination startingBalance : string) :
  let run :=
    TransactionService.createAccount E pk sk destination startingBalance in
  (calls_of run s = [LoadAccount pk]
   \/ exists account signer,
        server_loadAccount E pk = inr account
        /\ Operation_createAccount E destination startingBalance = None
        /\ Keypair_fromSecret E sk = inr signer
        /\ calls_of run s
           = [LoadAccount pk;
              SubmitTransaction
                (sign signer
                   (createAccount_envelope E account destination
                      startingBalance))])
  /\ st_keychain (snd (run s)) = st_keychain s
  /\ (forall cause,
        server_loadAccount E pk = inl cause ->
        fst (run s)
        = Thrown (new_Error
                    ("Error creating account: Error: Error loading account: "
                       +:+ error_toString cause)))
  /\ (forall account cause,
        server_loadAccount E pk = inr account ->
        Operation_createAccount E destination startingBalance = Some cause ->
        fst (run s)
        = Thrown (new_Error
                    ("Error creating account: " +:+ error_toString cause)))
  /\ (forall account cause,
        server_loadAccount E pk = inr account ->
        Operation_createAccount E destination startingBalance = None ->
        Keypair_fromSecret E sk = inl cause ->
        fst (run s)
        = Thrown (new_Error
                    ("Error creating account: "
                       +:+ "Error: Error signing transaction: "
                       +:+ error_toString cause))).
Proof.
  intros run. subst run. unfold calls_of. rewrite createAccount_spec.
  split; [| split; [| split; [| split]]].
  - destruct (server_loadAccount E pk) as [cause | account];
      [left; apply drop_app_length |].
    destruct (Operation_createAccount E destination startingBalance);
      [left; apply drop_app_length |].
    destruct (Keypair_fromSecret E sk) as [cause | signer];
      [left; apply drop_app_length |].
    right. exists account, signer. repeat split. apply drop_app_length.
  - destruct (server_loadAccount E pk) as [cause | account]; [done |].
    destruct (Operation_createAccount E destination startingBalance);
      [done |].
    by destruct (Keypair_fromSecret E sk).
  - intros cause Hload. by rewrite Hload.
  - intros account cause Hload Hop. by rewrite Hload, Hop.
  - intros account cause Hload Hop Hkey. by rewrite Hload, Hop, Hkey.
Qed.

(** X19 at a sample input: the source account does not exist. *)
Lemma createAccount_no_partial_submission_witness :
  fst (TransactionService.createAccount no_account_env "GA" "SA" "GC" "1"
         initial_state)
  = Thrown (new_Error
              ("Error creating account: Error: Error loading account: "
                 +:+ "NotFoundError: Not Found")).
Proof.
  exact (proj1 (proj2 (proj2 (createAccount_no_partial_submission
                                no_account_env initial_state "GA" "SA" "GC"
                                "1")))
           _ eq_refl).
Defined.

(** * Further properties of the Horizon service *)

Lemma Horizon_loadAccount_spec E pk s :
  HorizonService.loadAccount E pk s
  = (match server_loadAccount E pk with
     | inl cause =>
         Thrown (new_Error
                   ("Error loading account: " +:+ error_toString cause))
     | inr account => Returned account
     end, add_calls [LoadAccount pk] s).
Proof.
  unfold HorizonService.loadAccount, server_call_loadAccount, try_catch,
    answer, throw, ret.
  by destruct (server_loadAccount E pk).
Qed.

(** X20. [accountExists] never throws: it makes one account load and
    returns [true] exactly when the load succeeds, hence exactly when
    [loadAccount] returns; any failure of the load, a missing account or
    a transport error alike, gives [false]. *)
Theorem accountExists_never_throws (E : Env) (s : State) (pk : string) :
  exists exists_ : bool,
    HorizonService.accountExists E pk s
    = (Returned exists_, add_calls [LoadAccount pk] s)
    /\ (exists_ = true <-> exists account, server_loadAccount E pk = inr account)
    /\ (exists_ = true <->
        exists account,
          fst (HorizonService.loadAccount E pk s) = Returned account).
Proof.
  unfold HorizonService.accountExists, try_catch, bind.
  rewrite Horizon_loadAccount_spec.
  destruct (server_loadAccount E pk) as [cause | account]; simpl.
  - exists false. split; [done |].
    split; (split; [done | intros [account Hc]; discriminate Hc]).
  - exists true. split; [done |]. split; (split; [by eexists | done]).
Qed.

(** X21. [getAccountBalances] and [getBalances] both make one account
    load and, when it succeeds, return the balances of the loaded
    account.  When it fails they differ: [getAccountBalances] wraps the
    error of [loadAccount] once more, while [getBalances] logs it and
    rethrows it as it is. *)
Theorem balances_of_loaded_account (E : Env) (s : State) (pk : string) :
  (forall account,
     server_loadAccount E pk = inr account ->
     HorizonService.getAccountBalances E pk s
     = (Returned (rec_balances account), add_calls [LoadAccount pk] s)
     /\ HorizonService.getBalances E pk s
        = (Returned (rec_balances account), add_calls [LoadAccount pk] s))
  /\ (forall cause,
        server_loadAccount E pk = inl cause ->
        let text := "Error loading account: " +:+ error_toString cause in
        HorizonService.getAccountBalances E pk s
        = (Thrown (new_Error
                     ("Error getting account balances: Error: " +:+ text)),
           add_calls [LoadAccount pk] s)
        /\ HorizonService.getBalances E pk s
           = (Thrown (new_Error text),
              add_calls
                [LoadAccount pk;
                 ConsoleError ("Error getting balances: Error: " +:+ text)]
                s)).
Proof.
  unfold HorizonService.getAccountBalances, HorizonService.getBalances,
    try_catch, bind.
  rewrite Horizon_loadAccount_spec. split.
  - intros account Hload. by rewrite Hload.
  - intros cause Hload. cbv zeta. rewrite Hload. split; [done |].
    unfold console_error, throw. simpl.
    by rewrite !log_add_calls, add_calls_app.
Qed.

(** X21 at two sample ledgers. *)
Lemma balances_of_loaded_account_witness :
  fst (HorizonService.getBalances quiet_env "GA" initial_state) = Returned []
  /\ fst (HorizonService.getBalances no_account_env "GA" initial_state)
     = Thrown (new_Error "Error loading account: NotFoundError: Not Found").
Proof.
  split.
  - pose proof (proj1 (balances_of_loaded_account quiet_env initial_state
                         "GA") _ eq_refl) as [_ Hrun].
    by rewrite Hrun.
  - pose proof (proj2 (balances_of_loaded_account no_account_env
                         initial_state "GA") _ eq_refl) as [_ Hrun].
    by rewrite Hrun.
Defined.

(** * Properties of the account directory *)

(** ** Lists of accounts *)

Section AccountLists.

Implicit Types (l : list AccountData) (a : AccountData) (id : string).

Lemma list_find_insert_other {A} (P : A -> Prop) `{!forall x, Decision (P x)}
    (l : list A) (i : nat) (x y : A) :
  l !! i = Some x -> ~ P x -> ~ P y ->
  snd <$> list_find P (<[i := y]> l) = snd <$> list_find P l.
Proof.
  revert i. induction l as [| z l IH]; intros i Hi Hx Hy; [done |].
  destruct i as [| i]; simpl in *.
  - injection Hi as ->. by rewrite !decide_False by done.
  - destruct (decide (P z)); [done |].
    rewrite <- !option_fmap_compose.
    specialize (IH i Hi Hx Hy).
    destruct (list_find P (<[i:=y]> l)) as [[j u] |],
             (list_find P l) as [[j' u'] |]; simpl in *; congruence.
Qed.

Lemma list_find_app_other {A} (P : A -> Prop) `{!forall x, Decision (P x)}
    (l : list A) (y : A) :
  ~ P y -> snd <$> list_find P (l ++ [y]) = snd <$> list_find P l.
Proof.
  intros Hy. induction l as [| z l IH]; simpl.
  - by rewrite decide_False.
  - destruct (decide (P z)); [done |].
    rewrite <- !option_fmap_compose.
    destruct (list_find P (l ++ [y])) as [[j u] |],
             (list_find P l) as [[j' u'] |]; simpl in *; congruence.
Qed.

Lemma list_find_insert_same {A} (P : A -> Prop) `{!forall x, Decision (P x)}
    (l : list A) (i : nat) (x y : A) :
  list_find P l = Some (i, x) -> P y ->
  list_find P (<[i := y]> l) = Some (i, y).
Proof.
  revert i. induction l as [| z l IH]; intros i Hfind Hy; [done |].
  simpl in Hfind. destruct (decide (P z)) as [Hz | Hz].
  - injection Hfind as <- <-. simpl. by rewrite decide_True.
  - destruct (list_find P l) as [[j u] |] eqn:Hl; [| done].
    simpl in Hfind. injection Hfind as <- <-. simpl.
    rewrite decide_False by done. by rewrite (IH j eq_refl Hy).
Qed.

Lemma lookup_put_eq a l : lookup_account (acct_id a) (put_account a l) = Some a.
Proof.
  unfold lookup_account, put_account.
  destruct (list_find _ l) as [[i x] |] eqn:Hfind.
  - by rewrite (list_find_insert_same _ l i x a Hfind eq_refl).
  - apply list_find_None in Hfind.
    rewrite list_find_snoc; [done | | done].
    intros y Hy. by apply (proj1 (Forall_forall _ _) Hfind).
Qed.

Lemma lookup_put_ne a l id :
  id ≠ acct_id a -> lookup_account id (put_account a l) = lookup_account id l.
Proof.
  intros Hne. unfold lookup_account, put_account.
  destruct (list_find _ l) as [[i x] |] eqn:Hfind.
  - apply list_find_Some in Hfind as (Hi & Hx & _).
    apply (list_find_insert_other _ l i x a Hi); congruence.
  - apply list_find_app_other. congruence.
Qed.

Lemma put_account_ids a l :
  acct_id <$> put_account a l
  = if bool_decide (acct_id a ∈ acct_id <$> l) then acct_id <$> l
    else (acct_id <$> l) ++ [acct_id a].
Proof.
  unfold put_account.
  destruct (list_find _ l) as [[i x] |] eqn:Hfind.
  - apply list_find_Some in Hfind as (Hi & Hx & _).
    rewrite bool_decide_eq_true_2.
    + rewrite list_fmap_insert. apply list_insert_id.
      by rewrite list_lookup_fmap, Hi, <- Hx.
    + apply list_elem_of_fmap. exists x. split; [done |].
      by eapply list_elem_of_lookup_2.
  - apply list_find_None in Hfind.
    rewrite bool_decide_eq_false_2; [by rewrite fmap_app |].
    intros Hin. apply list_elem_of_fmap in Hin as (y & Hy & Hin).
    by apply (proj1 (Forall_forall _ _) Hfind y Hin).
Qed.

Lemma put_account_unique a l : ids_unique l -> ids_unique (put_account a l).
Proof.
  unfold ids_unique. intros Hnd. rewrite put_account_ids.
  case_bool_decide as Hin; [done |].
  apply NoDup_app. split; [done |]. split; [| apply NoDup_singleton].
  intros y Hy Hy'. apply list_elem_of_singleton in Hy' as ->. done.
Qed.

Lemma lookup_account_None id l :
  lookup_account id l = None <-> id ∉ acct_id <$> l.
Proof.
  unfold lookup_account. split.
  - intros Hnone Hin. apply list_elem_of_fmap in Hin as (y & Hy & Hin).
    destruct (list_find _ l) as [[i x] |] eqn:Hfind; [done |].
    apply list_find_None in Hfind.
    by apply (proj1 (Forall_forall _ _) Hfind y Hin).
  - intros Hout. destruct (list_find _ l) as [[i x] |] eqn:Hfind; [| done].
    apply list_find_Some in Hfind as (Hi & Hx & _).
    exfalso. apply Hout. apply list_elem_of_fmap. exists x.
    split; [done |]. by eapply list_elem_of_lookup_2.
Qed.

Lemma lookup_account_Some id l a :
  lookup_account id l = Some a -> acct_id a = id /\ a ∈ l.
Proof.
  unfold lookup_account.
  destruct (list_find _ l) as [[i x] |] eqn:Hfind; [| done].
  intros [= <-]. apply list_find_Some in Hfind as (Hi & Hx & _).
  split; [done |]. by eapply list_elem_of_lookup_2.
Qed.

Lemma lookup_filter_eq id l :
  lookup_account id (filter (fun acc => acct_id acc ≠ id) l) = None.
Proof.
  apply lookup_account_None. intros Hin.
  apply list_elem_of_fmap in Hin as (y & Hy & Hin).
  apply list_elem_of_filter in Hin as [Hne _]. done.
Qed.

Lemma lookup_filter_ne id id' l :
  id' ≠ id ->
  lookup_account id' (filter (fun acc => acct_id acc ≠ id) l)
  = lookup_account id' l.
Proof.
  intros Hne. unfold lookup_account.
  induction l as [| z l IH]; [done |].
  rewrite filter_cons. destruct (decide (acct_id z ≠ id)) as [Hz | Hz]; simpl.
  - destruct (decide (acct_id z = id')); [done |].
    rewrite <- !option_fmap_compose.
    destruct (list_find _ (filter _ l)) as [[j u] |],
             (list_find _ l) as [[j' u'] |]; simpl in *; congruence.
  - rewrite decide_False by (intros Hc; apply Hz; congruence).
    rewrite <- !option_fmap_compose.
    destruct (list_find _ (filter _ l)) as [[j u] |],
             (list_find _ l) as [[j' u'] |]; simpl in *; congruence.
Qed.

Lemma filter_length_eq {A} (P : A -> Prop) `{!forall x, Decision (P x)}
    (l : list A) :
  length l = length (filter P l) <-> forall x, x ∈ l -> P x.
Proof.
  split.
  - induction l as [| z l IH]; intros Hlen x Hx;
      [by apply elem_of_nil in Hx |].
    rewrite filter_cons in Hlen. destruct (decide (P z)) as [Hz | Hz].
    + simpl in Hlen. apply elem_of_cons in Hx as [-> | Hx]; [done |].
      apply IH; [lia | done].
    + pose proof (length_filter P l). simpl in Hlen. lia.
  - intros Hall. by rewrite filter_all.
Qed.

Lemma filter_accounts_unique id l :
  ids_unique l -> ids_unique (filter (fun acc => acct_id acc ≠ id) l).
Proof.
  unfold ids_unique. intros Hnd. eapply sublist_NoDup; [apply Hnd |].
  apply fmap_sublist, sublist_filter.
Qed.

End AccountLists.

(** ** KeyManager *)

Lemma getAccounts_spec K s :
  KeyManager.getAccounts K s
  = (Returned (read_accounts K s), add_calls (read_trace K) s).
Proof.
  unfold KeyManager.getAccounts, KeyManager.Keychain_getGenericPassword,
    try_catch, bind, read_accounts, read_trace, stored_accounts.
  destruct (getGenericPassword_throws K) as [e |]; simpl.
  - by rewrite log_add_calls.
  - rewrite add_calls_nil. by destruct (st_keychain s).
Qed.

Lemma getAccount_spec K id s :
  KeyManager.getAccount K id s
  = (Returned (lookup_account id (read_accounts K s)),
     add_calls (read_trace K) s).
Proof.
  unfold KeyManager.getAccount, bind. by rewrite getAccounts_spec.
Qed.

Lemma storeAccount_spec K a s :
  let accounts := put_account a (read_accounts K s) in
  KeyManager.storeAccount K a s
  = match setGenericPassword_throws K accounts with
    | None =>
        (Returned true,
         set_keychain (Some accounts)
           (add_calls (read_trace K ++ [KeychainSet accounts]) s))
    | Some e =>
        (Returned false,
         add_calls
           (read_trace K ++
              [KeychainSet accounts;
               ConsoleError
                 ("Error storing account: " +:+ error_toString e)]) s)
    end.
Proof.
  cbv zeta. unfold KeyManager.storeAccount, try_catch, bind at 1.
  rewrite getAccounts_spec. fold (put_account a (read_accounts K s)).
  unfold bind, KeyManager.Keychain_setGenericPassword, console_error, ret.
  destruct (setGenericPassword_throws K _) as [e |]; simpl;
    unfold set_keychain, log, add_calls; simpl;
    by rewrite <- ?app_assoc.
Qed.

Lemma deleteAccount_spec K id s :
  let accounts := read_accounts K s in
  let filtered := filter (fun acc => acct_id acc ≠ id) accounts in
  KeyManager.deleteAccount K id s
  = if bool_decide (length accounts = length filtered) then
      (Returned false, add_calls (read_trace K) s)
    else
      match setGenericPassword_throws K filtered with
      | None =>
          (Returned true,
           set_keychain (Some filtered)
             (add_calls (read_trace K ++ [KeychainSet filtered]) s))
      | Some e =>
          (Returned false,
           add_calls
             (read_trace K ++
                [KeychainSet filtered;
                 ConsoleError
                   ("Error deleting account: " +:+ error_toString e)]) s)
      end.
Proof.
  cbv zeta. unfold KeyManager.deleteAccount, try_catch, bind at 1.
  rewrite getAccounts_spec.
  case_bool_decide as Hlen; [done |].
  unfold bind, KeyManager.Keychain_setGenericPassword, console_error, ret.
  destruct (setGenericPassword_throws K _) as [e |]; simpl;
    unfold set_keychain, log, add_calls; simpl;
    by rewrite <- ?app_assoc.
Qed.

Lemma read_accounts_readable K s :
  getGenericPassword_throws K = None -> read_accounts K s = stored_accounts s.
Proof. intros Hread. unfold read_accounts. by rewrite Hread. Qed.

Lemma stored_accounts_set_keychain accounts s :
  stored_accounts (set_keychain (Some accounts) s) = accounts.
Proof. reflexivity. Qed.

(** X22. A failing keychain does not make the account directory throw.
    While the keychain is empty, or holds text that does not parse as
    JSON, or holds an array of account records as [storeAccount] and
    [deleteAccount] write it, the four methods [getAccounts],
    [getAccount], [storeAccount] and [deleteAccount] return, whether the
    keychain's read and write calls reject or not.  [storeAccount]
    returns [false] exactly when the keychain write fails, and
    [storeAccount] and [deleteAccount] leave the stored accounts as they
    were whenever they return [false]. *)
Theorem account_directory_absorbs_keychain_failures (K : Keychain)
    (s : State) (a : AccountData) (id : string) :
  (exists accounts s', KeyManager.getAccounts K s = (Returned accounts, s'))
  /\ (exists found s', KeyManager.getAccount K id s = (Returned found, s'))
  /\ (exists ok s',
        KeyManager.storeAccount K a s = (Returned ok, s')
        /\ (ok = false <->
            is_Some (setGenericPassword_throws K
                       (put_account a (read_accounts K s))))
        /\ (ok = false -> st_keychain s' = st_keychain s))
  /\ (exists ok s',
        KeyManager.deleteAccount K id s = (Returned ok, s')
        /\ (ok = false -> st_keychain s' = st_keychain s)).
Proof.
  split; [rewrite getAccounts_spec; by eexists _, _ |].
  split; [rewrite getAccount_spec; by eexists _, _ |].
  split.
  - pose proof (storeAccount_spec K a s) as Hrun. cbv zeta in Hrun.
    rewrite Hrun.
    destruct (setGenericPassword_throws K _) as [e |]; eexists _, _;
      (split; [reflexivity |]).
    + split; [| done]. split; [by eexists | done].
    + split; [| done]. split; [done | by intros [? ?]].
  - pose proof (deleteAccount_spec K id s) as Hrun. cbv zeta in Hrun.
    rewrite Hrun. case_bool_decide; [by eexists _, _ |].
    destruct (setGenericPassword_throws K _) as [e |]; by eexists _, _.
Qed.

(** X23. Store and look up: with a keychain that can be read, a
    [storeAccount] that returns [true] is followed by a [getAccount] of
    the account's id that returns this very account, while [getAccount]
    of any other id returns what it returned before. *)
Theorem storeAccount_getAccount (K : Keychain) (s : State)
    (a : AccountData) :
  getGenericPassword_throws K = None ->
  fst (KeyManager.storeAccount K a s) = Returned true ->
  let s' := snd (KeyManager.storeAccount K a s) in
  fst (KeyManager.getAccount K (acct_id a) s') = Returned (Some a)
  /\ (forall id, id ≠ acct_id a ->
        fst (KeyManager.getAccount K id s')
        = fst (KeyManager.getAccount K id s)).
Proof.
  intros Hread Htrue. cbv zeta.
  pose proof (storeAccount_spec K a s) as Hrun. cbv zeta in Hrun.
  rewrite Hrun in Htrue |- *.
  destruct (setGenericPassword_throws K _) as [e |]; [discriminate Htrue |].
  simpl snd. rewrite !getAccount_spec. simpl fst.
  rewrite !read_accounts_readable, stored_accounts_set_keychain by done.
  split; [by rewrite lookup_put_eq |].
  intros id Hne. rewrite !getAccount_spec. simpl fst.
  rewrite !read_accounts_readable, stored_accounts_set_keychain by done.
  by rewrite lookup_put_ne.
Qed.

(** X23 at a sample state: B is stored again with balances. *)
Lemma storeAccount_getAccount_witness :
  let b' := {| acct_id := "GB"; acct_name := None;
               acct_keyPair := {| publicKey := "GB"; secretKey := None |};
               acct_balances := Some [] |} in
  fst (KeyManager.getAccount working_keychain "GB"
         (snd (KeyManager.storeAccount working_keychain b' two_accounts)))
  = Returned (Some b').
Proof.
  intros b'.
  exact (proj1 (storeAccount_getAccount working_keychain two_accounts b'
                  eq_refl eq_refl)).
Defined.

(** X24. Storing keeps the directory a directory: with a keychain that
    can be read, a [storeAccount] that returns [true] leaves the stored
    ids without duplicates if they had none; an account whose id is
    already stored takes the place of the old one, the ids and their
    order staying as they are, and an account with a new id goes last. *)
Theorem storeAccount_keeps_ids_unique (K : Keychain) (s : State)
    (a : AccountData) :
  getGenericPassword_throws K = None ->
  fst (KeyManager.storeAccount K a s) = Returned true ->
  let s' := snd (KeyManager.storeAccount K a s) in
  (ids_unique (stored_accounts s) -> ids_unique (stored_accounts s'))
  /\ (acct_id a ∈ acct_id <$> stored_accounts s ->
      acct_id <$> stored_accounts s' = acct_id <$> stored_accounts s)
  /\ (acct_id a ∉ acct_id <$> stored_accounts s ->
      stored_accounts s' = stored_accounts s ++ [a]).
Proof.
  intros Hread Htrue. cbv zeta.
  pose proof (storeAccount_spec K a s) as Hrun. cbv zeta in Hrun.
  rewrite Hrun in Htrue |- *.
  destruct (setGenericPassword_throws K _) as [e |]; [discriminate Htrue |].
  simpl snd. rewrite stored_accounts_set_keychain.
  rewrite read_accounts_readable by done.
  split; [apply put_account_unique |]. split.
  - intros Hin. by rewrite put_account_ids, bool_decide_eq_true_2.
  - intros Hout. apply lookup_account_None in Hout.
    unfold put_account, lookup_account in *.
    by destruct (list_find _ (stored_accounts s)) as [[i x] |].
Qed.

(** X24 at a sample state: a third account is stored. *)
Lemma storeAccount_keeps_ids_unique_witness :
  let c := {| acct_id := "GC"; acct_name := None;
              acct_keyPair := {| publicKey := "GC"; secretKey := None |};
              acct_balances := None |} in
  stored_accounts
    (snd (KeyManager.storeAccount working_keychain c two_accounts))
  = [account_A; account_B; c].
Proof.
  intros c.
  apply (proj2 (proj2 (storeAccount_keeps_ids_unique working_keychain
                         two_accounts c eq_refl eq_refl))).
  vm_compute. intros H.
  repeat (apply elem_of_cons in H as [H | H]; [discriminate H |]).
  by apply elem_of_nil in H.
Defined.

(** X25. Deleting: with a keychain that can be read, [deleteAccount] of
    an id that is not stored returns [false] and writes nothing; of a
    stored id, when the write succeeds, it returns [true], after which
    [getAccount] of that id returns [null], [getAccount] of any other id
    returns what it returned before, and ids without duplicates stay
    so. *)
Theorem deleteAccount_removes (K : Keychain) (s : State) (id : string) :
  getGenericPassword_throws K = None ->
  let s' := snd (KeyManager.deleteAccount K id s) in
  (id ∉ acct_id <$> stored_accounts s ->
   KeyManager.deleteAccount K id s = (Returned false, s))
  /\ (id ∈ acct_id <$> stored_accounts s ->
      setGenericPassword_throws K
        (filter (fun acc => acct_id acc ≠ id) (stored_accounts s)) = None ->
      fst (KeyManager.deleteAccount K id s) = Returned true
      /\ fst (KeyManager.getAccount K id s') = Returned None
      /\ (forall id', id' ≠ id ->
            fst (KeyManager.getAccount K id' s')
            = fst (KeyManager.getAccount K id' s))
      /\ (ids_unique (stored_accounts s) -> ids_unique (stored_accounts s'))).
Proof.
  intros Hread. cbv zeta.
  pose proof (deleteAccount_spec K id s) as Hrun. cbv zeta in Hrun.
  assert (Hr : read_accounts K s = stored_accounts s)
    by by apply read_accounts_readable.
  assert (Ht : read_trace K = []).
  { unfold read_trace. by rewrite Hread. }
  rewrite Hr, Ht in Hrun. split.
  - intros Hout. rewrite Hrun, bool_decide_eq_true_2.
    + by rewrite add_calls_nil.
    + apply filter_length_eq. intros x Hx Heq. apply Hout.
      apply list_elem_of_fmap. by exists x.
  - intros Hin Hwrite. rewrite Hrun.
    rewrite bool_decide_eq_false_2.
    + rewrite Hwrite. simpl snd. simpl fst.
      rewrite !getAccount_spec. simpl fst.
      rewrite !read_accounts_readable, stored_accounts_set_keychain by done.
      split; [done |]. split; [by rewrite lookup_filter_eq |].
      split; [| apply filter_accounts_unique].
      intros id' Hne. rewrite !getAccount_spec. simpl fst.
      rewrite !read_accounts_readable, stored_accounts_set_keychain by done.
      by rewrite lookup_filter_ne.
    + intros Hlen.
      pose proof (proj1 (filter_length_eq _ _) Hlen) as Hall.
      apply list_elem_of_fmap in Hin as (x & Hx & Hin).
      by apply (Hall x Hin).
Qed.

(** X25 at a sample state: A is deleted, B stays. *)
Lemma deleteAccount_removes_witness :
  fst (KeyManager.deleteAccount working_keychain "GA" two_accounts)
  = Returned true
  /\ fst (KeyManager.getAccount working_keychain "GA"
            (snd (KeyManager.deleteAccount working_keychain "GA"
                    two_accounts)))
     = Returned None.
Proof.
  assert (Hin : "GA" ∈ acct_id <$> stored_accounts two_accounts)
    by (vm_compute; by left).
  destruct (proj2 (deleteAccount_removes working_keychain two_accounts "GA"
                     eq_refl) Hin eq_refl) as (Htrue & Hgone & _).
  split; [exact Htrue | exact Hgone].
Defined.

(** X26. A keychain that cannot be read, or whose content does not
    parse, reads as empty: [getAccounts] returns the empty list,
    [getAccount] returns [null] and [deleteAccount] returns [false]
    without writing; [storeAccount], when its write succeeds, returns
    [true] and the keychain then holds the stored account alone. *)
Theorem unreadable_keychain_reads_empty (K : Keychain) (s : State)
    (a : AccountData) (id : string) (e : JsError) :
  getGenericPassword_throws K = Some e ->
  fst (KeyManager.getAccounts K s) = Returned []
  /\ fst (KeyManager.getAccount K id s) = Returned None
  /\ fst (KeyManager.deleteAccount K id s) = Returned false
  /\ st_keychain (snd (KeyManager.deleteAccount K id s)) = st_keychain s
  /\ keychain_writes (calls_of (KeyManager.deleteAccount K id) s) = []
  /\ (setGenericPassword_throws K [a] = None ->
      fst (KeyManager.storeAccount K a s) = Returned true
      /\ st_keychain (snd (KeyManager.storeAccount K a s)) = Some [a]).
Proof.
  intros Hread.
  assert (Hr : read_accounts K s = []).
  { unfold read_accounts. by rewrite Hread. }
  rewrite getAccounts_spec, getAccount_spec, Hr.
  pose proof (deleteAccount_spec K id s) as Hdel. cbv zeta in Hdel.
  rewrite Hr in Hdel. simpl in Hdel.
  pose proof (storeAccount_spec K a s) as Hsto. cbv zeta in Hsto.
  rewrite Hr in Hsto. unfold put_account in Hsto. simpl in Hsto.
  split; [done |]. split; [done |]. rewrite Hdel.
  split; [done |]. split; [done |]. split.
  - erewrite calls_of_add_calls; [| apply Hdel | reflexivity].
    unfold read_trace. by rewrite Hread.
  - intros Hwrite. rewrite Hsto, Hwrite. done.
Qed.

(** X26 at a sample state: A and B are stored and the keychain cannot
    be read. *)
Lemma unreadable_keychain_reads_empty_witness :
  let c := {| acct_id := "GC"; acct_name := None;
              acct_keyPair := {| publicKey := "GC"; secretKey := None |};
              acct_balances := None |} in
  st_keychain (snd (KeyManager.storeAccount unreadable_keychain c
                      two_accounts))
  = Some [c].
Proof.
  intros c.
  exact (proj2 (proj2 (proj2 (proj2 (proj2 (proj2
           (unreadable_keychain_reads_empty unreadable_keychain two_accounts
              c "GA" (new_Error "keychain locked") eq_refl))))) eq_refl)).
Defined.

(** X22 at a sample state: the keychain can be read but not written. *)
Lemma account_directory_absorbs_keychain_failures_witness :
  exists s',
    KeyManager.storeAccount readonly_keychain account_A two_accounts
    = (Returned false, s')
    /\ st_keychain s' = st_keychain two_accounts.
Proof.
  destruct (account_directory_absorbs_keychain_failures readonly_keychain
              two_accounts account_A "GA")
    as (_ & _ & (ok & s' & Hrun & Hfalse & Hsame) & _).
  assert (Hok : ok = false) by (apply Hfalse; by eexists).
  subst ok. exists s'. split; [exact Hrun | by apply Hsame].
Defined.

(** ** StellarWallet *)

(** X27. [loadAccountData] refreshes a stored account and nothing else.
    For an id the directory does not return, it rejects with "Account
    not found" without contacting Horizon or writing the keychain.  For a
    stored account whose load fails, it rejects with the load error and
    the keychain is as before.  For a stored account that loads, it
    returns the stored account with its balances replaced by those of the
    ledger, id, name and key pair kept; when the keychain write succeeds
    the directory then returns that account for the id, and when the
    write fails the call returns it all the same while the keychain keeps
    the old content. *)
Theorem loadAccountData_refreshes_balances (E : Env) (K : Keychain)
    (s : State) (pk : string) :
  let run := StellarWallet.loadAccountData E K pk in
  (lookup_account pk (read_accounts K s) = None ->
   run s
   = (Thrown (new_Error
                ("Error loading account data: Error: Account not found: "
                   +:+ pk)),
      add_calls (read_trace K) s))
  /\ (forall stored cause,
        lookup_account pk (read_accounts K s) = Some stored ->
        server_loadAccount E pk = inl cause ->
        run s
        = (Thrown (new_Error
                     ("Error loading account data: "
                        +:+ "Error: Error loading account: "
                        +:+ error_toString cause)),
           add_calls (read_trace K ++ [LoadAccount pk]) s))
  /\ (forall stored record,
        lookup_account pk (read_accounts K s) = Some stored ->
        server_loadAccount E pk = inr record ->
        let updated :=
          {| acct_id := acct_id stored; acct_name := acct_name stored;
             acct_keyPair := acct_keyPair stored;
             acct_balances := Some (rec_balances record) |} in
        let written := put_account updated (read_accounts K s) in
        fst (run s) = Returned updated
        /\ acct_id updated = pk
        /\ (setGenericPassword_throws K written = None ->
            st_keychain (snd (run s)) = Some written
            /\ lookup_account pk written = Some updated)
        /\ (is_Some (setGenericPassword_throws K written) ->
            st_keychain (snd (run s)) = st_keychain s)).
Proof.
  intros run. subst run. split; [| split].
  - intros Hnone.
    unfold StellarWallet.loadAccountData, try_catch, bind at 1.
    by rewrite getAccount_spec, Hnone.
  - intros stored cause Hsome Hload.
    unfold StellarWallet.loadAccountData, try_catch, bind at 1.
    rewrite getAccount_spec, Hsome.
    unfold bind at 1. rewrite Horizon_loadAccount_spec, Hload.
    by rewrite add_calls_app.
  - intros stored record Hsome Hload updated written.
    set (s1 := add_calls [LoadAccount pk] (add_calls (read_trace K) s)).
    pose proof (storeAccount_spec K updated s1) as Hstore.
    cbv zeta in Hstore.
    change (read_accounts K s1) with (read_accounts K s) in Hstore.
    fold written in Hstore.
    assert (Hrun : StellarWallet.loadAccountData E K pk s
                   = (Returned updated,
                      snd (KeyManager.storeAccount K updated s1))).
    { unfold StellarWallet.loadAccountData, try_catch, bind at 1.
      rewrite getAccount_spec, Hsome.
      unfold bind at 1. rewrite Horizon_loadAccount_spec, Hload.
      unfold bind. fold updated. fold s1. rewrite Hstore.
      by destruct (setGenericPassword_throws K written). }
    assert (Hid : acct_id updated = pk).
    { by apply lookup_account_Some in Hsome as [Hid _]. }
    rewrite Hrun, Hstore. simpl fst.
    split; [done |]. split; [done |].
    destruct (setGenericPassword_throws K written) as [e |]; simpl; split.
    + intros Hc. discriminate Hc.
    + done.
    + intros _. split; [done |].
      subst written. rewrite <- Hid. apply lookup_put_eq.
    + by intros [? ?].
Qed.

(** X27 at a sample state: A is stored and the ledger knows it. *)
Lemma loadAccountData_refreshes_balances_witness :
  fst (StellarWallet.loadAccountData quiet_env working_keychain "GA"
         two_accounts)
  = Returned {| acct_id := "GA"; acct_name := Some "savings";
                acct_keyPair := {| publicKey := "GA";
                                   secretKey := Some "SA" |};
                acct_balances := Some [] |}.
Proof.
  exact (proj1 (proj2 (proj2 (loadAccountData_refreshes_balances quiet_env
                                working_keychain two_accounts "GA"))
                  account_A
                  {| rec_id := "GA"; rec_sequence := 5; rec_balances := [] |}
                  eq_refl eq_refl)).
Defined.

(** X28. [importAccount] is offline.  With a valid secret key it returns
    an account whose id is the public key of the key pair, which also
    holds the secret key, and whose name is the given name, or, when none
    or the empty name is given, "Account " followed by the first five
    characters of the public key; the name is never empty.  With an
    invalid secret key it rejects with an [Error] whose message is
    "Invalid secret key: " followed by the text of the SDK's error.
    Either way the state is left as it was. *)
Theorem importAccount_names_account (E : Env) (s : State) (sk : string)
    (name : option string) :
  snd (StellarWallet.importAccount E sk name s) = s
  /\ (forall pub,
        Keypair_fromSecret E sk = inr pub ->
        exists account,
          fst (StellarWallet.importAccount E sk name s) = Returned account
          /\ acct_id account = pub
          /\ acct_keyPair account
             = {| publicKey := pub; secretKey := Some sk |}
          /\ acct_balances account = None
          /\ (exists text, acct_name account = Some text /\ text ≠ ""
                /\ (forall given, name = Some given -> given ≠ "" ->
                      text = given)
                /\ (name = None \/ name = Some "" ->
                    text = "Account " +:+ String.substring 0 5 pub)))
  /\ (forall cause,
        Keypair_fromSecret E sk = inl cause ->
        fst (StellarWallet.importAccount E sk name s)
        = Thrown (new_Error
                    ("Invalid secret key: " +:+ error_toString cause))).
Proof.
  unfold StellarWallet.importAccount, KeyManager.importFromSecret,
    try_catch, bind, answer, throw, ret.
  destruct (Keypair_fromSecret E sk) as [cause | pub0]; simpl.
  - split; [done |]. split; [intros pub Hc; discriminate Hc |].
    intros cause0 [= <-]. done.
  - split; [done |]. split; [| intros cause Hc; discriminate Hc].
    intros pub [= <-]. eexists. split; [reflexivity |]. simpl.
    repeat split. eexists. split; [reflexivity |].
    unfold StellarWallet.account_name. simpl.
    destruct name as [given |].
    + case_bool_decide as Hempty.
      * split; [discriminate |]. split; [| done].
        intros given' [= <-] Hne. done.
      * split; [done |]. split; [by intros given' [= <-] |].
        intros [Hc | Hc]; [discriminate Hc | by injection Hc].
    + split; [discriminate |]. split; [done | done].
Qed.

(** X28 at a sample input: an account imported without a name. *)
Lemma importAccount_names_account_witness :
  exists account,
    fst (StellarWallet.importAccount quiet_env "SECRET" None initial_state)
    = Returned account
    /\ acct_name account = Some "Account signe".
Proof.
  destruct (proj1 (proj2 (importAccount_names_account quiet_env
                            initial_state "SECRET" None))
              "signer of SECRET" eq_refl)
    as (account & Hrun & _ & _ & _ & text & Hname & _ & _ & Hdefault).
  exists account. split; [exact Hrun |].
  rewrite Hname. f_equal. apply Hdefault. by left.
Defined.

(** * Submission errors *)

(** X29. [submitTransaction] makes exactly one submission call and never
    retries.  It returns what the gateway answered; when the gateway
    rejects with result codes, it throws an [Error] whose message carries
    the codes and not the text of the gateway's error; when the error has
    no result codes, the message carries the text of the error. *)
Theorem submitTransaction_error_messages (E : Env) (s : State)
    (t : Transaction) :
  calls_of (TransactionService.submitTransaction E t) s
  = [SubmitTransaction t]
  /\ (forall result,
        server_submitTransaction E t = inr result ->
        fst (TransactionService.submitTransaction E t s) = Returned result)
  /\ (forall cause codes,
        server_submitTransaction E t = inl cause ->
        err_result_codes cause = Some codes ->
        fst (TransactionService.submitTransaction E t s)
        = Thrown (new_Error
                    ("Error submitting transaction: "
                       +:+ "Error: Transaction failed: " +:+ codes)))
  /\ (forall cause,
        server_submitTransaction E t = inl cause ->
        err_result_codes cause = None ->
        fst (TransactionService.submitTransaction E t s)
        = Thrown (new_Error
                    ("Error submitting transaction: "
                       +:+ "Error: Error submitting transaction: "
                       +:+ error_toString cause))).
Proof.
  unfold calls_of. rewrite submitTransaction_spec. simpl.
  split; [apply drop_app_length |]. split; [| split].
  - intros result Hsubmit. by rewrite Hsubmit.
  - intros cause codes Hsubmit Hcodes. by rewrite Hsubmit, Hcodes.
  - intros cause Hsubmit Hcodes. by rewrite Hsubmit, Hcodes.
Qed.

(** X29 at a sample ledger that answers [tx_bad_seq]. *)
Lemma submitTransaction_error_messages_witness :
  let t := envelope_of bad_seq_env
             {| rec_id := "GA"; rec_sequence := 5; rec_balances := [] |}
             (PaymentIntent (payment_A_to_B None)) in
  fst (TransactionService.submitTransaction bad_seq_env t initial_state)
  = Thrown (new_Error
              ("Error submitting transaction: "
                 +:+ "Error: Transaction failed: {transaction:tx_bad_seq}")).
Proof.
  intros t.
  exact (proj1 (proj2 (proj2 (submitTransaction_error_messages bad_seq_env
                                initial_state t)))
           _ "{transaction:tx_bad_seq}" eq_refl eq_refl).
Defined.

(** * The invariant of the account directory *)

Lemma read_accounts_unique K s :
  ids_unique (stored_accounts s) -> ids_unique (read_accounts K s).
Proof.
  intros Hu. unfold read_accounts.
  destruct (getGenericPassword_throws K); [apply NoDup_nil_2 | done].
Qed.

Lemma storeAccount_unique K a s :
  ids_unique (stored_accounts s) ->
  ids_unique (stored_accounts (snd (KeyManager.storeAccount K a s))).
Proof.
  intros Hu. pose proof (storeAccount_spec K a s) as Hrun.
  cbv zeta in Hrun. rewrite Hrun.
  destruct (setGenericPassword_throws K _); simpl snd; [done |].
  rewrite stored_accounts_set_keychain.
  by apply put_account_unique, read_accounts_unique.
Qed.

Lemma deleteAccount_unique K id s :
  ids_unique (stored_accounts s) ->
  ids_unique (stored_accounts (snd (KeyManager.deleteAccount K id s))).
Proof.
  intros Hu. pose proof (deleteAccount_spec K id s) as Hrun.
  cbv zeta in Hrun. rewrite Hrun. case_bool_decide; [done |].
  destruct (setGenericPassword_throws K _); simpl snd; [done |].
  rewrite stored_accounts_set_keychain.
  by apply filter_accounts_unique, read_accounts_unique.
Qed.

Lemma loadAccountData_unique E K pk s :
  ids_unique (stored_accounts s) ->
  ids_unique (stored_accounts (snd (StellarWallet.loadAccountData E K pk s))).
Proof.
  intros Hu.
  unfold StellarWallet.loadAccountData, try_catch, bind at 1.
  rewrite getAccount_spec.
  destruct (lookup_account pk (read_accounts K s)) as [stored |]; [| done].
  unfold bind at 1. rewrite Horizon_loadAccount_spec.
  destruct (server_loadAccount E pk) as [cause | record]; [done |].
  unfold bind.
  match goal with
  | |- context [KeyManager.storeAccount K ?a ?s1] =>
      pose proof (storeAccount_unique K a s1 Hu) as Hu';
      destruct (KeyManager.storeAccount K a s1) as [[ok | e] s2]
  end; exact Hu'.
Qed.

(** X30. The account directory never holds two accounts with the same
    id: after any sequence of [storeAccount], [deleteAccount],
    [getAccount], [getAccounts] and [loadAccountData] on an empty
    keychain, whatever the keychain and the ledger answer at each call,
    the stored ids are without duplicates. *)
Theorem account_directory_invariant
    (rs : list (Env * Keychain * DirectoryRequest)) :
  ids_unique (stored_accounts (serve_directory_all rs initial_state)).
Proof.
  assert (Hstep : forall rs s,
            ids_unique (stored_accounts s) ->
            ids_unique (stored_accounts (serve_directory_all rs s))).
  { clear rs. induction rs as [| [[E K] r] rs IH]; intros s Hu; [done |].
    simpl. apply IH. destruct r as [a | id | id | | pk]; simpl.
    - by apply storeAccount_unique.
    - by apply deleteAccount_unique.
    - unfold StellarWallet.getAccount. by rewrite getAccount_spec.
    - unfold StellarWallet.getAccounts. by rewrite getAccounts_spec.
    - by apply loadAccountData_unique. }
  apply Hstep. apply NoDup_nil_2.
Qed.
